(** * Buffer pool of the db-intro storage engine: model and properties

    A shallow embedding of the three translation units of the repository:
    - [lru_k_replacer.cpp]  (module [Replacer]),
    - [buffer_pool_manager.cpp]  (module [Bpm]),
    - [disk_scheduler.cpp], which also holds the page guards
      (modules [Scheduler] and [Guards]).

    Machine integers are integers of [Z] with the wrap-around of their C++
    type written out; [std::unordered_map] is a [gmap]; member functions are
    functions from the object's state to an [outcome], which is either a
    normal return or a thrown exception, both with the state left behind. *)

From Stdlib Require Import ZArith List Bool Lia.
From stdpp Require Import gmap list sorting.

Local Open Scope Z_scope.

(** ** Common definitions *)

(** [size_t] is 64 bits wide. *)
Definition SIZE_MAX : Z := 2 ^ 64 - 1.
Definition wrap_size_t (z : Z) : Z := z mod 2 ^ 64.

(** Modelled from the spec: [INVALID_FRAME_ID] and [INVALID_PAGE_ID], the
    distinguished invalid identifiers of section 3. Their declarations
    (common/config.h) are not among the sources; both are [-1] there. *)
Definition INVALID_FRAME_ID : Z := -1.
Definition INVALID_PAGE_ID : Z := -1.

(** [common/exception.h]: the two exception types the sources throw. *)
Inductive ExceptionType := OUT_OF_RANGE | INVALID.

(** Result of running a member function on a state of type [S]. *)
Inductive outcome (S A : Type) : Type :=
| Normal (a : A) (s : S)
| Thrown (e : ExceptionType) (s : S).
Arguments Normal {S A} a s.
Arguments Thrown {S A} e s.

Definition state_of {S A} (o : outcome S A) : S :=
  match o with Normal _ s => s | Thrown _ s => s end.

(** The state a call leaves behind. *)
Definition after {S A} (m : S -> outcome S A) (s : S) : S := state_of (m s).

Definition value_of {S A} (o : outcome S A) : option A :=
  match o with Normal a _ => Some a | Thrown _ _ => None end.

Definition raises {S A} (e : ExceptionType) (o : outcome S A) : Prop :=
  match o with Normal _ _ => False | Thrown e' _ => e' = e end.

(** State-and-exception monad. *)
Definition M (S A : Type) : Type := S -> outcome S A.

Definition ret {S A} (a : A) : M S A := fun s => Normal a s.
Definition throw {S A} (e : ExceptionType) : M S A := fun s => Thrown e s.
Definition bind {S A B} (m : M S A) (f : A -> M S B) : M S B :=
  fun s => match m s with
           | Normal a s' => f a s'
           | Thrown e s' => Thrown e s'
           end.
Definition get {S} : M S S := fun s => Normal s s.
Definition modify {S} (f : S -> S) : M S unit := fun s => Normal tt (f s).

Declare Scope cpp_scope.
Delimit Scope cpp_scope with cpp.
Notation "x <- c1 ;; c2" := (bind c1 (fun x => c2))
  (at level 100, c1 at next level, right associativity) : cpp_scope.
Notation "c1 ;; c2" := (bind c1 (fun _ => c2))
  (at level 100, right associativity) : cpp_scope.

(** ** lru_k_replacer.cpp *)

Module Replacer.

(** [LRUKNode]: [history_] is the [std::list<size_t>] of timestamps, oldest
    at the front (the head of the list). *)
Record LRUKNode := mkNode {
  history_ : list Z;
  fid_ : Z;
  is_evictable_ : bool
}.

(** The node that [node_store_[fid]] creates for an absent key. The class
    [LRUKNode] is declared in buffer/lru_k_replacer.h, which is not among
    the sources; following section 4.2 a new node has an empty history and
    is not evictable. *)
Definition default_node : LRUKNode :=
  {| history_ := []; fid_ := 0; is_evictable_ := false |}.

Record LRUKReplacer := mkReplacer {
  node_store_ : gmap Z LRUKNode;
  current_timestamp_ : Z;
  curr_size_ : Z;
  replacer_size_ : Z;
  k_ : Z
}.

(** [LRUKReplacer::LRUKReplacer(num_frames, k)]; the timestamp and the
    size start at 0 (default member initialisers of the header). *)
Definition init (num_frames k : Z) : LRUKReplacer :=
  {| node_store_ := ∅; current_timestamp_ := 0; curr_size_ := 0;
     replacer_size_ := num_frames; k_ := k |}.

(** [history_.front()]; on an empty list the source has undefined
    behaviour, the model answers 0 (no node of a reachable state has an
    empty history, see [wf]). *)
Definition front (h : list Z) : Z := hd 0 h.

(** [node_store_[fid]] used as an rvalue on a present key. *)
Definition at_ (store : gmap Z LRUKNode) (fid : Z) : LRUKNode :=
  default default_node (store !! fid).

(** The [distance] computed in the loop of [Evict]. *)
Definition distance (r : LRUKReplacer) (node : LRUKNode) : Z :=
  if Z.of_nat (length (history_ node)) <? k_ r then SIZE_MAX
  else wrap_size_t (current_timestamp_ r - front (history_ node)).

(** One iteration of the loop of [Evict]; the accumulator holds
    [(victim_id, max_distance)]. *)
Definition evict_step (r : LRUKReplacer) (acc : Z * Z) (kv : Z * LRUKNode) : Z * Z :=
  let '(victim_id, max_distance) := acc in
  let node := kv.2 in
  if negb (is_evictable_ node) then acc
  else
    let d := distance r node in
    if (victim_id =? INVALID_FRAME_ID)
       || (max_distance <? d)
       || ((max_distance =? d)
           && (front (history_ node) <? front (history_ (at_ (node_store_ r) victim_id))))
    then (fid_ node, d)
    else acc.

Definition evict_scan (r : LRUKReplacer) (order : list (Z * LRUKNode)) : Z * Z :=
  fold_left (evict_step r) order (INVALID_FRAME_ID, 0).

(** [LRUKReplacer::Evict], visiting the nodes in the order [order]. The
    result is the frame id written through the out-parameter when the
    function returns true. *)
Definition Evict_in (order : list (Z * LRUKNode)) (r : LRUKReplacer)
  : option Z * LRUKReplacer :=
  let victim_id := (evict_scan r order).1 in
  if victim_id =? INVALID_FRAME_ID then (None, r)
  else (Some victim_id,
        {| node_store_ := delete victim_id (node_store_ r);
           current_timestamp_ := current_timestamp_ r;
           curr_size_ := wrap_size_t (curr_size_ r - 1);
           replacer_size_ := replacer_size_ r;
           k_ := k_ r |}).

(** The iteration order of an [std::unordered_map] is not specified; the
    executable [Evict] takes the enumeration of the [gmap]. Properties of
    [Evict] are proved of [Evict_in] for every enumeration, and in a
    well-formed state every enumeration gives the result of [Evict]. *)
Definition Evict (r : LRUKReplacer) : option Z * LRUKReplacer :=
  Evict_in (map_to_list (node_store_ r)) r.

(** The range check shared by [RecordAccess], [SetEvictable], [Remove]. *)
Definition out_of_range (r : LRUKReplacer) (frame_id : Z) : bool :=
  (frame_id <? 0) || (replacer_size_ r <? wrap_size_t frame_id).

(** [while (node.history_.size() > k_) node.history_.pop_front();] *)
Fixpoint trim (k : Z) (h : list Z) : list Z :=
  match h with
  | [] => []
  | _ :: t => if k <? Z.of_nat (length h) then trim k t else h
  end.

(** [LRUKReplacer::RecordAccess] *)
Definition RecordAccess (frame_id : Z) : M LRUKReplacer unit := fun r =>
  if out_of_range r frame_id then Thrown OUT_OF_RANGE r
  else
    let ts := wrap_size_t (current_timestamp_ r + 1) in
    let node := at_ (node_store_ r) frame_id in
    let node' := {| history_ := trim (k_ r) (history_ node ++ [ts]);
                    fid_ := frame_id;
                    is_evictable_ := is_evictable_ node |} in
    Normal tt {| node_store_ := <[frame_id := node']> (node_store_ r);
                 current_timestamp_ := ts;
                 curr_size_ := curr_size_ r;
                 replacer_size_ := replacer_size_ r;
                 k_ := k_ r |}.

(** [LRUKReplacer::SetEvictable] *)
Definition SetEvictable (frame_id : Z) (set_evictable : bool) : M LRUKReplacer unit := fun r =>
  if out_of_range r frame_id then Thrown OUT_OF_RANGE r
  else
    match node_store_ r !! frame_id with
    | None => Normal tt r
    | Some node =>
        if negb (eqb (is_evictable_ node) set_evictable) then
          Normal tt {| node_store_ :=
                         <[frame_id := {| history_ := history_ node;
                                          fid_ := fid_ node;
                                          is_evictable_ := set_evictable |}]> (node_store_ r);
                       current_timestamp_ := current_timestamp_ r;
                       curr_size_ := if set_evictable
                                     then wrap_size_t (curr_size_ r + 1)
                                     else wrap_size_t (curr_size_ r - 1);
                       replacer_size_ := replacer_size_ r;
                       k_ := k_ r |}
        else Normal tt r
    end.

(** [LRUKReplacer::Remove] *)
Definition Remove (frame_id : Z) : M LRUKReplacer unit := fun r =>
  if out_of_range r frame_id then Thrown OUT_OF_RANGE r
  else
    match node_store_ r !! frame_id with
    | None => Normal tt r
    | Some node =>
        if negb (is_evictable_ node) then Thrown INVALID r
        else Normal tt {| node_store_ := delete frame_id (node_store_ r);
                          current_timestamp_ := current_timestamp_ r;
                          curr_size_ := wrap_size_t (curr_size_ r - 1);
                          replacer_size_ := replacer_size_ r;
                          k_ := k_ r |}
    end.

(** [LRUKReplacer::Size] *)
Definition Size (r : LRUKReplacer) : Z := curr_size_ r.

(** *** The replacement policy as the specification words it *)

(** Backward K-distance of section 4.2: the current timestamp minus the
    front of the history when the history has reached K entries, and
    infinite otherwise. *)
Inductive kdist := Finite (d : Z) | Infinite.

Definition spec_backward_k_distance (r : LRUKReplacer) (n : LRUKNode) : kdist :=
  if Z.of_nat (length (history_ n)) <? k_ r then Infinite
  else Finite (current_timestamp_ r - front (history_ n)).

Definition kdist_lt (a b : kdist) : Prop :=
  match a, b with
  | Finite x, Finite y => x < y
  | Finite _, Infinite => True
  | Infinite, _ => False
  end.

(** [v] is to be evicted rather than [n]: its distance is greater, or
    both are infinite and [v] was first accessed earlier. *)
Definition evicted_before (r : LRUKReplacer) (v n : LRUKNode) : Prop :=
  kdist_lt (spec_backward_k_distance r n) (spec_backward_k_distance r v)
  \/ (spec_backward_k_distance r n = Infinite
      /\ spec_backward_k_distance r v = Infinite
      /\ front (history_ v) < front (history_ n)).

(** *** States of the replacer *)

(** What holds of every state the member functions build as long as the
    timestamp counter has not wrapped around: K is positive, a node is
    stored under its own frame id, its history is not empty and holds
    past timestamps, oldest first, and no timestamp is in two histories. *)
Record wf (r : LRUKReplacer) : Prop := mk_wf {
  wf_k : 1 <= k_ r;
  wf_now : 0 <= current_timestamp_ r <= SIZE_MAX;
  wf_node : forall f n, node_store_ r !! f = Some n ->
      fid_ n = f /\ 0 <= f /\ history_ n <> []
      /\ Forall (fun t => 1 <= t <= current_timestamp_ r) (history_ n);
  wf_apart : forall f1 f2 n1 n2 t,
      node_store_ r !! f1 = Some n1 -> node_store_ r !! f2 = Some n2 ->
      t ∈ history_ n1 -> t ∈ history_ n2 -> f1 = f2;
  wf_sorted : forall f n, node_store_ r !! f = Some n ->
      StronglySorted Z.lt (history_ n)
}.

(** The states reached from a fresh replacer by calls of the member
    functions, [Evict] with any iteration order of the map, as long as
    [current_timestamp_] does not overflow. *)
Inductive reachable (num_frames k : Z) : LRUKReplacer -> Prop :=
| reach_init : reachable num_frames k (init num_frames k)
| reach_RecordAccess r f :
    reachable num_frames k r -> current_timestamp_ r < SIZE_MAX ->
    reachable num_frames k (state_of (RecordAccess f r))
| reach_SetEvictable r f e :
    reachable num_frames k r ->
    reachable num_frames k (state_of (SetEvictable f e r))
| reach_Remove r f :
    reachable num_frames k r ->
    reachable num_frames k (state_of (Remove f r))
| reach_Evict r order :
    reachable num_frames k r -> order ≡ₚ map_to_list (node_store_ r) ->
    reachable num_frames k (Evict_in order r).2.

(** *** Scenario 4 of section 8 *)

(** K = 2; frames 1, 2, 3 are accessed once each, in this order, and made
    evictable. *)
Definition scenario_abc : LRUKReplacer :=
  after (SetEvictable 3 true)
    (after (SetEvictable 2 true)
       (after (SetEvictable 1 true)
          (after (RecordAccess 3)
             (after (RecordAccess 2)
                (after (RecordAccess 1) (init 7 2)))))).

(** *** Scenario 3 of section 8 *)

Fixpoint record_all (l : list Z) (r : LRUKReplacer) : LRUKReplacer :=
  match l with
  | [] => r
  | f :: l' => record_all l' (after (RecordAccess f) r)
  end.

(** K = 2 and seven frames; the frames 1, 1, 1, 5, 5, 5, 1, 1, 1 are
    accessed in this order, then both frames are made evictable. *)
Definition scenario_15 : LRUKReplacer :=
  after (SetEvictable 5 true)
    (after (SetEvictable 1 true)
       (record_all [1; 1; 1; 5; 5; 5; 1; 1; 1] (init 7 2))).

(** The nodes are stored under their own frame ids. *)
Definition keyed (r : LRUKReplacer) : Prop :=
  forall f n, node_store_ r !! f = Some n -> fid_ n = f /\ 0 <= f.

(** *** The loop of [Evict], for the proofs *)

(** The comparison made by the loop, on two nodes. *)
Definition beats (r : LRUKReplacer) (a b : LRUKNode) : Prop :=
  distance r b < distance r a
  \/ (distance r b = distance r a /\ front (history_ a) < front (history_ b)).

(** What the accumulator of the loop holds after the nodes [seen]. *)
Definition scanned (r : LRUKReplacer) (seen : list (Z * LRUKNode)) (acc : Z * Z) : Prop :=
  (acc.1 = INVALID_FRAME_ID
   /\ forall kv, kv ∈ seen -> is_evictable_ kv.2 = false)
  \/ (exists nv, node_store_ r !! acc.1 = Some nv
      /\ is_evictable_ nv = true
      /\ acc.2 = distance r nv
      /\ forall kv, kv ∈ seen -> is_evictable_ kv.2 = true -> kv.1 <> acc.1 ->
                    beats r nv kv.2).

Definition stored (r : LRUKReplacer) (l : list (Z * LRUKNode)) : Prop :=
  forall kv, kv ∈ l -> node_store_ r !! kv.1 = Some kv.2.

End Replacer.

(** ** buffer_pool_manager.cpp *)

Module Bpm.
Import Replacer.

(** [Page] (storage/page/page.h): the byte buffer and the metadata the
    pool keeps for one frame. The buffer is a fixed-size array; its size
    is the length of [data_]. [pin_count_] is an [int]: its overflow is
    undefined in the source and the model leaves it unbounded. *)
Record Page := mkPage {
  data_ : list Byte.byte;
  page_id_ : Z;
  pin_count_ : Z;
  is_dirty_ : bool
}.

(** A frame that holds no page: invalid page id, not pinned, clean
    (section 3, the class is declared in page.h). *)
Definition default_page : Page :=
  {| data_ := []; page_id_ := INVALID_PAGE_ID; pin_count_ := 0; is_dirty_ := false |}.

(** [strlen] over the buffer: the number of bytes before the first NUL. *)
Fixpoint strlen (d : list Byte.byte) : Z :=
  match d with
  | [] => 0
  | c :: t => if Byte.eqb c Byte.x00 then 0 else 1 + strlen t
  end.

(** [Page::ResetMemory]: [memset(data_, 0, BUSTUB_PAGE_SIZE)]. *)
Definition zeroed (d : list Byte.byte) : list Byte.byte := repeat Byte.x00 (length d).

Definition ResetMemory (p : Page) : Page :=
  {| data_ := zeroed (data_ p); page_id_ := page_id_ p;
     pin_count_ := pin_count_ p; is_dirty_ := is_dirty_ p |}.

Definition set_page_id (v : Z) (p : Page) : Page :=
  {| data_ := data_ p; page_id_ := v; pin_count_ := pin_count_ p; is_dirty_ := is_dirty_ p |}.
Definition set_pin_count (v : Z) (p : Page) : Page :=
  {| data_ := data_ p; page_id_ := page_id_ p; pin_count_ := v; is_dirty_ := is_dirty_ p |}.
Definition set_is_dirty (v : bool) (p : Page) : Page :=
  {| data_ := data_ p; page_id_ := page_id_ p; pin_count_ := pin_count_ p; is_dirty_ := v |}.
Definition set_data (v : list Byte.byte) (p : Page) : Page :=
  {| data_ := v; page_id_ := page_id_ p; pin_count_ := pin_count_ p; is_dirty_ := is_dirty_ p |}.

(** What the pool hands to the disk layer, in the order it does:
    a request given to [DiskSchedule] with the bytes its buffer holds at
    that moment, or a [DeallocatePage]. *)
Inductive DiskEvent :=
| Scheduled (is_write : bool) (page_id : Z) (data : list Byte.byte)
| Deallocated (page_id : Z).

(** [page_id_t] is a 32-bit signed integer. *)
Definition wrap_int32 (z : Z) : Z := (z + 2 ^ 31) mod 2 ^ 32 - 2 ^ 31.

Record BufferPoolManager := mkBpm {
  pool_size_ : Z;
  pages_ : list Page;
  free_list_ : list Z;
  page_table_ : gmap Z Z;
  replacer_ : LRUKReplacer;
  next_page_id_ : Z;
  disk_ : gmap Z (list Byte.byte);
  io_log_ : list DiskEvent
}.

Definition set_pages (v : list Page) (b : BufferPoolManager) : BufferPoolManager :=
  {| pool_size_ := pool_size_ b; pages_ := v; free_list_ := free_list_ b;
     page_table_ := page_table_ b; replacer_ := replacer_ b;
     next_page_id_ := next_page_id_ b; disk_ := disk_ b; io_log_ := io_log_ b |}.
Definition set_free_list (v : list Z) (b : BufferPoolManager) : BufferPoolManager :=
  {| pool_size_ := pool_size_ b; pages_ := pages_ b; free_list_ := v;
     page_table_ := page_table_ b; replacer_ := replacer_ b;
     next_page_id_ := next_page_id_ b; disk_ := disk_ b; io_log_ := io_log_ b |}.
Definition set_page_table (v : gmap Z Z) (b : BufferPoolManager) : BufferPoolManager :=
  {| pool_size_ := pool_size_ b; pages_ := pages_ b; free_list_ := free_list_ b;
     page_table_ := v; replacer_ := replacer_ b;
     next_page_id_ := next_page_id_ b; disk_ := disk_ b; io_log_ := io_log_ b |}.
Definition set_replacer (v : LRUKReplacer) (b : BufferPoolManager) : BufferPoolManager :=
  {| pool_size_ := pool_size_ b; pages_ := pages_ b; free_list_ := free_list_ b;
     page_table_ := page_table_ b; replacer_ := v;
     next_page_id_ := next_page_id_ b; disk_ := disk_ b; io_log_ := io_log_ b |}.
Definition set_next_page_id (v : Z) (b : BufferPoolManager) : BufferPoolManager :=
  {| pool_size_ := pool_size_ b; pages_ := pages_ b; free_list_ := free_list_ b;
     page_table_ := page_table_ b; replacer_ := replacer_ b;
     next_page_id_ := v; disk_ := disk_ b; io_log_ := io_log_ b |}.
Definition set_disk (v : gmap Z (list Byte.byte)) (b : BufferPoolManager) : BufferPoolManager :=
  {| pool_size_ := pool_size_ b; pages_ := pages_ b; free_list_ := free_list_ b;
     page_table_ := page_table_ b; replacer_ := replacer_ b;
     next_page_id_ := next_page_id_ b; disk_ := v; io_log_ := io_log_ b |}.
Definition set_io_log (v : list DiskEvent) (b : BufferPoolManager) : BufferPoolManager :=
  {| pool_size_ := pool_size_ b; pages_ := pages_ b; free_list_ := free_list_ b;
     page_table_ := page_table_ b; replacer_ := replacer_ b;
     next_page_id_ := next_page_id_ b; disk_ := disk_ b; io_log_ := v |}.

(** [pages_[frame_id]]. An index outside the array is undefined in the
    source; the model reads [default_page] and writes nothing there. *)
Definition page_at (b : BufferPoolManager) (frame_id : Z) : Page :=
  default default_page (pages_ b !! Z.to_nat frame_id).

Definition update_page (frame_id : Z) (f : Page -> Page) (b : BufferPoolManager)
  : BufferPoolManager :=
  set_pages (<[Z.to_nat frame_id := f (page_at b frame_id)]> (pages_ b)) b.

(** A member call on [replacer_]. *)
Definition on_replacer {A} (m : M LRUKReplacer A) : M BufferPoolManager A := fun b =>
  match m (replacer_ b) with
  | Normal a r => Normal a (set_replacer r b)
  | Thrown e r => Thrown e (set_replacer r b)
  end.

(** [BufferPoolManager::BufferPoolManager]; [page_size] is the size of a
    frame's buffer and [disk] what the disk manager holds. The frame ids
    of the free list are [static_cast<int>(i)]; a default-constructed
    [Page] is [default_page] with a zeroed buffer, and [next_page_id_]
    starts at 0 (section 4.3: a monotonic counter). *)
Definition init (pool_size : nat) (page_size : nat) (replacer_k : Z)
    (disk : gmap Z (list Byte.byte)) : BufferPoolManager :=
  {| pool_size_ := Z.of_nat pool_size;
     pages_ := repeat (set_data (repeat Byte.x00 page_size) default_page) pool_size;
     free_list_ := map (fun i => wrap_int32 (Z.of_nat i)) (seq 0 pool_size);
     page_table_ := ∅;
     replacer_ := Replacer.init (Z.of_nat pool_size) replacer_k;
     next_page_id_ := 0;
     disk_ := disk;
     io_log_ := [] |}.

(** Modelled from the spec: [BufferPoolManager::DiskSchedule], the private
    helper that gives a request to the disk scheduler; it is declared in
    buffer_pool_manager.h, which is not among the sources. Following
    sections 4.1 and 4.3 the request is recorded in [io_log_] with the
    bytes of the frame's buffer; a write stores these bytes as the disk
    image of the page, a read (which the pool waits for) copies the disk
    image into the buffer and leaves the buffer as it is when the disk
    has no image of the page. *)
Definition DiskSchedule (is_write : bool) (frame_id : Z) (page_id : Z)
  : M BufferPoolManager unit := fun b =>
  let buf := data_ (page_at b frame_id) in
  let b1 := set_io_log (io_log_ b ++ [Scheduled is_write page_id buf]) b in
  if is_write then Normal tt (set_disk (<[page_id := buf]> (disk_ b1)) b1)
  else match disk_ b1 !! page_id with
       | Some img => Normal tt (update_page frame_id (set_data img) b1)
       | None => Normal tt b1
       end.

(** Modelled from the spec: [BufferPoolManager::DeallocatePage], declared
    in buffer_pool_manager.h, which is not among the sources: the
    notification to the disk layer that a page id is released
    (section 4.3). *)
Definition DeallocatePage (page_id : Z) : M BufferPoolManager unit :=
  modify (fun b => set_io_log (io_log_ b ++ [Deallocated page_id]) b).

(** [BufferPoolManager::AllocatePage]: [return next_page_id_++;] *)
Definition AllocatePage : M BufferPoolManager Z := fun b =>
  Normal (next_page_id_ b) (set_next_page_id (wrap_int32 (next_page_id_ b + 1)) b).

(** [BufferPoolManager::RequestFrameId] *)
Definition RequestFrameId : M BufferPoolManager Z := fun b =>
  match free_list_ b with
  | frame_id :: rest => Normal frame_id (set_free_list rest b)
  | [] =>
      if 0 <? Size (replacer_ b) then
        let '(victim, r) := Evict (replacer_ b) in
        Normal (default INVALID_FRAME_ID victim) (set_replacer r b)
      else Normal INVALID_FRAME_ID b
  end.

(** [BufferPoolManager::InitPageOnBufferPool] *)
Definition InitPageOnBufferPool (frame_id page_id : Z) : M BufferPoolManager unit :=
  (modify (update_page frame_id (set_page_id page_id));;
   modify (update_page frame_id (set_is_dirty false));;
   modify (update_page frame_id (set_pin_count 1));;
   on_replacer (SetEvictable frame_id false);;
   on_replacer (RecordAccess frame_id);;
   modify (fun b => set_page_table (<[page_id := frame_id]> (page_table_ b)) b))%cpp.

(** The lines shared by the miss paths of [NewPage] and [FetchPage]: write
    the frame's page out when the guard holds, forget the page, clear the
    buffer. *)
Definition release_frame (frame_id : Z) : M BufferPoolManager unit :=
  (b <- get;;
   let page := page_at b frame_id in
   (if is_dirty_ page && (0 <? strlen (data_ page))
    then DiskSchedule true frame_id (page_id_ page)
    else ret tt);;
   modify (fun b => set_page_table (delete (page_id_ page) (page_table_ b)) b);;
   modify (update_page frame_id ResetMemory))%cpp.

(** [BufferPoolManager::NewPage]. [None] is the null pointer; otherwise the
    result is the page id written through the out-parameter and the frame
    the returned pointer designates. *)
Definition NewPage : M BufferPoolManager (option (Z * Z)) :=
  (frame_id <- RequestFrameId;;
   if frame_id =? INVALID_FRAME_ID then ret None
   else
     release_frame frame_id;;
     b <- get;;
     let page_id := next_page_id_ b in
     InitPageOnBufferPool frame_id page_id;;
     AllocatePage;;
     ret (Some (page_id, frame_id)))%cpp.

(** [BufferPoolManager::FetchPage]; the result is the frame the returned
    pointer designates. *)
Definition FetchPage (page_id : Z) : M BufferPoolManager (option Z) :=
  (b <- get;;
   match page_table_ b !! page_id with
   | Some frame_id =>
       modify (update_page frame_id
                 (fun p => set_pin_count (pin_count_ p + 1) p));;
       on_replacer (SetEvictable frame_id false);;
       on_replacer (RecordAccess frame_id);;
       ret (Some frame_id)
   | None =>
       frame_id <- RequestFrameId;;
       if frame_id =? INVALID_FRAME_ID then ret None
       else
         release_frame frame_id;;
         InitPageOnBufferPool frame_id page_id;;
         DiskSchedule false frame_id page_id;;
         ret (Some frame_id)
   end)%cpp.

(** [BufferPoolManager::UnpinPage] *)
Definition UnpinPage (page_id : Z) (is_dirty : bool) : M BufferPoolManager bool :=
  (b <- get;;
   match page_table_ b !! page_id with
   | None => ret false
   | Some frame_id =>
       if pin_count_ (page_at b frame_id) <=? 0 then ret false
       else
         modify (update_page frame_id
                   (fun p => set_pin_count (pin_count_ p - 1) p));;
         b1 <- get;;
         (if pin_count_ (page_at b1 frame_id) =? 0
          then on_replacer (SetEvictable frame_id true)
          else ret tt);;
         modify (update_page frame_id (set_is_dirty is_dirty));;
         ret true
   end)%cpp.

(** [BufferPoolManager::FlushPage] *)
Definition FlushPage (page_id : Z) : M BufferPoolManager bool :=
  (b <- get;;
   match page_table_ b !! page_id with
   | None => ret false
   | Some frame_id =>
       DiskSchedule true frame_id (page_id_ (page_at b frame_id));;
       modify (update_page frame_id (set_is_dirty false));;
       ret true
   end)%cpp.

(** The body of the loop of [FlushAllPages]. *)
Definition flush_frame (frame_id : Z) : M BufferPoolManager unit :=
  (b <- get;;
   DiskSchedule true frame_id (page_id_ (page_at b frame_id));;
   modify (update_page frame_id (set_is_dirty false)))%cpp.

Fixpoint flush_frames (order : list (Z * Z)) : M BufferPoolManager unit :=
  match order with
  | [] => ret tt
  | (_, frame_id) :: rest => (flush_frame frame_id;; flush_frames rest)%cpp
  end.

(** [BufferPoolManager::FlushAllPages], visiting the entries of
    [page_table_] in the order [order]. *)
Definition FlushAllPages_in (order : list (Z * Z)) : M BufferPoolManager unit :=
  flush_frames order.

(** The iteration order of an [std::unordered_map] is not specified; the
    executable [FlushAllPages] takes the enumeration of the [gmap].
    Properties of [FlushAllPages] are proved of [FlushAllPages_in] for
    every enumeration of the page table. *)
Definition FlushAllPages : M BufferPoolManager unit := fun b =>
  FlushAllPages_in (map_to_list (page_table_ b)) b.

(** [BufferPoolManager::DeletePage] *)
Definition DeletePage (page_id : Z) : M BufferPoolManager bool :=
  (b <- get;;
   match page_table_ b !! page_id with
   | None => ret true
   | Some frame_id =>
       if 0 <? pin_count_ (page_at b frame_id) then ret false
       else
         modify (fun b => set_page_table (delete page_id (page_table_ b)) b);;
         on_replacer (Remove frame_id);;
         modify (fun b => set_free_list (free_list_ b ++ [frame_id]) b);;
         modify (update_page frame_id ResetMemory);;
         modify (update_page frame_id (set_page_id INVALID_PAGE_ID));;
         modify (update_page frame_id (set_pin_count 0));;
         modify (update_page frame_id (set_is_dirty false));;
         DeallocatePage page_id;;
         ret true
   end)%cpp.

(** *** The miss path, for the proofs *)

(** The state after the conditional write of the miss path for frame
    [f]. *)
Definition flush_victim (f : Z) (b : BufferPoolManager) : BufferPoolManager :=
  if is_dirty_ (page_at b f) && (0 <? strlen (data_ (page_at b f)))
  then after (DiskSchedule true f (page_id_ (page_at b f))) b
  else b.

(** The frame as [ResetMemory] and [InitPageOnBufferPool] leave it. *)
Definition fresh_page (page_id : Z) (pg : Page) : Page :=
  {| data_ := zeroed (data_ pg); page_id_ := page_id; pin_count_ := 1;
     is_dirty_ := false |}.

(** The state after frame [f] has been taken from its page and given to
    [page_id]. *)
Definition claim (f page_id : Z) (b : BufferPoolManager) : BufferPoolManager :=
  set_page_table (<[page_id := f]> (delete (page_id_ (page_at b f)) (page_table_ b)))
    (set_replacer
       (after (RecordAccess f) (after (SetEvictable f false) (replacer_ b)))
       (update_page f (fresh_page page_id) b)).

(** *** States of the pool *)

(** What holds of every state the public member functions build: the
    replacer tracks [pool_size_] frames, the frames of the free list, of
    the page table and of the replacer are frames of [pages_], a resident
    page is the page of its frame, its pin count is not negative, and
    when it is zero the frame's node, if any, is evictable. *)
Record inv (b : BufferPoolManager) : Prop := mk_inv {
  inv_size : replacer_size_ (replacer_ b) = pool_size_ b
             /\ pool_size_ b = Z.of_nat (length (pages_ b))
             /\ pool_size_ b <= SIZE_MAX;
  inv_free : forall f, f ∈ free_list_ b -> 0 <= f < pool_size_ b;
  inv_nodes : forall f n, node_store_ (replacer_ b) !! f = Some n ->
      fid_ n = f /\ 0 <= f < pool_size_ b;
  inv_table : forall p f, page_table_ b !! p = Some f ->
      0 <= f < pool_size_ b
      /\ page_id_ (page_at b f) = p
      /\ 0 <= pin_count_ (page_at b f)
      /\ (pin_count_ (page_at b f) = 0 ->
          forall n, node_store_ (replacer_ b) !! f = Some n -> is_evictable_ n = true)
}.

(** A caller that holds a pointer to a frame writes into its buffer. *)
Definition write_data (frame_id : Z) (d : list Byte.byte) (b : BufferPoolManager)
  : BufferPoolManager :=
  if bool_decide (length d = length (data_ (page_at b frame_id)))
  then update_page frame_id (set_data d) b else b.

(** The states reached from a fresh pool, whose frame ids fit the type
    [int], by calls of the public member functions and by writes into the
    buffers. *)
Inductive reachable : BufferPoolManager -> Prop :=
| reach_init pool_size page_size k disk :
    Z.of_nat pool_size < 2 ^ 31 ->
    reachable (init pool_size page_size k disk)
| reach_NewPage b : reachable b -> reachable (state_of (NewPage b))
| reach_FetchPage b p : reachable b -> reachable (state_of (FetchPage p b))
| reach_UnpinPage b p d : reachable b -> reachable (state_of (UnpinPage p d b))
| reach_FlushPage b p : reachable b -> reachable (state_of (FlushPage p b))
| reach_FlushAllPages b order :
    reachable b -> order ≡ₚ map_to_list (page_table_ b) ->
    reachable (state_of (FlushAllPages_in order b))
| reach_DeletePage b p : reachable b -> reachable (state_of (DeletePage p b))
| reach_write b f d : reachable b -> reachable (write_data f d b).

(** *** Scenarios *)

(** The buffer does not start with a NUL byte. *)
Definition first_byte_nonzero (d : list Byte.byte) : bool :=
  match d with
  | c :: _ => negb (Byte.eqb c Byte.x00)
  | [] => false
  end.

(** A pool of one frame of four bytes whose only page, page 0, has been
    created, written with the bytes 00 48 69 00 and unpinned with the
    dirty hint. *)
Definition pool_dirty_nul : BufferPoolManager :=
  after (UnpinPage 0 true)
    (write_data 0 [Byte.x00; Byte.x48; Byte.x69; Byte.x00]
       (after NewPage (init 1 4 2 ∅))).

(** The same with the bytes "Hi" written into the buffer before the
    unpin. *)
Definition pool_dirty_hi : BufferPoolManager :=
  after (UnpinPage 0 true)
    (write_data 0 [Byte.x48; Byte.x69; Byte.x00; Byte.x00]
       (after NewPage (init 1 4 2 ∅))).

(** Page 0 is pinned twice, written to, and unpinned once with the dirty
    hint: it is dirty and still pinned once. *)
Definition pool_pinned_dirty : BufferPoolManager :=
  after (UnpinPage 0 true)
    (write_data 0 [Byte.x48; Byte.x69; Byte.x00; Byte.x00]
       (after (FetchPage 0) (after NewPage (init 1 4 2 ∅)))).

(** The round trip of section 8 on [pool_dirty_hi]: page 0, holding
    "Hi", is flushed, deleted and fetched again. *)
Definition pool_round_trip : BufferPoolManager :=
  after (FetchPage 0) (after (DeletePage 0) (after (FlushPage 0) pool_dirty_hi)).

(** Three frames, all holding a pinned page (scenario 2 of section 8). *)
Definition pool_exhausted : BufferPoolManager :=
  after NewPage (after NewPage (after NewPage (init 3 4 2 ∅))).

(** Page 0 resident and unpinned, page 1 resident and pinned. *)
Definition pool_two_pages : BufferPoolManager :=
  after (UnpinPage 0 false) (after NewPage (after NewPage (init 2 4 2 ∅))).

End Bpm.

(** ** disk_scheduler.cpp: the disk scheduler *)

Module Scheduler.

(** Modelled from the spec: the [DiskManager] collaborator of section 4.5,
    whose class (storage/disk/disk_manager.h) is not among the sources.
    [WritePage(id, buf)] and [ReadPage(id, buf)] transfer one page and may
    fail; [D] is the state of the manager, and a read yields the new
    contents of the buffer. *)
Inductive io_status := IoOk | IoFailed.

Class DiskManager (D : Type) := {
  WritePage : Z -> list Byte.byte -> D -> io_status * D;
  ReadPage : Z -> list Byte.byte -> D -> io_status * list Byte.byte * D
}.

(** [DiskRequest]: [data_] is the address of the caller's buffer,
    [callback_] the promise the request owns. *)
Record DiskRequest := mkRequest {
  is_write_ : bool;
  data_ : nat;
  page_id_ : Z;
  callback_ : nat
}.

Inductive worker_status :=
| Exited   (* the loop was left through [break] *)
| Waiting. (* blocked in [request_queue_.Get()] *)

Section Worker.
Context {D : Type} `{DiskManager D}.

(** What the worker thread acts on: the disk manager, the buffers the
    requests point to, and the calls of [set_value] made so far, each
    with the promise and the value. *)
Record Worker := mkWorker {
  disk_manager_ : D;
  buffers : gmap nat (list Byte.byte);
  signals : list (nat * bool)
}.

Definition buffer_of (w : Worker) (r : DiskRequest) : list Byte.byte :=
  default [] (buffers w !! data_ r).

(** The status the disk manager has for a request; the worker calls the
    manager in statement position, so nothing of it reaches the worker. *)
Definition io_status_of (r : DiskRequest) (w : Worker) : io_status :=
  if is_write_ r
  then (WritePage (page_id_ r) (buffer_of w r) (disk_manager_ w)).1
  else (ReadPage (page_id_ r) (buffer_of w r) (disk_manager_ w)).1.1.

(** The body of the loop of [StartWorkerThread] for a request. *)
Definition serve (r : DiskRequest) (w : Worker) : Worker :=
  let w1 :=
    if is_write_ r then
      let '(_, d) := WritePage (page_id_ r) (buffer_of w r) (disk_manager_ w) in
      {| disk_manager_ := d; buffers := buffers w; signals := signals w |}
    else
      let '(_, buf, d) := ReadPage (page_id_ r) (buffer_of w r) (disk_manager_ w) in
      {| disk_manager_ := d; buffers := <[data_ r := buf]> (buffers w);
         signals := signals w |} in
  {| disk_manager_ := disk_manager_ w1; buffers := buffers w1;
     signals := signals w1 ++ [(callback_ r, true)] |}.

(** [DiskScheduler::StartWorkerThread] run on the items that are put
    into [request_queue_], in the order they are put; [None] is
    [std::nullopt]. The result holds the items left in the queue. *)
Fixpoint StartWorkerThread (queue : list (option DiskRequest)) (w : Worker)
  : worker_status * Worker * list (option DiskRequest) :=
  match queue with
  | [] => (Waiting, w, [])
  | None :: rest => (Exited, w, rest)
  | Some r :: rest => StartWorkerThread rest (serve r w)
  end.

(** [DiskScheduler::Schedule]: [request_queue_.Put(std::move(r))]. *)
Definition Schedule (r : DiskRequest) (queue : list (option DiskRequest))
  : list (option DiskRequest) :=
  queue ++ [Some r].

(** [DiskScheduler::~DiskScheduler]: [request_queue_.Put(std::nullopt)],
    before the worker is joined. *)
Definition DiskScheduler_delete (queue : list (option DiskRequest))
  : list (option DiskRequest) :=
  queue ++ [None].

(** The requests the worker dequeues: those before the first sentinel. *)
Fixpoint dequeued (queue : list (option DiskRequest)) : list DiskRequest :=
  match queue with
  | Some r :: rest => r :: dequeued rest
  | _ => []
  end.

(** The number of [set_value] calls on a promise. *)
Definition times_set (p : nat) (sig : list (nat * bool)) : nat :=
  length (filter (fun s => s.1 = p) sig).

End Worker.
Arguments Worker D : clear implicits.

(** A disk manager that keeps the pages in a map and fails on the page
    ids of [bad]. *)
Definition faulty (bad : list Z) : DiskManager (gmap Z (list Byte.byte)) :=
  {| WritePage := fun id buf d =>
       if bool_decide (id ∈ bad) then (IoFailed, d) else (IoOk, <[id := buf]> d);
     ReadPage := fun id buf d =>
       match d !! id with
       | Some img => if bool_decide (id ∈ bad) then (IoFailed, buf, d) else (IoOk, img, d)
       | None => (IoFailed, buf, d)
       end |}.

(** *** Scenario *)

(** A write of page 1, which the disk manager fails, then a read of page
    2, which it has not, then the sentinel, then a request that is never
    served. *)
Definition failing_queue : list (option DiskRequest) :=
  [Some {| is_write_ := true; data_ := 0; page_id_ := 1; callback_ := 10 |};
   Some {| is_write_ := false; data_ := 0; page_id_ := 2; callback_ := 11 |};
   None;
   Some {| is_write_ := true; data_ := 0; page_id_ := 3; callback_ := 12 |}].

Definition idle_worker : Worker (gmap Z (list Byte.byte)) :=
  {| disk_manager_ := ∅; buffers := {[ 0%nat := [Byte.x48; Byte.x69] ]}; signals := [] |}.

End Scheduler.

(** ** disk_scheduler.cpp: the page guards, and the guard-returning
       members of buffer_pool_manager.cpp *)

Module Guards.
Import Bpm.

(** [BasicPageGuard]. [page_] points into [pages_]: it is the index of
    the frame, [None] for [nullptr]. There is one pool, so [bpm_] is
    either null or that pool. *)
Record BasicPageGuard := mkGuard {
  bpm_ : option unit;
  page_ : option Z;
  is_dirty_ : bool
}.

(** Modelled from the spec: the default member initialisers of
    [BasicPageGuard] (storage/page/page_guard.h is not among the
    sources): a guard that holds nothing, the inert guard of
    section 4.4. *)
Definition null_guard : BasicPageGuard :=
  {| bpm_ := None; page_ := None; is_dirty_ := false |}.

(** The calls a guard makes on the pool and on the latch of a frame, in
    the order it makes them. *)
Inductive Event :=
| CallUnpinPage (frame_id page_id : Z) (is_dirty : bool)
| CallRLatch (frame_id : Z)
| CallWLatch (frame_id : Z)
| CallRUnlatch (frame_id : Z)
| CallWUnlatch (frame_id : Z).

(** The pool, the guard objects by address (a [ReadPageGuard] or a
    [WritePageGuard] is its member [guard_]), and the calls made. An
    address without an object reads as [null_guard]. *)
Record World := mkWorld {
  pool : BufferPoolManager;
  heap : gmap nat BasicPageGuard;
  trace : list Event
}.

Definition guard_at (w : World) (a : nat) : BasicPageGuard :=
  default null_guard (heap w !! a).

Definition store (a : nat) (g : BasicPageGuard) : M World unit :=
  modify (fun w => {| pool := pool w; heap := <[a := g]> (heap w); trace := trace w |}).

Definition emit (e : Event) : M World unit :=
  modify (fun w => {| pool := pool w; heap := heap w; trace := trace w ++ [e] |}).

Definition on_pool {A} (m : M BufferPoolManager A) : M World A := fun w =>
  match m (pool w) with
  | Normal a b => Normal a {| pool := b; heap := heap w; trace := trace w |}
  | Thrown e b => Thrown e {| pool := b; heap := heap w; trace := trace w |}
  end.

(** [page_->GetPageId()] *)
Definition PageId (w : World) (frame_id : Z) : Z := page_id_ (page_at (pool w) frame_id).

(** Modelled from the spec: [BasicPageGuard(bpm, page)], defined in
    page_guard.h, which is not among the sources: the guard takes over
    the pin of [page] (section 4.4, basic guard). *)
Definition BasicPageGuard_new (this : nat) (page : option Z) : M World unit :=
  store this {| bpm_ := Some tt; page_ := page; is_dirty_ := false |}.

(** [BasicPageGuard::BasicPageGuard(BasicPageGuard &&that)] *)
Definition BasicPageGuard_move (this that : nat) : M World unit :=
  (w <- get;;
   store this (guard_at w that);;
   store that null_guard)%cpp.

(** [BasicPageGuard::Drop] *)
Definition Drop (this : nat) : M World unit :=
  (w <- get;;
   let g := guard_at w this in
   match page_ g with
   | Some frame_id =>
       emit (CallUnpinPage frame_id (PageId w frame_id) (is_dirty_ g));;
       on_pool (UnpinPage (PageId w frame_id) (is_dirty_ g));;
       store this null_guard
   | None => ret tt
   end)%cpp.

(** [BasicPageGuard::operator=(BasicPageGuard &&that)] *)
Definition move_assign (this that : nat) : M World unit :=
  if decide (this = that) then ret tt
  else
    (Drop this;;
     w <- get;;
     store this (guard_at w that);;
     store that null_guard)%cpp.

(** [BasicPageGuard::~BasicPageGuard] *)
Definition BasicPageGuard_delete (this : nat) : M World unit := Drop this.

(** [ReadPageGuard::ReadPageGuard(bpm, page) {}]: the body is empty, the
    member [guard_] is default-initialised. *)
Definition ReadPageGuard_new (this : nat) (bpm : option unit) (page : option Z)
  : M World unit :=
  store this null_guard.

(** [WritePageGuard::WritePageGuard(bpm, page) {}] *)
Definition WritePageGuard_new (this : nat) (bpm : option unit) (page : option Z)
  : M World unit :=
  store this null_guard.

(** [BasicPageGuard::UpgradeRead]; [result] is where the returned guard
    is constructed. *)
Definition UpgradeRead (this result : nat) : M World unit :=
  (w <- get;;
   ReadPageGuard_new result (bpm_ (guard_at w this)) (page_ (guard_at w this)))%cpp.

(** [BasicPageGuard::UpgradeWrite] *)
Definition UpgradeWrite (this result : nat) : M World unit :=
  (w <- get;;
   WritePageGuard_new result (bpm_ (guard_at w this)) (page_ (guard_at w this)))%cpp.

(** [ReadPageGuard::Drop] *)
Definition ReadPageGuard_Drop (this : nat) : M World unit :=
  (w <- get;;
   let g := guard_at w this in
   match page_ g with
   | Some frame_id =>
       emit (CallUnpinPage frame_id (PageId w frame_id) (is_dirty_ g));;
       on_pool (UnpinPage (PageId w frame_id) (is_dirty_ g));;
       emit (CallRUnlatch frame_id);;
       store this {| bpm_ := None; page_ := None; is_dirty_ := is_dirty_ g |}
   | None => ret tt
   end)%cpp.

(** [WritePageGuard::Drop] *)
Definition WritePageGuard_Drop (this : nat) : M World unit :=
  (w <- get;;
   let g := guard_at w this in
   match page_ g with
   | Some frame_id =>
       emit (CallUnpinPage frame_id (PageId w frame_id) (is_dirty_ g));;
       on_pool (UnpinPage (PageId w frame_id) (is_dirty_ g));;
       emit (CallWUnlatch frame_id);;
       store this {| bpm_ := None; page_ := None; is_dirty_ := is_dirty_ g |}
   | None => ret tt
   end)%cpp.

(** [ReadPageGuard::~ReadPageGuard]: [Drop()], then the destructor of the
    member [guard_]. *)
Definition ReadPageGuard_delete (this : nat) : M World unit :=
  (ReadPageGuard_Drop this;; BasicPageGuard_delete this)%cpp.

(** [WritePageGuard::~WritePageGuard] *)
Definition WritePageGuard_delete (this : nat) : M World unit :=
  (WritePageGuard_Drop this;; BasicPageGuard_delete this)%cpp.

(** [BufferPoolManager::FetchPageBasic]; [result] is where the returned
    guard is constructed. *)
Definition FetchPageBasic (page_id : Z) (result : nat) : M World unit :=
  (page <- on_pool (FetchPage page_id);;
   BasicPageGuard_new result page)%cpp.

(** [BufferPoolManager::NewPageGuarded]; the value is the page id written
    through the out-parameter. *)
Definition NewPageGuarded (result : nat) : M World (option Z) :=
  (r <- on_pool NewPage;;
   BasicPageGuard_new result (snd <$> r);;
   ret (fst <$> r))%cpp.

(** [BufferPoolManager::FetchPageRead]; a null page is dereferenced in
    the source, the model makes no latch call then. *)
Definition FetchPageRead (page_id : Z) (result : nat) : M World unit :=
  (page <- on_pool (FetchPage page_id);;
   match page with Some f => emit (CallRLatch f) | None => ret tt end;;
   ReadPageGuard_new result (Some tt) page)%cpp.

(** [BufferPoolManager::FetchPageWrite] *)
Definition FetchPageWrite (page_id : Z) (result : nat) : M World unit :=
  (page <- on_pool (FetchPage page_id);;
   match page with Some f => emit (CallWLatch f) | None => ret tt end;;
   WritePageGuard_new result (Some tt) page)%cpp.

(** The number of guards that hold frame [f], and the number of calls of
    [UnpinPage] made for it. *)
Definition held_in (f : Z) (h : gmap nat BasicPageGuard) : nat :=
  size (filter (fun ag : nat * BasicPageGuard => page_ ag.2 = Some f) h).

Definition held (f : Z) (w : World) : nat := held_in f (heap w).

Definition is_unpin_of (f : Z) (e : Event) : bool :=
  match e with CallUnpinPage f' _ _ => bool_decide (f' = f) | _ => false end.

Definition unpins (f : Z) (w : World) : nat :=
  length (filter (fun e => is_unpin_of f e = true) (trace w)).

(** Programs over basic guards: move construction of a new guard at
    [this] from [that], move assignment, [Drop] and destruction. *)
Inductive guard_op :=
| OpMove (this that : nat)
| OpAssign (this that : nat)
| OpDrop (this : nat)
| OpDelete (this : nat).

Definition run_op (o : guard_op) : M World unit :=
  match o with
  | OpMove this that => BasicPageGuard_move this that
  | OpAssign this that => move_assign this that
  | OpDrop this => Drop this
  | OpDelete this => BasicPageGuard_delete this
  end.

Fixpoint run_ops (l : list guard_op) : M World unit :=
  match l with
  | [] => ret tt
  | o :: l' => (run_op o;; run_ops l')%cpp
  end.



(** The [UnpinPage] calls of a list of events, made on a pool in the
    order of the list. *)
Definition replay_event (b : BufferPoolManager) (e : Event) : BufferPoolManager :=
  match e with
  | CallUnpinPage _ page_id is_dirty => after (UnpinPage page_id is_dirty) b
  | _ => b
  end.

Definition replay (calls : list Event) (b : BufferPoolManager) : BufferPoolManager :=
  foldl replay_event b calls.

(** [pages_[f].pin_count_] *)
Definition pins (f : Z) (w : World) : Z := pin_count_ (page_at (pool w) f).

(** Each guard holds a pin of its own: a frame that guards hold is the
    frame of the resident page whose id it carries, and its pin count is
    at least the number of guards that hold it. *)
Definition pinned_by_guards (w : World) : Prop :=
  forall f, (0 < held f w)%nat ->
    page_table_ (pool w) !! PageId w f = Some f /\ Z.of_nat (held f w) <= pins f w.

(** *** Scenarios *)

(** One frame holding page 0, pinned once by [NewPageGuarded]: the basic
    guard at address 0 holds it. *)
Definition world_basic : World :=
  after (NewPageGuarded 0) {| pool := Bpm.init 1 4 2 ∅; heap := ∅; trace := [] |}.

(** The pin of [world_basic] travels from the guard at 0 to a new guard
    at 1, is assigned to the guard at 2, and the three guards are dropped
    or destroyed, the one at 2 twice. *)
Definition travel : list guard_op :=
  [OpMove 1 0; OpAssign 2 1; OpDrop 0; OpDrop 2; OpDrop 2; OpDelete 1; OpDelete 0].

End Guards.

(** ** Counting the entries of a map that satisfy a predicate *)

Module Count.

(** 1 when the entry [o] found under the key [a] satisfies [P]. *)
Definition hit {K A : Type} (P : K * A -> Prop) `{!forall x, Decision (P x)}
    (a : K) (o : option A) : nat :=
  match o with
  | Some y => if decide (P (a, y)) then 1%nat else 0%nat
  | None => 0%nat
  end.

End Count.

(** ** lru_k_replacer.cpp: counting and the states built by any calls *)

Module ReplacerInv.
Import Replacer.

(** The number of nodes whose [is_evictable_] is true. *)
Definition evictable_count (r : LRUKReplacer) : nat :=
  size (filter (fun kn : Z * LRUKNode => is_evictable_ kn.2 = true) (node_store_ r)).

(** The states built from a fresh replacer by any calls of the member
    functions, [Evict] with any iteration order of the map. *)
Inductive built (num_frames k : Z) : LRUKReplacer -> Prop :=
| built_init : built num_frames k (init num_frames k)
| built_RecordAccess r f :
    built num_frames k r -> built num_frames k (after (RecordAccess f) r)
| built_SetEvictable r f e :
    built num_frames k r -> built num_frames k (after (SetEvictable f e) r)
| built_Remove r f :
    built num_frames k r -> built num_frames k (after (Remove f) r)
| built_Evict r order :
    built num_frames k r -> order ≡ₚ map_to_list (node_store_ r) ->
    built num_frames k (Evict_in order r).2.

(** [curr_size_] is the number of evictable nodes, as a [size_t]. *)
Definition counted (r : LRUKReplacer) : Prop :=
  curr_size_ r = wrap_size_t (Z.of_nat (evictable_count r)).

(** The [k] most recent entries of a history. *)
Definition last_k (k : Z) (h : list Z) : list Z :=
  drop (length h - Z.to_nat k) h.

(** What every built state keeps besides [keyed] and [counted]: the
    configuration, and histories of at most K entries. *)
Record shaped (num_frames k : Z) (r : LRUKReplacer) : Prop := mk_shaped {
  shaped_size : replacer_size_ r = num_frames;
  shaped_k : k_ r = k;
  shaped_keyed : keyed r;
  shaped_counted : counted r;
  shaped_range : forall f n, node_store_ r !! f = Some n -> out_of_range r f = false;
  shaped_history : forall f n, node_store_ r !! f = Some n ->
      Z.of_nat (length (history_ n)) <= Z.max 0 k
      /\ (1 <= k -> history_ n <> [])
}.

(** Seven frames, K = 2: frames 1 and 2 accessed and evictable, frame 3
    accessed three times and not evictable. *)
Definition scenario_mixed : LRUKReplacer :=
  after (RecordAccess 3)
    (after (RecordAccess 3)
       (after (SetEvictable 2 true)
          (after (SetEvictable 1 true)
             (record_all [1; 2; 3] (init 7 2))))).

End ReplacerInv.

(** * The LRU replacer (lru_replacer.cpp) *)

Module Lru.

(** The members are declared in buffer/lru_replacer.h, which is not
    among the sources; the calls of the member functions fix them:
    [frame_dll_] is a [std::list<frame_id_t>] and [frame_table_] maps a
    frame id to a list iterator. A node of the list is its address and
    the frame id it holds, an iterator is the address of a node. The
    list is written front first; [next_node_] is the address the
    allocator gives to the next node. *)
Record LRUReplacer := mk_lru {
  frame_dll_ : list (nat * Z);
  frame_table_ : gmap Z nat;
  num_pages_ : Z;
  next_node_ : nat
}.

(** [LRUReplacer::LRUReplacer(num_pages)]: both containers start empty. *)
Definition init (num_pages : Z) : LRUReplacer :=
  {| frame_dll_ := []; frame_table_ := ∅; num_pages_ := num_pages;
     next_node_ := 0 |}.

(** [frame_dll_.erase(it)]: unlinks the node at the address [it]. *)
Fixpoint erase (it : nat) (l : list (nat * Z)) : list (nat * Z) :=
  match l with
  | [] => []
  | n :: l' => if decide (n.1 = it) then l' else n :: erase it l'
  end.

(** [LRUReplacer::Victim]: [None] is the return value false, which leaves
    [*frame_id] unwritten. *)
Definition Victim (r : LRUReplacer) : option Z * LRUReplacer :=
  match last (frame_dll_ r) with
  | None => (None, r)
  | Some n =>
      (Some n.2,
       {| frame_dll_ := removelast (frame_dll_ r);
          frame_table_ := delete n.2 (frame_table_ r);
          num_pages_ := num_pages_ r;
          next_node_ := next_node_ r |})
  end.

(** [LRUReplacer::Pin]. *)
Definition Pin (frame_id : Z) (r : LRUReplacer) : LRUReplacer :=
  match frame_table_ r !! frame_id with
  | None => r
  | Some it =>
      {| frame_dll_ := erase it (frame_dll_ r);
         frame_table_ := delete frame_id (frame_table_ r);
         num_pages_ := num_pages_ r;
         next_node_ := next_node_ r |}
  end.

(** [LRUReplacer::Unpin]: [push_front] links a new node, whose address
    [frame_dll_.begin()] is stored in the table. *)
Definition Unpin (frame_id : Z) (r : LRUReplacer) : LRUReplacer :=
  if num_pages_ r <=? Z.of_nat (length (frame_dll_ r)) then r
  else match frame_table_ r !! frame_id with
       | Some _ => r
       | None =>
           {| frame_dll_ := (next_node_ r, frame_id) :: frame_dll_ r;
              frame_table_ := <[frame_id := next_node_ r]> (frame_table_ r);
              num_pages_ := num_pages_ r;
              next_node_ := S (next_node_ r) |}
       end.

(** [LRUReplacer::Size]. *)
Definition Size (r : LRUReplacer) : Z := Z.of_nat (length (frame_dll_ r)).

(** The frame ids of the list, front first. *)
Definition frames (r : LRUReplacer) : list Z := (frame_dll_ r).*2.

(** The states a replacer of [num_pages] frames goes through. *)
Inductive reachable (num_pages : Z) : LRUReplacer -> Prop :=
| reachable_init : reachable num_pages (init num_pages)
| reachable_Victim r : reachable num_pages r -> reachable num_pages (Victim r).2
| reachable_Pin r f : reachable num_pages r -> reachable num_pages (Pin f r)
| reachable_Unpin r f : reachable num_pages r -> reachable num_pages (Unpin f r).

(** The table and the list describe each other: node addresses are
    distinct and below the allocator's next address, and the table holds
    for each frame of the list, and for no other key, the iterator of
    the node with this frame. *)
Record linked (r : LRUReplacer) : Prop := mk_linked {
  linked_nodup : NoDup (frame_dll_ r).*1;
  linked_table : forall f a, frame_table_ r !! f = Some a <-> (a, f) ∈ frame_dll_ r;
  linked_fresh : forall n, n ∈ frame_dll_ r -> (n.1 < next_node_ r)%nat
}.

(** [n] calls of [Victim], with the frames they return. *)
Fixpoint drain (n : nat) (r : LRUReplacer) : list Z * LRUReplacer :=
  match n with
  | O => ([], r)
  | S n' =>
      match Victim r with
      | (Some f, r') => let '(fs, r'') := drain n' r' in (f :: fs, r'')
      | (None, r') => ([], r')
      end
  end.

(** A sequence of [Unpin] calls, in the order of the list. *)
Definition unpin_all (fs : list Z) (r : LRUReplacer) : LRUReplacer :=
  foldl (fun r f => Unpin f r) r fs.

End Lru.

(** * Further invariants of the buffer pool *)

Module BpmInv.
Import Replacer ReplacerInv Bpm.

(** The free list and the replacer agree with the frames: the free list
    holds no frame twice; a free frame holds no resident page, is not
    pinned and has no node in the replacer; the frame of an evictable
    node is not pinned. *)
Record tidy (b : BufferPoolManager) : Prop := mk_tidy {
  tidy_nodup : NoDup (free_list_ b);
  tidy_free : forall f, f ∈ free_list_ b ->
      (forall p, page_table_ b !! p <> Some f)
      /\ pin_count_ (page_at b f) = 0
      /\ node_store_ (replacer_ b) !! f = None;
  tidy_evictable : forall f n, node_store_ (replacer_ b) !! f = Some n ->
      is_evictable_ n = true -> pin_count_ (page_at b f) = 0
}.

(** The frame of a resident page has a node in the replacer. *)
Definition tracked (b : BufferPoolManager) : Prop :=
  forall p f, page_table_ b !! p = Some f ->
    is_Some (node_store_ (replacer_ b) !! f).

(** The replacer of the pool has been built by calls of its member
    functions. *)
Definition replacer_built (b : BufferPoolManager) : Prop :=
  exists num_frames k, built num_frames k (replacer_ b).

(** The frames that have an owner: the free ones and those of the
    resident pages. *)
Definition owned (b : BufferPoolManager) : list Z :=
  free_list_ b ++ (map_to_list (page_table_ b)).*2.

End BpmInv.


(** * Moves of the latched guards *)

Module LatchedMoves.
Import Bpm Guards.

(** [ReadPageGuard::ReadPageGuard(ReadPageGuard &&that)]: the member
    [guard_] is move-constructed from [that.guard_]. *)
Definition ReadPageGuard_move (this that : nat) : M World unit :=
  BasicPageGuard_move this that.

(** [ReadPageGuard::operator=(ReadPageGuard &&that)]: the assignment of
    the member is [BasicPageGuard::operator=]. *)
Definition ReadPageGuard_move_assign (this that : nat) : M World unit :=
  if decide (this = that) then ret tt else move_assign this that.

(** [WritePageGuard::WritePageGuard(WritePageGuard &&that)] *)
Definition WritePageGuard_move (this that : nat) : M World unit :=
  BasicPageGuard_move this that.

(** [WritePageGuard::operator=(WritePageGuard &&that)] *)
Definition WritePageGuard_move_assign (this that : nat) : M World unit :=
  if decide (this = that) then ret tt else move_assign this that.

End LatchedMoves.


(** * Orderly use of the pool *)

Module Orderly.
Import Replacer Bpm.

(** The states reached when the client fetches only pages [NewPage] has
    handed out, and stops creating pages before [next_page_id_] leaves
    the range of [page_id_t]. *)
Inductive orderly : BufferPoolManager -> Prop :=
| orderly_init pool_size page_size k disk :
    Z.of_nat pool_size < 2 ^ 31 ->
    orderly (init pool_size page_size k disk)
| orderly_NewPage b :
    orderly b -> next_page_id_ b < 2 ^ 31 - 1 -> orderly (state_of (NewPage b))
| orderly_FetchPage b p :
    orderly b -> 0 <= p < next_page_id_ b -> orderly (state_of (FetchPage p b))
| orderly_UnpinPage b p d : orderly b -> orderly (state_of (UnpinPage p d b))
| orderly_FlushPage b p : orderly b -> orderly (state_of (FlushPage p b))
| orderly_FlushAllPages b order :
    orderly b -> order ≡ₚ map_to_list (page_table_ b) ->
    orderly (state_of (FlushAllPages_in order b))
| orderly_DeletePage b p : orderly b -> orderly (state_of (DeletePage p b))
| orderly_write b f d : orderly b -> orderly (write_data f d b).

(** Every frame is free or holds its resident page: the page ids of
    the resident pages are below [n], a free frame holds no page id,
    and a frame that is not free is the frame of the page it holds. *)
Record exact_upto (n : Z) (b : BufferPoolManager) : Prop := mk_exact {
  exact_resident : forall p f, page_table_ b !! p = Some f -> 0 <= p < n;
  exact_free : forall f, f ∈ free_list_ b -> page_id_ (page_at b f) = INVALID_PAGE_ID;
  exact_frames : forall f, 0 <= f < pool_size_ b ->
      f ∈ free_list_ b \/ page_table_ b !! page_id_ (page_at b f) = Some f
}.

Definition exact (b : BufferPoolManager) : Prop :=
  0 <= next_page_id_ b < 2 ^ 31 /\ exact_upto (next_page_id_ b) b.

End Orderly.

(** * Programs over the guards *)

Module GuardApi.
Import Bpm Guards LatchedMoves.

(** The class of the guard object that lives at an address. *)
Inductive guard_kind := KBasic | KRead | KWrite.

(** A call of a public member function of the pool by the client, or a
    write into a buffer. *)
Inductive pool_step : BufferPoolManager -> BufferPoolManager -> Prop :=
| step_NewPage b : pool_step b (state_of (NewPage b))
| step_FetchPage b p : pool_step b (state_of (FetchPage p b))
| step_UnpinPage b p d : pool_step b (state_of (UnpinPage p d b))
| step_FlushPage b p : pool_step b (state_of (FlushPage p b))
| step_FlushAllPages b order :
    order ≡ₚ map_to_list (page_table_ b) ->
    pool_step b (state_of (FlushAllPages_in order b))
| step_DeletePage b p : pool_step b (state_of (DeletePage p b))
| step_write b f d : pool_step b (write_data f d b).

(** The worlds a program builds with the functions of the sources that
    make, move, assign, drop and destroy guards, together with the
    class of the object alive at each address. A constructor builds its
    object at an address where no object lives; [FetchPageRead] and
    [FetchPageWrite] are called where [FetchPage] returns a frame (they
    dereference the pointer). The constructors from (bpm, page) may also
    be called with any arguments. The members of the guards are private:
    there is no other way to change them. *)
Inductive program : gmap nat guard_kind -> World -> Prop :=
| program_start b :
    reachable b -> program ∅ {| pool := b; heap := ∅; trace := [] |}
| program_pool ks w b' :
    program ks w -> pool_step (pool w) b' ->
    program ks {| pool := b'; heap := heap w; trace := trace w |}
| program_FetchPageBasic ks w p a :
    program ks w -> ks !! a = None ->
    program (<[a := KBasic]> ks) (after (FetchPageBasic p a) w)
| program_NewPageGuarded ks w a :
    program ks w -> ks !! a = None ->
    program (<[a := KBasic]> ks) (after (NewPageGuarded a) w)
| program_FetchPageRead ks w p a f :
    program ks w -> ks !! a = None ->
    value_of (FetchPage p (pool w)) = Some (Some f) ->
    program (<[a := KRead]> ks) (after (FetchPageRead p a) w)
| program_FetchPageWrite ks w p a f :
    program ks w -> ks !! a = None ->
    value_of (FetchPage p (pool w)) = Some (Some f) ->
    program (<[a := KWrite]> ks) (after (FetchPageWrite p a) w)
| program_UpgradeRead ks w this result :
    program ks w -> ks !! this = Some KBasic -> ks !! result = None ->
    program (<[result := KRead]> ks) (after (UpgradeRead this result) w)
| program_UpgradeWrite ks w this result :
    program ks w -> ks !! this = Some KBasic -> ks !! result = None ->
    program (<[result := KWrite]> ks) (after (UpgradeWrite this result) w)
| program_move ks w this that :
    program ks w -> ks !! that = Some KBasic -> ks !! this = None ->
    program (<[this := KBasic]> ks) (after (BasicPageGuard_move this that) w)
| program_assign ks w this that :
    program ks w -> ks !! this = Some KBasic -> ks !! that = Some KBasic ->
    program ks (after (move_assign this that) w)
| program_Drop ks w this :
    program ks w -> ks !! this = Some KBasic -> program ks (after (Drop this) w)
| program_delete ks w this :
    program ks w -> ks !! this = Some KBasic ->
    program (delete this ks) (after (BasicPageGuard_delete this) w)
| program_Read_move ks w this that :
    program ks w -> ks !! that = Some KRead -> ks !! this = None ->
    program (<[this := KRead]> ks) (after (ReadPageGuard_move this that) w)
| program_Read_assign ks w this that :
    program ks w -> ks !! this = Some KRead -> ks !! that = Some KRead ->
    program ks (after (ReadPageGuard_move_assign this that) w)
| program_Read_Drop ks w this :
    program ks w -> ks !! this = Some KRead ->
    program ks (after (ReadPageGuard_Drop this) w)
| program_Read_delete ks w this :
    program ks w -> ks !! this = Some KRead ->
    program (delete this ks) (after (ReadPageGuard_delete this) w)
| program_Write_move ks w this that :
    program ks w -> ks !! that = Some KWrite -> ks !! this = None ->
    program (<[this := KWrite]> ks) (after (WritePageGuard_move this that) w)
| program_Write_assign ks w this that :
    program ks w -> ks !! this = Some KWrite -> ks !! that = Some KWrite ->
    program ks (after (WritePageGuard_move_assign this that) w)
| program_Write_Drop ks w this :
    program ks w -> ks !! this = Some KWrite ->
    program ks (after (WritePageGuard_Drop this) w)
| program_Write_delete ks w this :
    program ks w -> ks !! this = Some KWrite ->
    program (delete this ks) (after (WritePageGuard_delete this) w)
| program_Basic_new ks w a page :
    program ks w -> ks !! a = None ->
    program (<[a := KBasic]> ks) (after (BasicPageGuard_new a page) w)
| program_Read_new ks w a bpm page :
    program ks w -> ks !! a = None ->
    program (<[a := KRead]> ks) (after (ReadPageGuard_new a bpm page) w)
| program_Write_new ks w a bpm page :
    program ks w -> ks !! a = None ->
    program (<[a := KWrite]> ks) (after (WritePageGuard_new a bpm page) w).

(** The guard inside every read guard and write guard holds nothing. *)
Definition latched_null (ks : gmap nat guard_kind) (w : World) : Prop :=
  forall a k, ks !! a = Some k -> k <> KBasic -> page_ (guard_at w a) = None.

(** The calls that release a latch. *)
Definition is_unlatch (e : Event) : bool :=
  match e with CallRUnlatch _ | CallWUnlatch _ => true | _ => false end.

(** Page 0 is created and unpinned in a pool of one frame; a read guard
    is fetched for it at address 1, then a second one at address 2. *)
Definition world_read : World :=
  after (FetchPageRead 0 1)
    {| pool := after (UnpinPage 0 false) (after NewPage (Bpm.init 1 4 2 ∅));
       heap := ∅; trace := [] |}.

Definition world_two_reads : World := after (FetchPageRead 0 2) world_read.

(** The same with write guards. *)
Definition world_write : World :=
  after (FetchPageWrite 0 1)
    {| pool := after (UnpinPage 0 false) (after NewPage (Bpm.init 1 4 2 ∅));
       heap := ∅; trace := [] |}.

End GuardApi.

(** * Properties *)

(** ** The replacer *)

Module ReplacerProps.
Import Replacer.

Lemma trim_incl k h t : t ∈ trim k h -> t ∈ h.
Proof.
  induction h as [|a h IH]; simpl; [done|].
  destruct (k <? Z.of_nat (S (length h))); [|done].
  intros Hin. right. by apply IH.
Qed.

Lemma trim_nonempty k h : 1 <= k -> h <> [] -> trim k h <> [].
Proof.
  intros Hk. induction h as [|a h IH]; [done|]. intros _. simpl.
  destruct (k <? Z.of_nat (S (length h))) eqn:E; [|done].
  apply IH. destruct h; [|done]. simpl in E. apply Z.ltb_lt in E. lia.
Qed.

Lemma trim_short k h : Z.of_nat (length h) <= k -> trim k h = h.
Proof.
  destruct h as [|a h]; [done|]. simpl. intros Hl.
  destruct (k <? Z.of_nat (S (length h))) eqn:E; [|done].
  apply Z.ltb_lt in E. simpl in Hl. lia.
Qed.

Lemma trim_sorted k h : StronglySorted Z.lt h -> StronglySorted Z.lt (trim k h).
Proof.
  induction h as [|a h IH]; simpl; [done|]. intros Hs.
  destruct (k <? Z.of_nat (S (length h))); [|done].
  apply IH. by apply StronglySorted_inv in Hs as [? _].
Qed.

Lemma trim_length k h : 0 <= k -> Z.of_nat (length (trim k h)) <= k.
Proof.
  intros Hk. induction h as [|a h IH]; simpl; [lia|].
  destruct (k <? Z.of_nat (S (length h))) eqn:E; [done|].
  apply Z.ltb_ge in E. simpl. lia.
Qed.

(** *** The scan of [Evict] *)

Section Scan.
Variable r : LRUKReplacer.
Hypothesis Hwf : wf r.

Lemma front_in (h : list Z) : h <> [] -> front h ∈ h.
Proof. destruct h; [done|]. intros _. left. Qed.

Lemma front_bounds f n :
  node_store_ r !! f = Some n -> 1 <= front (history_ n) <= current_timestamp_ r.
Proof.
  intros Hn. destruct (wf_node r Hwf f n Hn) as (_ & _ & Hne & Hall).
  rewrite Forall_forall in Hall. apply Hall. by apply front_in.
Qed.

Lemma front_apart f1 f2 n1 n2 :
  node_store_ r !! f1 = Some n1 -> node_store_ r !! f2 = Some n2 ->
  front (history_ n1) = front (history_ n2) -> f1 = f2.
Proof.
  intros H1 H2 Heq.
  destruct (wf_node r Hwf f1 n1 H1) as (_ & _ & Hne1 & _).
  destruct (wf_node r Hwf f2 n2 H2) as (_ & _ & Hne2 & _).
  apply (wf_apart r Hwf f1 f2 n1 n2 (front (history_ n1)) H1 H2).
  - by apply front_in.
  - rewrite Heq. by apply front_in.
Qed.

(** The [size_t] distance of the code agrees with the distance of the
    specification: [SIZE_MAX] stands for infinity and a finite distance
    stays below it. *)
Lemma distance_spec f n :
  node_store_ r !! f = Some n ->
  match spec_backward_k_distance r n with
  | Infinite => distance r n = SIZE_MAX
  | Finite d => distance r n = d /\ 0 <= d < SIZE_MAX
  end.
Proof.
  intros Hn. pose proof (front_bounds f n Hn) as Hb.
  pose proof (wf_now r Hwf) as Hts.
  unfold spec_backward_k_distance, distance.
  destruct (Z.of_nat (length (history_ n)) <? k_ r); [done|].
  unfold wrap_size_t, SIZE_MAX in *.
  rewrite Z.mod_small by lia. lia.
Qed.

Lemma beats_trans a b c : beats r a b -> beats r b c -> beats r a c.
Proof. unfold beats. lia. Qed.

Lemma beats_evicted_before fa fb a b :
  node_store_ r !! fa = Some a -> node_store_ r !! fb = Some b ->
  beats r a b -> evicted_before r a b.
Proof.
  intros Ha Hb Hbeats.
  pose proof (distance_spec fa a Ha) as Da.
  pose proof (distance_spec fb b Hb) as Db.
  unfold evicted_before.
  assert (Hfin : forall x y, spec_backward_k_distance r a = Finite x ->
                   spec_backward_k_distance r b = Finite y ->
                   x = current_timestamp_ r - front (history_ a)
                   /\ y = current_timestamp_ r - front (history_ b)).
  { unfold spec_backward_k_distance.
    destruct (Z.of_nat (length (history_ a)) <? k_ r);
      destruct (Z.of_nat (length (history_ b)) <? k_ r); intros; simplify_eq; done. }
  destruct (spec_backward_k_distance r a) as [x|] eqn:Ea;
    destruct (spec_backward_k_distance r b) as [y|] eqn:Eb; simpl.
  - destruct (Hfin x y eq_refl eq_refl). left. unfold beats in Hbeats. lia.
  - unfold beats in Hbeats. lia.
  - by left.
  - right. unfold beats in Hbeats. repeat split; lia.
Qed.

Lemma key_valid f n : node_store_ r !! f = Some n -> f <> INVALID_FRAME_ID.
Proof.
  intros Hn. destruct (wf_node r Hwf f n Hn) as (_ & Hf & _).
  unfold INVALID_FRAME_ID. lia.
Qed.

Lemma evict_step_scanned seen acc kv :
  stored r seen -> node_store_ r !! kv.1 = Some kv.2 ->
  scanned r seen acc -> scanned r (seen ++ [kv]) (evict_step r acc kv).
Proof.
  destruct acc as [v d], kv as [f n]. simpl. intros Hseen Hn Hacc.
  destruct (wf_node r Hwf f n Hn) as (Hfid & _).
  unfold evict_step. simpl.
  destruct (is_evictable_ n) eqn:Hev; simpl.
  2:{ destruct Hacc as [[Hv Hall]|(nv & Hnv & Hevv & Hd & Hall)].
      - left. split; [done|].
        intros kv [Hin| ->%list_elem_of_singleton]%elem_of_app; auto.
      - right. exists nv. repeat split; try done.
        intros kv [Hin|Hin%list_elem_of_singleton]%elem_of_app He Hne;
          [by apply Hall|].
        subst kv. simpl in He. congruence. }
  destruct Hacc as [[Hv Hall]|(nv & Hnv & Hevv & Hd & Hall)]; simpl in *.
  - subst v. simpl. right. exists n. rewrite Hfid. repeat split; try done.
    intros kv [Hin|Hin%list_elem_of_singleton]%elem_of_app He Hne.
    + rewrite (Hall kv Hin) in He. done.
    + subst kv. done.
  - pose proof (key_valid v nv Hnv) as Hvalid.
    destruct (v =? INVALID_FRAME_ID) eqn:E; [apply Z.eqb_eq in E; done|]. simpl.
    unfold at_. rewrite Hnv. simpl. subst d.
    destruct ((distance r nv <? distance r n)
              || (distance r nv =? distance r n)
                 && (front (history_ n) <? front (history_ nv))) eqn:C.
    + assert (Hb : beats r n nv).
      { unfold beats. apply orb_true_iff in C as [C|C].
        - left. by apply Z.ltb_lt.
        - apply andb_true_iff in C as [C1 C2]. right.
          apply Z.eqb_eq in C1. apply Z.ltb_lt in C2. lia. }
      right. exists n. simpl. rewrite Hfid. repeat split; try done.
      intros kv [Hin|Hin%list_elem_of_singleton]%elem_of_app He Hne.
      * destruct (decide (kv.1 = v)) as [Heq|Hne'].
        -- pose proof (Hseen kv Hin) as Hkv. rewrite Heq, Hnv in Hkv.
           by simplify_eq.
        -- eapply beats_trans; [exact Hb|]. by apply Hall.
      * subst kv. done.
    + right. exists nv. simpl. repeat split; try done.
      intros kv [Hin|Hin%list_elem_of_singleton]%elem_of_app He Hne;
        [by apply Hall|].
      subst kv. simpl in *.
      apply orb_false_iff in C as [C1 C2]. apply Z.ltb_ge in C1.
      assert (front (history_ n) <> front (history_ nv)).
      { intros Heq. apply Hne. by eapply front_apart. }
      unfold beats. apply andb_false_iff in C2 as [C2|C2].
      * apply Z.eqb_neq in C2. lia.
      * apply Z.ltb_ge in C2. lia.
Qed.

Lemma fold_scanned l : forall seen acc,
  stored r seen -> stored r l -> scanned r seen acc ->
  scanned r (seen ++ l) (fold_left (evict_step r) l acc).
Proof.
  induction l as [|kv l IH]; intros seen acc Hseen Hl Hacc; simpl.
  - by rewrite app_nil_r.
  - replace (seen ++ kv :: l) with ((seen ++ [kv]) ++ l)
      by (by rewrite <- app_assoc).
    apply IH.
    + intros x [Hin| ->%list_elem_of_singleton]%elem_of_app; [by apply Hseen|].
      apply Hl. by left.
    + intros x Hin. apply Hl. by right.
    + apply evict_step_scanned; [done| |done]. apply Hl. by left.
Qed.

Lemma evict_scan_scanned order :
  stored r order -> scanned r order (evict_scan r order).
Proof.
  intros Ho. apply (fold_scanned order [] _); [by intros ? ?%elem_of_nil|done|].
  left. split; [done|]. by intros ? ?%elem_of_nil.
Qed.

End Scan.

(** *** Every reachable state is well formed *)

Lemma wf_init num_frames k : 1 <= k -> wf (init num_frames k).
Proof.
  intros Hk. split; simpl; done.
Qed.

Lemma out_of_range_false r f : out_of_range r f = false -> 0 <= f.
Proof.
  unfold out_of_range. intros [H1 _]%orb_false_iff. by apply Z.ltb_ge in H1.
Qed.

Lemma wf_RecordAccess r f :
  wf r -> current_timestamp_ r < SIZE_MAX -> wf (state_of (RecordAccess f r)).
Proof.
  intros Hwf Hlt. unfold RecordAccess.
  destruct (out_of_range r f) eqn:Hr; [done|]. simpl.
  pose proof (wf_now r Hwf) as Hnow. pose proof (wf_k r Hwf) as Hk.
  assert (Hts : wrap_size_t (current_timestamp_ r + 1) = current_timestamp_ r + 1).
  { unfold wrap_size_t, SIZE_MAX in *. apply Z.mod_small. lia. }
  rewrite Hts.
  assert (Hold : forall t, t ∈ history_ (at_ (node_store_ r) f) ->
                   1 <= t <= current_timestamp_ r
                   /\ exists n, node_store_ r !! f = Some n /\ t ∈ history_ n).
  { intros t. unfold at_. destruct (node_store_ r !! f) as [n|] eqn:E; simpl.
    - intros Hin. destruct (wf_node r Hwf f n E) as (_ & _ & _ & Hall).
      rewrite Forall_forall in Hall. split; [by apply Hall|]. by exists n.
    - by intros ?%elem_of_nil. }
  split; simpl.
  - done.
  - lia.
  - intros f' n. rewrite lookup_insert. case_decide as Hf.
    + intros [= <-]. subst f'. simpl. repeat split.
      * by apply out_of_range_false in Hr.
      * apply trim_nonempty; [done|]. by destruct (history_ (at_ (node_store_ r) f)).
      * apply Forall_forall. intros t Ht%trim_incl.
        apply elem_of_app in Ht as [Ht| ->%list_elem_of_singleton]; [|lia].
        destruct (Hold t Ht). lia.
    + intros Hn. destruct (wf_node r Hwf f' n Hn) as (? & ? & ? & Hall).
      repeat split; try done. eapply Forall_impl; [exact Hall|].
      simpl. intros. lia.
  - intros f1 f2 n1 n2 t. rewrite !lookup_insert.
    assert (Hnew : forall g m, g <> f -> node_store_ r !! g = Some m ->
                     t ∈ trim (k_ r) (history_ (at_ (node_store_ r) f)
                                      ++ [current_timestamp_ r + 1]) ->
                     t ∈ history_ m -> False).
    { intros g m Hg Hm Ht%trim_incl Htm.
      destruct (wf_node r Hwf g m Hm) as (_ & _ & _ & Hall).
      rewrite Forall_forall in Hall. specialize (Hall t Htm).
      apply elem_of_app in Ht as [Ht| ->%list_elem_of_singleton]; [|lia].
      destruct (Hold t Ht) as (_ & n & Hn & Htn).
      apply Hg. symmetry. by apply (wf_apart r Hwf f g n m t). }
    repeat case_decide; subst.
    + done.
    + intros [= <-] Hn2 Ht1 Ht2. simpl in Ht1. exfalso. by eapply (Hnew f2 n2).
    + intros Hn1 [= <-] Ht1 Ht2. simpl in Ht2. exfalso. by eapply (Hnew f1 n1).
    + by apply (wf_apart r Hwf).
  - intros f' n. rewrite lookup_insert. case_decide as Hf.
    + intros [= <-]. simpl. apply trim_sorted. apply StronglySorted_app_2.
      * intros t1 t2 Ht1 ->%list_elem_of_singleton.
        destruct (Hold t1 Ht1). lia.
      * unfold at_. destruct (node_store_ r !! f) as [n0|] eqn:E; simpl.
        -- by apply (wf_sorted r Hwf f).
        -- constructor.
      * repeat constructor.
    + apply (wf_sorted r Hwf).
Qed.

Lemma wf_SetEvictable r f e : wf r -> wf (state_of (SetEvictable f e r)).
Proof.
  intros Hwf. unfold SetEvictable.
  destruct (out_of_range r f); [done|].
  destruct (node_store_ r !! f) as [n|] eqn:E; [|done].
  destruct (negb (eqb (is_evictable_ n) e)); [|done]. simpl.
  destruct (wf_node r Hwf f n E) as (Hfid & Hf & Hne & Hall).
  split; simpl.
  - apply (wf_k r Hwf).
  - apply (wf_now r Hwf).
  - intros f' n'. rewrite lookup_insert. case_decide.
    + intros [= <-]. subst f'. done.
    + apply (wf_node r Hwf).
  - assert (Hsame : forall g m,
              <[f := {| history_ := history_ n; fid_ := fid_ n; is_evictable_ := e |}]>
                (node_store_ r) !! g = Some m ->
              exists m0, node_store_ r !! g = Some m0 /\ history_ m0 = history_ m).
    { intros g m. rewrite lookup_insert. case_decide as Hg.
      - intros [= <-]. subst g. by exists n.
      - intros Hm. by exists m. }
    intros f1 f2 n1 n2 t H1 H2 Ht1 Ht2.
    destruct (Hsame f1 n1 H1) as (m1 & Hm1 & E1).
    destruct (Hsame f2 n2 H2) as (m2 & Hm2 & E2).
    rewrite <- E1 in Ht1. rewrite <- E2 in Ht2.
    by apply (wf_apart r Hwf f1 f2 m1 m2 t).
  - intros f' n'. rewrite lookup_insert. case_decide.
    + intros [= <-]. simpl. by apply (wf_sorted r Hwf f).
    + apply (wf_sorted r Hwf).
Qed.

Lemma wf_delete r v size :
  wf r ->
  wf {| node_store_ := delete v (node_store_ r);
        current_timestamp_ := current_timestamp_ r;
        curr_size_ := size;
        replacer_size_ := replacer_size_ r;
        k_ := k_ r |}.
Proof.
  intros Hwf. split; simpl.
  - apply (wf_k r Hwf).
  - apply (wf_now r Hwf).
  - intros f n [_ Hn]%lookup_delete_Some. by apply (wf_node r Hwf).
  - intros f1 f2 n1 n2 t [_ H1]%lookup_delete_Some [_ H2]%lookup_delete_Some.
    by apply (wf_apart r Hwf).
  - intros f n [_ Hn]%lookup_delete_Some. by apply (wf_sorted r Hwf f).
Qed.

Lemma wf_Remove r f : wf r -> wf (state_of (Remove f r)).
Proof.
  intros Hwf. unfold Remove.
  destruct (out_of_range r f); [done|].
  destruct (node_store_ r !! f) as [n|]; [|done].
  destruct (negb (is_evictable_ n)); [done|]. simpl. by apply wf_delete.
Qed.

Lemma wf_Evict_in r order : wf r -> wf (Evict_in order r).2.
Proof.
  intros Hwf. unfold Evict_in.
  destruct ((evict_scan r order).1 =? INVALID_FRAME_ID); [done|]. simpl.
  by apply wf_delete.
Qed.

Lemma reachable_wf num_frames k r :
  1 <= k -> reachable num_frames k r -> wf r.
Proof.
  intros Hk. induction 1.
  - by apply wf_init.
  - by apply wf_RecordAccess.
  - by apply wf_SetEvictable.
  - by apply wf_Remove.
  - by apply wf_Evict_in.
Qed.

(** *** Evict *)

(** The front of a history is its earliest timestamp: for a node with
    fewer than K accesses, whose history was never trimmed, it is the time
    of its first access. *)
Lemma front_earliest r f n t :
  wf r -> node_store_ r !! f = Some n -> t ∈ history_ n ->
  front (history_ n) <= t.
Proof.
  intros Hwf Hn Ht. pose proof (wf_sorted r Hwf f n Hn) as Hs.
  destruct (history_ n) as [|a h]; [by apply elem_of_nil in Ht|]. simpl.
  apply StronglySorted_inv in Hs as [_ Hall]. rewrite Forall_forall in Hall.
  apply elem_of_cons in Ht as [->|Ht]; [lia|]. specialize (Hall t Ht). lia.
Qed.

(** The frame the loop of [Evict] ends with, whatever the order of the
    visit: the invalid frame id when no node is evictable, and otherwise
    the evictable node that is to be evicted before all others. *)
Lemma evict_scan_victim r order :
  wf r -> order ≡ₚ map_to_list (node_store_ r) ->
  let v := (evict_scan r order).1 in
  (v = INVALID_FRAME_ID
   /\ forall f n, node_store_ r !! f = Some n -> is_evictable_ n = false)
  \/ (v <> INVALID_FRAME_ID
      /\ exists nv, node_store_ r !! v = Some nv
           /\ is_evictable_ nv = true
           /\ forall f n, node_store_ r !! f = Some n -> is_evictable_ n = true ->
                          f <> v -> evicted_before r nv n).
Proof.
  intros Hwf Hperm.
  assert (Hin : forall f n, (f, n) ∈ order <-> node_store_ r !! f = Some n).
  { intros f n. rewrite Hperm. apply elem_of_map_to_list. }
  assert (Hst : stored r order).
  { intros [f n] Hkv. by apply Hin. }
  pose proof (evict_scan_scanned r Hwf order Hst) as Hscan.
  destruct (evict_scan r order) as [v d]. simpl in *.
  destruct Hscan as [[Hv Hall]|(nv & Hnv & Hev & _ & Hall)]; simpl in *.
  - left. split; [done|].
    intros f n Hn. apply (Hall (f, n)). by apply Hin.
  - right. split; [by apply (key_valid r Hwf v nv)|].
    exists nv. split; [done|]. split; [done|].
    intros f n Hn He Hne.
    apply (beats_evicted_before r Hwf v f); try done.
    apply (Hall (f, n)); try done. by apply Hin.
Qed.

Lemma evicted_before_asym r a b : evicted_before r a b -> evicted_before r b a -> False.
Proof.
  unfold evicted_before.
  destruct (spec_backward_k_distance r a), (spec_backward_k_distance r b);
    simpl; intros [?|(? & ? & ?)] [?|(? & ? & ?)]; try done; lia.
Qed.

(** The order in which the loop visits the map does not matter: in a
    well-formed state every order gives the same result, that of the
    executable [Evict]. *)
Lemma Evict_in_order_irrelevant r order :
  wf r -> order ≡ₚ map_to_list (node_store_ r) -> Evict_in order r = Evict r.
Proof.
  intros Hwf Hperm.
  pose proof (evict_scan_victim r order Hwf Hperm) as H1.
  pose proof (evict_scan_victim r (map_to_list (node_store_ r)) Hwf (reflexivity _)) as H2.
  unfold Evict, Evict_in. simpl in H1, H2.
  set (v1 := (evict_scan r order).1) in *.
  set (v2 := (evict_scan r (map_to_list (node_store_ r))).1) in *.
  assert (Heq : v1 = v2); [|by rewrite Heq].
  destruct H1 as [[E1 Hnone1]|(Hv1 & n1 & Hn1 & He1 & Hb1)];
    destruct H2 as [[E2 Hnone2]|(Hv2 & n2 & Hn2 & He2 & Hb2)].
  - congruence.
  - rewrite (Hnone1 _ _ Hn2) in He2. done.
  - rewrite (Hnone2 _ _ Hn1) in He1. done.
  - destruct (decide (v1 = v2)) as [|Hne]; [done|].
    exfalso. apply (evicted_before_asym r n1 n2).
    + by apply (Hb1 v2).
    + apply (Hb2 v1); [done|done|]. by intros ->.
Qed.

(** C1. In every well-formed state (so in every reachable state), and
    whatever the order in which the loop visits the map, [Evict] returns
    the evictable node that is to be evicted before every other evictable
    node: its backward K-distance is greater, or both distances are
    infinite and its first access is earlier. The node is erased from the
    store. When no node is evictable, [Evict] returns nothing and changes
    nothing. *)
Theorem Evict_greatest_backward_k_distance r order :
  wf r -> order ≡ₚ map_to_list (node_store_ r) ->
  match Evict_in order r with
  | (Some v, r') =>
      (exists nv, node_store_ r !! v = Some nv
         /\ is_evictable_ nv = true
         /\ forall f n, node_store_ r !! f = Some n -> is_evictable_ n = true ->
                        f <> v -> evicted_before r nv n)
      /\ node_store_ r' = delete v (node_store_ r)
      /\ node_store_ r' !! v = None
  | (None, r') =>
      (forall f n, node_store_ r !! f = Some n -> is_evictable_ n = false)
      /\ r' = r
  end.
Proof.
  intros Hwf Hperm.
  pose proof (evict_scan_victim r order Hwf Hperm) as Hscan. simpl in Hscan.
  unfold Evict_in.
  destruct Hscan as [[Hv Hnone]|(Hv & nv & Hnv & Hev & Hbest)].
  - rewrite Hv. simpl. done.
  - destruct (_ =? INVALID_FRAME_ID) eqn:E; [by apply Z.eqb_eq in E|].
    simpl. split; [by exists nv|]. split; [done|]. apply lookup_delete_eq.
Qed.

Lemma scenario_abc_reachable : reachable 7 2 scenario_abc.
Proof.
  unfold scenario_abc, after.
  repeat first [ apply reach_SetEvictable
               | apply reach_RecordAccess; [|vm_compute; reflexivity]
               | apply reach_init ].
Qed.

Lemma Evict_greatest_backward_k_distance_witness :
  match Evict_in (map_to_list (node_store_ scenario_abc)) scenario_abc with
  | (Some v, r') =>
      (exists nv, node_store_ scenario_abc !! v = Some nv
         /\ is_evictable_ nv = true
         /\ forall f n, node_store_ scenario_abc !! f = Some n ->
                        is_evictable_ n = true ->
                        f <> v -> evicted_before scenario_abc nv n)
      /\ node_store_ r' = delete v (node_store_ scenario_abc)
      /\ node_store_ r' !! v = None
  | (None, r') =>
      (forall f n, node_store_ scenario_abc !! f = Some n -> is_evictable_ n = false)
      /\ r' = scenario_abc
  end.
Proof.
  apply (Evict_greatest_backward_k_distance scenario_abc
           (map_to_list (node_store_ scenario_abc))).
  - apply (reachable_wf 7 2); [lia | apply scenario_abc_reachable].
  - reflexivity.
Defined.

(** Scenario 4 of section 8: with K = 2 and A, B, C accessed once each,
    [Evict] returns A. *)
Example Evict_scenario_abc : (Evict scenario_abc).1 = Some 1.
Proof. vm_compute. reflexivity. Qed.

(** Scenario 3 of section 8: the penultimate access of frame 5 is older
    than that of frame 1, and [Evict] returns frame 5, then frame 1. *)
Example Evict_scenario_15 :
  (Evict scenario_15).1 = Some 5
  /\ (Evict (Evict scenario_15).2).1 = Some 1
  /\ (Evict (Evict (Evict scenario_15).2).2).1 = None.
Proof. vm_compute. done. Qed.

(** *** [Evict] without the policy *)

(** What the pool needs of [Evict]: the frame returned is one of an
    evictable node which is erased, and nothing is returned only when no
    node is evictable. It holds as soon as the nodes are stored under
    their frame ids ([keyed]). *)
Lemma evict_step_found r seen acc kv :
  keyed r -> node_store_ r !! kv.1 = Some kv.2 ->
  ((acc.1 = INVALID_FRAME_ID /\ forall x, x ∈ seen -> is_evictable_ x.2 = false)
   \/ exists nv, node_store_ r !! acc.1 = Some nv /\ is_evictable_ nv = true) ->
  let acc' := evict_step r acc kv in
  (acc'.1 = INVALID_FRAME_ID /\ forall x, x ∈ seen ++ [kv] -> is_evictable_ x.2 = false)
  \/ exists nv, node_store_ r !! acc'.1 = Some nv /\ is_evictable_ nv = true.
Proof.
  destruct acc as [v d], kv as [f n]. simpl. intros Hk Hn Hacc.
  destruct (Hk f n Hn) as [Hfid Hf].
  unfold evict_step. simpl.
  destruct (is_evictable_ n) eqn:Hev; simpl.
  - destruct Hacc as [[Hv Hall]|Hacc].
    + subst v. rewrite Z.eqb_refl. simpl. right. exists n. by rewrite Hfid.
    + match goal with |- context [if ?c then _ else _] => destruct c end; simpl.
      * right. exists n. by rewrite Hfid.
      * by right.
  - destruct Hacc as [[Hv Hall]|Hacc]; [|by right].
    left. split; [done|].
    intros x [Hin| ->%list_elem_of_singleton]%elem_of_app; auto.
Qed.

Lemma evict_scan_found r l : forall seen acc,
  keyed r -> (forall kv, kv ∈ l -> node_store_ r !! kv.1 = Some kv.2) ->
  ((acc.1 = INVALID_FRAME_ID /\ forall x, x ∈ seen -> is_evictable_ x.2 = false)
   \/ exists nv, node_store_ r !! acc.1 = Some nv /\ is_evictable_ nv = true) ->
  let acc' := fold_left (evict_step r) l acc in
  (acc'.1 = INVALID_FRAME_ID /\ forall x, x ∈ seen ++ l -> is_evictable_ x.2 = false)
  \/ exists nv, node_store_ r !! acc'.1 = Some nv /\ is_evictable_ nv = true.
Proof.
  induction l as [|kv l IH]; intros seen acc Hk Hl Hacc; simpl.
  - by rewrite app_nil_r.
  - replace (seen ++ kv :: l) with ((seen ++ [kv]) ++ l)
      by (by rewrite <- app_assoc).
    apply IH; [done| |].
    + intros x Hin. apply Hl. by right.
    + apply evict_step_found; [done| |done]. apply Hl. by left.
Qed.

Lemma Evict_in_found r order :
  keyed r -> order ≡ₚ map_to_list (node_store_ r) ->
  match Evict_in order r with
  | (Some v, r') =>
      (exists nv, node_store_ r !! v = Some nv /\ is_evictable_ nv = true)
      /\ r' = {| node_store_ := delete v (node_store_ r);
                 current_timestamp_ := current_timestamp_ r;
                 curr_size_ := wrap_size_t (curr_size_ r - 1);
                 replacer_size_ := replacer_size_ r;
                 k_ := k_ r |}
  | (None, r') =>
      (forall f n, node_store_ r !! f = Some n -> is_evictable_ n = false)
      /\ r' = r
  end.
Proof.
  intros Hk Hperm.
  assert (Hin : forall f n, (f, n) ∈ order <-> node_store_ r !! f = Some n).
  { intros f n. rewrite Hperm. apply elem_of_map_to_list. }
  pose proof (evict_scan_found r order [] (INVALID_FRAME_ID, 0) Hk) as Hscan.
  unfold Evict_in, evict_scan.
  destruct Hscan as [[Hv Hall]|(nv & Hnv & Hev)].
  - intros [f n] Hkv. by apply Hin.
  - left. split; [done|]. by intros ? ?%elem_of_nil.
  - rewrite Hv. simpl. split; [|done].
    intros f n Hn. apply (Hall (f, n)). simpl. by apply Hin.
  - destruct (Hk _ _ Hnv) as [_ Hpos].
    destruct (_ =? INVALID_FRAME_ID) eqn:E.
    + apply Z.eqb_eq in E. rewrite E in Hpos. unfold INVALID_FRAME_ID in Hpos. lia.
    + split; [|done]. by exists nv.
Qed.

(** When no node is evictable [Evict] returns false and changes nothing,
    whatever the state and the order of the visit. *)
Lemma Evict_in_none r order :
  (forall kv, kv ∈ order -> is_evictable_ kv.2 = false) ->
  Evict_in order r = (None, r).
Proof.
  intros Hall. unfold Evict_in, evict_scan.
  assert (H : forall acc, fold_left (evict_step r) order acc = acc).
  { induction order as [|kv l IH]; [done|]. intros [v d].
    change (fold_left (evict_step r) (kv :: l) (v, d))
      with (fold_left (evict_step r) l (evict_step r (v, d) kv)).
    assert (Hstep : evict_step r (v, d) kv = (v, d)).
    { unfold evict_step. by rewrite (Hall kv) by (by left). }
    rewrite Hstep. apply IH. intros x Hx. apply Hall. by right. }
  by rewrite H.
Qed.

Lemma Evict_none r :
  (forall f n, node_store_ r !! f = Some n -> is_evictable_ n = false) ->
  Evict r = (None, r).
Proof.
  intros Hall. apply Evict_in_none. intros [f n] Hin. simpl.
  apply (Hall f). by apply elem_of_map_to_list.
Qed.

(** *** The range check *)

Lemma out_of_range_spec r f :
  0 <= f <= SIZE_MAX ->
  out_of_range r f = true <-> replacer_size_ r < f.
Proof.
  intros Hf. unfold out_of_range, wrap_size_t.
  rewrite Z.mod_small by (unfold SIZE_MAX in Hf; lia).
  rewrite orb_true_iff, Z.ltb_lt, Z.ltb_lt. lia.
Qed.

Lemma raises_RecordAccess r f :
  raises OUT_OF_RANGE (RecordAccess f r) <-> out_of_range r f = true.
Proof. unfold RecordAccess. destruct (out_of_range r f); simpl; naive_solver. Qed.

Lemma raises_SetEvictable r f e :
  raises OUT_OF_RANGE (SetEvictable f e r) <-> out_of_range r f = true.
Proof.
  unfold SetEvictable. destruct (out_of_range r f); simpl; [naive_solver|].
  destruct (node_store_ r !! f) as [n|]; [|naive_solver].
  destruct (negb _); naive_solver.
Qed.

Lemma raises_Remove r f :
  raises OUT_OF_RANGE (Remove f r) <-> out_of_range r f = true.
Proof.
  unfold Remove. destruct (out_of_range r f); simpl; [naive_solver|].
  destruct (node_store_ r !! f) as [n|]; [|naive_solver].
  destruct (negb _); naive_solver.
Qed.

(** C4 (the code at the input where it departs from the claim). The three
    range checks compare with [>]: the frame id [num_frames] itself, which
    is outside [[0, num_frames)], is accepted by [RecordAccess],
    [SetEvictable] and [Remove]; none of them raises OutOfRange for it. *)
Theorem range_check_accepts_num_frames r e :
  0 <= replacer_size_ r <= SIZE_MAX ->
  ~ raises OUT_OF_RANGE (RecordAccess (replacer_size_ r) r)
  /\ ~ raises OUT_OF_RANGE (SetEvictable (replacer_size_ r) e r)
  /\ ~ raises OUT_OF_RANGE (Remove (replacer_size_ r) r).
Proof.
  intros Hsz.
  rewrite raises_RecordAccess, raises_SetEvictable, raises_Remove.
  rewrite out_of_range_spec by done. lia.
Qed.

Lemma range_check_accepts_num_frames_witness :
  ~ raises OUT_OF_RANGE (RecordAccess 7 (init 7 2))
  /\ ~ raises OUT_OF_RANGE (SetEvictable 7 true (init 7 2))
  /\ ~ raises OUT_OF_RANGE (Remove 7 (init 7 2)).
Proof.
  apply (range_check_accepts_num_frames (init 7 2) true).
  simpl. unfold SIZE_MAX. lia.
Defined.

(** With seven frames, [RecordAccess(7)] returns normally and stores a
    node for frame 7. *)
Example RecordAccess_num_frames :
  exists r, RecordAccess 7 (init 7 2) = Normal tt r
            /\ is_Some (node_store_ r !! 7).
Proof. eexists. split; [reflexivity|]. vm_compute. eauto. Qed.

(** The range check, completely: OutOfRange is raised exactly for the
    frame ids below 0 or above [num_frames]. *)
Lemma OutOfRange_iff r f e :
  - 2 ^ 31 <= f < 2 ^ 31 -> 0 <= replacer_size_ r ->
  (raises OUT_OF_RANGE (RecordAccess f r) <-> f < 0 \/ replacer_size_ r < f)
  /\ (raises OUT_OF_RANGE (SetEvictable f e r) <-> f < 0 \/ replacer_size_ r < f)
  /\ (raises OUT_OF_RANGE (Remove f r) <-> f < 0 \/ replacer_size_ r < f).
Proof.
  intros Hf Hsz.
  rewrite raises_RecordAccess, raises_SetEvictable, raises_Remove.
  assert (out_of_range r f = true <-> f < 0 \/ replacer_size_ r < f); [|done].
  destruct (decide (f < 0)) as [Hneg|Hpos].
  - unfold out_of_range. rewrite (proj2 (Z.ltb_lt f 0) Hneg). simpl.
    split; [intros _; by left | done].
  - rewrite out_of_range_spec by (unfold SIZE_MAX; lia). lia.
Qed.

End ReplacerProps.

(** ** The buffer pool manager *)

Module BpmProps.
Import Replacer Bpm ReplacerProps.

(** *** Frames *)

Lemma page_at_update_eq b f g :
  (Z.to_nat f < length (pages_ b))%nat ->
  page_at (update_page f g b) f = g (page_at b f).
Proof.
  intros Hlt. unfold page_at, update_page. simpl.
  by rewrite list_lookup_insert_eq.
Qed.

Lemma page_at_update_ne b f f' g :
  0 <= f -> 0 <= f' -> f <> f' ->
  page_at (update_page f g b) f' = page_at b f'.
Proof.
  intros Hf Hf' Hne. unfold page_at, update_page. simpl.
  rewrite list_lookup_insert_ne; [done|]. lia.
Qed.

Lemma update_page_twice b f g1 g2 :
  update_page f g2 (update_page f g1 b) = update_page f (fun p => g2 (g1 p)) b.
Proof.
  unfold update_page at 1 3. unfold set_pages. simpl. f_equal.
  destruct (decide (Z.to_nat f < length (pages_ b))%nat) as [Hlt|Hge].
  - rewrite page_at_update_eq by done. apply list_insert_insert_eq.
  - rewrite !list_insert_ge; try done; try lia.
    unfold update_page. simpl. rewrite list_insert_ge; lia.
Qed.

Lemma in_pool b f :
  inv b -> 0 <= f < pool_size_ b ->
  (Z.to_nat f < length (pages_ b))%nat /\ out_of_range (replacer_ b) f = false.
Proof.
  intros Hinv Hf. destruct (inv_size b Hinv) as (Hr & Hp & Hmax).
  split; [lia|].
  destruct (out_of_range (replacer_ b) f) eqn:E; [|done].
  apply out_of_range_spec in E; lia.
Qed.

(** *** The replacer calls of the pool *)

Lemma SetEvictable_in_range r f e :
  out_of_range r f = false ->
  exists r', SetEvictable f e r = Normal tt r'
    /\ replacer_size_ r' = replacer_size_ r
    /\ forall g, node_store_ r' !! g =
         if decide (g = f)
         then (fun n => {| history_ := history_ n; fid_ := fid_ n; is_evictable_ := e |})
                <$> node_store_ r !! f
         else node_store_ r !! g.
Proof.
  intros Hr. unfold SetEvictable. rewrite Hr.
  destruct (node_store_ r !! f) as [n|] eqn:E.
  - destruct (negb (eqb (is_evictable_ n) e)) eqn:C.
    + eexists. split; [done|]. simpl. repeat split.
      intros g. rewrite lookup_insert. repeat case_decide; subst; done.
    + exists r. repeat split. intros g. case_decide; [|done]. subst g.
      rewrite E. simpl. f_equal. destruct n as [h i ev]. simpl in *.
      apply negb_false_iff, eqb_prop in C. by subst.
  - exists r. repeat split. intros g. case_decide; [|done]. subst. by rewrite E.
Qed.

Lemma RecordAccess_in_range r f :
  out_of_range r f = false ->
  exists r' nd, RecordAccess f r = Normal tt r'
    /\ replacer_size_ r' = replacer_size_ r
    /\ node_store_ r' = <[f := nd]> (node_store_ r)
    /\ fid_ nd = f
    /\ is_evictable_ nd = is_evictable_ (at_ (node_store_ r) f).
Proof.
  intros Hr. unfold RecordAccess. rewrite Hr. eexists _, _.
  split; [done|]. simpl. done.
Qed.

Lemma Remove_in_range r f :
  out_of_range r f = false ->
  (forall n, node_store_ r !! f = Some n -> is_evictable_ n = true) ->
  exists r', Remove f r = Normal tt r'
    /\ replacer_size_ r' = replacer_size_ r
    /\ node_store_ r' = delete f (node_store_ r).
Proof.
  intros Hr Hev. unfold Remove. rewrite Hr.
  destruct (node_store_ r !! f) as [n|] eqn:E.
  - rewrite (Hev n eq_refl). simpl. eexists. done.
  - exists r. repeat split. symmetry. by apply delete_id.
Qed.

(** *** What the member functions compute *)

Lemma set_replacer_update_page r f g b :
  set_replacer r (update_page f g b) = update_page f g (set_replacer r b).
Proof. reflexivity. Qed.

Lemma UnpinPage_run b p f d :
  page_table_ b !! p = Some f ->
  0 < pin_count_ (page_at b f) ->
  (Z.to_nat f < length (pages_ b))%nat ->
  out_of_range (replacer_ b) f = false ->
  UnpinPage p d b =
    Normal true
      (update_page f (fun pg => set_is_dirty d (set_pin_count (pin_count_ pg - 1) pg))
         (set_replacer (if pin_count_ (page_at b f) - 1 =? 0
                        then after (SetEvictable f true) (replacer_ b)
                        else replacer_ b) b)).
Proof.
  intros Hp Hpin Hlt Hr.
  unfold UnpinPage, bind, get. rewrite Hp.
  destruct (pin_count_ (page_at b f) <=? 0) eqn:E; [apply Z.leb_le in E; lia|].
  unfold modify at 1. rewrite page_at_update_eq by done. simpl.
  destruct (pin_count_ (page_at b f) - 1 =? 0).
  - unfold on_replacer, after. simpl.
    destruct (SetEvictable_in_range (replacer_ b) f true Hr) as (r' & -> & _).
    simpl. unfold ret, modify. f_equal.
    rewrite set_replacer_update_page. apply update_page_twice.
  - unfold ret, modify. f_equal.
    rewrite update_page_twice. by destruct b.
Qed.

Lemma UnpinPage_absent b p d :
  page_table_ b !! p = None -> UnpinPage p d b = Normal false b.
Proof. intros Hp. unfold UnpinPage, bind, get. by rewrite Hp. Qed.

Lemma UnpinPage_unpinned b p f d :
  page_table_ b !! p = Some f -> pin_count_ (page_at b f) <= 0 ->
  UnpinPage p d b = Normal false b.
Proof.
  intros Hp Hpin. unfold UnpinPage, bind, get. rewrite Hp.
  by rewrite (proj2 (Z.leb_le _ _) Hpin).
Qed.

Lemma release_frame_run b f :
  release_frame f b =
    Normal tt
      (update_page f ResetMemory
         (set_page_table (delete (page_id_ (page_at b f))
                            (page_table_ (flush_victim f b)))
            (flush_victim f b))).
Proof.
  unfold release_frame, flush_victim, after, bind, get.
  destruct (is_dirty_ (page_at b f) && (0 <? strlen (data_ (page_at b f)))); done.
Qed.

Lemma flush_victim_same b f :
  pool_size_ (flush_victim f b) = pool_size_ b
  /\ pages_ (flush_victim f b) = pages_ b
  /\ free_list_ (flush_victim f b) = free_list_ b
  /\ page_table_ (flush_victim f b) = page_table_ b
  /\ replacer_ (flush_victim f b) = replacer_ b
  /\ next_page_id_ (flush_victim f b) = next_page_id_ b.
Proof.
  unfold flush_victim, after.
  destruct (is_dirty_ (page_at b f) && (0 <? strlen (data_ (page_at b f)))); done.
Qed.

Lemma page_at_flush_victim b f g : page_at (flush_victim f b) g = page_at b g.
Proof.
  unfold page_at. by rewrite (proj1 (proj2 (flush_victim_same b f))).
Qed.

Lemma InitPageOnBufferPool_run b f page_id :
  out_of_range (replacer_ b) f = false ->
  InitPageOnBufferPool f page_id b =
    Normal tt
      (set_page_table (<[page_id := f]> (page_table_ b))
         (set_replacer
            (after (RecordAccess f) (after (SetEvictable f false) (replacer_ b)))
            (update_page f
               (fun pg => set_pin_count 1 (set_is_dirty false (set_page_id page_id pg)))
               b))).
Proof.
  intros Hr. unfold InitPageOnBufferPool, bind, modify, on_replacer, after.
  rewrite !update_page_twice. simpl.
  destruct (SetEvictable_in_range (replacer_ b) f false Hr) as (r1 & -> & Hsz & _).
  simpl.
  assert (Hr1 : out_of_range r1 f = false).
  { unfold out_of_range in *. by rewrite Hsz. }
  destruct (RecordAccess_in_range r1 f Hr1) as (r2 & nd & -> & _).
  done.
Qed.

Lemma claim_run b f page_id :
  out_of_range (replacer_ b) f = false ->
  bind (release_frame f) (fun _ => InitPageOnBufferPool f page_id) b =
    Normal tt (claim f page_id (flush_victim f b)).
Proof.
  intros Hr. unfold bind. rewrite release_frame_run.
  rewrite InitPageOnBufferPool_run.
  2:{ simpl. by rewrite (proj1 (proj2 (proj2 (proj2 (proj2 (flush_victim_same b f)))))). }
  rewrite update_page_twice. unfold claim. rewrite page_at_flush_victim.
  reflexivity.
Qed.

Lemma set_replacer_id b : set_replacer (replacer_ b) b = b.
Proof. by destruct b. Qed.

Lemma inv_keyed b : inv b -> keyed (replacer_ b).
Proof.
  intros Hinv f n Hn. destruct (inv_nodes b Hinv f n Hn) as (? & ? & ?). done.
Qed.

(** [RequestFrameId] hands out the front of the free list, or else the
    frame [Evict] returns, or else the invalid frame id, in which case
    nothing has changed. *)
Lemma RequestFrameId_cases b :
  inv b ->
  (exists f rest, free_list_ b = f :: rest
     /\ RequestFrameId b = Normal f (set_free_list rest b))
  \/ (exists v nv, free_list_ b = []
        /\ node_store_ (replacer_ b) !! v = Some nv /\ is_evictable_ nv = true
        /\ RequestFrameId b =
             Normal v (set_replacer
                         {| node_store_ := delete v (node_store_ (replacer_ b));
                            current_timestamp_ := current_timestamp_ (replacer_ b);
                            curr_size_ := wrap_size_t (curr_size_ (replacer_ b) - 1);
                            replacer_size_ := replacer_size_ (replacer_ b);
                            k_ := k_ (replacer_ b) |} b))
  \/ (free_list_ b = [] /\ RequestFrameId b = Normal INVALID_FRAME_ID b).
Proof.
  intros Hinv. unfold RequestFrameId.
  destruct (free_list_ b) as [|f rest] eqn:Hfl.
  2:{ left. by exists f, rest. }
  right. destruct (0 <? Size (replacer_ b)); [|by right].
  pose proof (Evict_in_found (replacer_ b) (map_to_list (node_store_ (replacer_ b)))
                (inv_keyed b Hinv) (reflexivity _)) as Hev.
  unfold Evict.
  destruct (Evict_in _ (replacer_ b)) as [[v|] r'].
  - left. destruct Hev as [(nv & Hnv & Hevt) ->]. by exists v, nv.
  - right. destruct Hev as [_ ->]. by rewrite set_replacer_id.
Qed.

Lemma NewPage_run b f b1 :
  RequestFrameId b = Normal f b1 ->
  f <> INVALID_FRAME_ID ->
  out_of_range (replacer_ b1) f = false ->
  NewPage b =
    Normal (Some (next_page_id_ b1, f))
      (set_next_page_id (wrap_int32 (next_page_id_ b1 + 1))
         (claim f (next_page_id_ b1) (flush_victim f b1))).
Proof.
  intros Hreq Hf Hr. unfold NewPage. unfold bind at 1. rewrite Hreq.
  destruct (f =? INVALID_FRAME_ID) eqn:E; [by apply Z.eqb_eq in E|].
  unfold bind at 1. rewrite release_frame_run.
  unfold bind at 1, get at 1. unfold bind at 1.
  pose proof (flush_victim_same b1 f) as (_ & _ & _ & _ & Hrep & Hnp).
  rewrite InitPageOnBufferPool_run by (simpl; by rewrite Hrep).
  unfold bind, AllocatePage, ret. simpl. rewrite Hnp.
  rewrite update_page_twice. unfold claim. rewrite page_at_flush_victim.
  reflexivity.
Qed.

Lemma NewPage_full b :
  RequestFrameId b = Normal INVALID_FRAME_ID b -> NewPage b = Normal None b.
Proof. intros Hreq. unfold NewPage, bind. by rewrite Hreq. Qed.

Lemma FetchPage_hit_run b p f :
  page_table_ b !! p = Some f ->
  out_of_range (replacer_ b) f = false ->
  FetchPage p b =
    Normal (Some f)
      (set_replacer
         (after (RecordAccess f) (after (SetEvictable f false) (replacer_ b)))
         (update_page f (fun pg => set_pin_count (pin_count_ pg + 1) pg) b)).
Proof.
  intros Hp Hr. unfold FetchPage, bind, get. rewrite Hp.
  unfold modify, on_replacer, after. simpl.
  destruct (SetEvictable_in_range (replacer_ b) f false Hr) as (r1 & -> & Hsz & _).
  simpl.
  assert (Hr1 : out_of_range r1 f = false).
  { unfold out_of_range in *. by rewrite Hsz. }
  destruct (RecordAccess_in_range r1 f Hr1) as (r2 & nd & -> & _).
  done.
Qed.

Lemma FetchPage_miss_run b p f b1 :
  page_table_ b !! p = None ->
  RequestFrameId b = Normal f b1 ->
  f <> INVALID_FRAME_ID ->
  out_of_range (replacer_ b1) f = false ->
  FetchPage p b =
    Normal (Some f) (after (DiskSchedule false f p) (claim f p (flush_victim f b1))).
Proof.
  intros Hp Hreq Hf Hr. unfold FetchPage. unfold bind at 1, get at 1. rewrite Hp.
  unfold bind at 1. rewrite Hreq.
  destruct (f =? INVALID_FRAME_ID) eqn:E; [by apply Z.eqb_eq in E|].
  pose proof (claim_run b1 f p Hr) as Hc. unfold bind in Hc.
  unfold bind at 1.
  destruct (release_frame f b1) as [[] b2|]; [|done].
  unfold bind at 1.
  destruct (InitPageOnBufferPool f p b2) as [[] b3|]; [|done].
  injection Hc as ->.
  unfold bind, after, ret.
  unfold DiskSchedule.
  destruct (disk_ _ !! p); done.
Qed.

Lemma FetchPage_full b p :
  page_table_ b !! p = None ->
  RequestFrameId b = Normal INVALID_FRAME_ID b -> FetchPage p b = Normal None b.
Proof.
  intros Hp Hreq. unfold FetchPage, bind, get. rewrite Hp. by rewrite Hreq.
Qed.

Lemma FlushPage_run b p f :
  page_table_ b !! p = Some f ->
  FlushPage p b =
    Normal true
      (update_page f (set_is_dirty false)
         (after (DiskSchedule true f (page_id_ (page_at b f))) b)).
Proof. intros Hp. unfold FlushPage, bind, get. by rewrite Hp. Qed.

Lemma FlushPage_absent b p :
  page_table_ b !! p = None -> FlushPage p b = Normal false b.
Proof. intros Hp. unfold FlushPage, bind, get. by rewrite Hp. Qed.

Lemma flush_frame_run b f :
  flush_frame f b =
    Normal tt
      (update_page f (set_is_dirty false)
         (after (DiskSchedule true f (page_id_ (page_at b f))) b)).
Proof. reflexivity. Qed.

(** The frame as [DeletePage] leaves it. *)
Lemma DeletePage_run b p f :
  page_table_ b !! p = Some f ->
  pin_count_ (page_at b f) <= 0 ->
  out_of_range (replacer_ b) f = false ->
  (forall n, node_store_ (replacer_ b) !! f = Some n -> is_evictable_ n = true) ->
  DeletePage p b =
    Normal true
      (set_io_log (io_log_ b ++ [Deallocated p])
         (update_page f
            (fun pg => set_is_dirty false (set_pin_count 0
                         (set_page_id INVALID_PAGE_ID (ResetMemory pg))))
            (set_free_list (free_list_ b ++ [f])
               (set_replacer (after (Remove f) (replacer_ b))
                  (set_page_table (delete p (page_table_ b)) b))))).
Proof.
  intros Hp Hpin Hr Hev. unfold DeletePage, bind, get. rewrite Hp.
  destruct (0 <? pin_count_ (page_at b f)) eqn:E; [apply Z.ltb_lt in E; lia|].
  unfold modify at 1. unfold on_replacer, after. simpl.
  destruct (Remove_in_range (replacer_ b) f Hr Hev) as (r' & -> & _).
  unfold modify, DeallocatePage, modify, ret. rewrite !update_page_twice.
  reflexivity.
Qed.

Lemma DeletePage_absent b p :
  page_table_ b !! p = None -> DeletePage p b = Normal true b.
Proof. intros Hp. unfold DeletePage, bind, get. by rewrite Hp. Qed.

Lemma DeletePage_pinned b p f :
  page_table_ b !! p = Some f -> 0 < pin_count_ (page_at b f) ->
  DeletePage p b = Normal false b.
Proof.
  intros Hp Hpin. unfold DeletePage, bind, get. rewrite Hp.
  by rewrite (proj2 (Z.ltb_lt _ _) Hpin).
Qed.

(** *** The invariant is kept *)

Lemma inv_same_core b b' :
  pool_size_ b' = pool_size_ b -> pages_ b' = pages_ b ->
  free_list_ b' = free_list_ b -> page_table_ b' = page_table_ b ->
  replacer_ b' = replacer_ b ->
  inv b -> inv b'.
Proof.
  intros H1 H2 H3 H4 H5 [Hs Hf Hn Ht].
  split; unfold page_at in *; rewrite ?H1, ?H2, ?H3, ?H4, ?H5; done.
Qed.

Lemma page_at_update_cases b f g f' :
  page_at (update_page f g b) f' = page_at b f'
  \/ (page_at (update_page f g b) f' = g (page_at b f')).
Proof.
  unfold page_at, update_page. simpl.
  destruct (decide (Z.to_nat f = Z.to_nat f')) as [Heq|Hne].
  - rewrite <- Heq.
    destruct (decide (Z.to_nat f < length (pages_ b))%nat) as [Hlt|Hge].
    + right. by rewrite list_lookup_insert_eq.
    + left. rewrite list_insert_ge; [done|lia].
  - left. by rewrite list_lookup_insert_ne.
Qed.

(** A change of the buffer or of the dirty flag of a frame. *)
Lemma inv_update_page_meta b f g :
  (forall pg, page_id_ (g pg) = page_id_ pg /\ pin_count_ (g pg) = pin_count_ pg) ->
  inv b -> inv (update_page f g b).
Proof.
  intros Hg [Hs Hf Hn Ht].
  assert (Hsame : forall f', page_id_ (page_at (update_page f g b) f')
                             = page_id_ (page_at b f')
                             /\ pin_count_ (page_at (update_page f g b) f')
                                = pin_count_ (page_at b f')).
  { intros f'. destruct (page_at_update_cases b f g f') as [-> | ->]; [done|].
    apply Hg. }
  split.
  - simpl. rewrite length_insert. done.
  - done.
  - done.
  - intros p f' Hp. simpl in Hp. destruct (Ht p f' Hp) as (? & ? & ? & ?).
    destruct (Hsame f') as [-> ->]. done.
Qed.

Lemma inv_DiskSchedule w f p b : inv b -> inv (after (DiskSchedule w f p) b).
Proof.
  intros Hinv. unfold after, DiskSchedule.
  assert (Hlog : inv (set_io_log (io_log_ b ++ [Scheduled w p (data_ (page_at b f))]) b)).
  { by apply (inv_same_core b). }
  destruct w; simpl.
  - revert Hlog. by apply inv_same_core.
  - destruct (disk_ b !! p); simpl; [|done].
    by apply inv_update_page_meta.
Qed.

Lemma inv_flush_victim f b : inv b -> inv (flush_victim f b).
Proof.
  intros Hinv. unfold flush_victim.
  destruct (_ && _); [|done]. by apply inv_DiskSchedule.
Qed.

Lemma inv_flush_frame f b : inv b -> inv (state_of (flush_frame f b)).
Proof.
  intros Hinv. rewrite flush_frame_run. simpl.
  apply inv_update_page_meta; [done|]. by apply inv_DiskSchedule.
Qed.

Lemma flush_frames_normal order : forall b,
  inv b -> exists b', flush_frames order b = Normal tt b' /\ inv b'.
Proof.
  induction order as [|[p f] l IH]; intros b Hinv; simpl.
  - by exists b.
  - unfold bind. rewrite flush_frame_run.
    apply IH. apply (inv_flush_frame f b Hinv).
Qed.

(** The frame [RequestFrameId] hands out is a frame of the pool, and the
    invariant holds after the call. *)
Lemma inv_RequestFrameId b f b1 :
  inv b -> RequestFrameId b = Normal f b1 ->
  inv b1
  /\ (f = INVALID_FRAME_ID /\ b1 = b
      \/ 0 <= f < pool_size_ b1 /\ f <> INVALID_FRAME_ID).
Proof.
  intros Hinv Hreq.
  destruct (RequestFrameId_cases b Hinv)
    as [(f0 & rest & Hfl & Hrun)|[(v & nv & Hfl & Hnv & Hev & Hrun)|[Hfl Hrun]]];
    rewrite Hrun in Hreq; injection Hreq as <- <-.
  - destruct Hinv as [Hs Hf Hn Ht].
    assert (0 <= f0 < pool_size_ b) by (apply Hf; rewrite Hfl; by left).
    split.
    + split; simpl; try done.
      intros g Hg. apply Hf. rewrite Hfl. by right.
    + right. split; [done|]. unfold INVALID_FRAME_ID. lia.
  - destruct Hinv as [Hs Hf Hn Ht].
    destruct (Hn v nv Hnv) as [_ Hv].
    split.
    + split; simpl; try done.
      * intros g n [_ Hg]%lookup_delete_Some. by apply Hn.
      * intros p g Hp. destruct (Ht p g Hp) as (? & ? & ? & Hz).
        split; [done|]. split; [done|]. split; [done|].
        intros Hpin n [_ Hg]%lookup_delete_Some. by apply (Hz Hpin).
    + right. split; [done|]. unfold INVALID_FRAME_ID. lia.
  - split; [done|]. by left.
Qed.

Lemma inv_claim b f page_id :
  inv b -> 0 <= f < pool_size_ b -> inv (claim f page_id b).
Proof.
  intros Hinv Hf. pose proof (in_pool b f Hinv Hf) as [Hlt Hr].
  destruct Hinv as [Hs Hfl Hn Ht].
  destruct (SetEvictable_in_range (replacer_ b) f false Hr) as (r1 & Hr1 & Hsz1 & Hst1).
  assert (Hr1' : out_of_range r1 f = false).
  { unfold out_of_range in *. by rewrite Hsz1. }
  destruct (RecordAccess_in_range r1 f Hr1')
    as (r2 & nd & Hr2 & Hsz2 & Hst2 & Hfid & _).
  assert (Hrep : after (RecordAccess f) (after (SetEvictable f false) (replacer_ b)) = r2).
  { unfold after. rewrite Hr1. simpl. by rewrite Hr2. }
  assert (Hother : forall g, g <> f ->
            node_store_ r2 !! g = node_store_ (replacer_ b) !! g).
  { intros g Hg. rewrite Hst2, lookup_insert_ne by done. rewrite Hst1.
    by rewrite decide_False. }
  unfold claim. rewrite Hrep.
  split; simpl.
  - rewrite length_insert. rewrite Hsz2, Hsz1. done.
  - done.
  - intros g n. destruct (decide (g = f)) as [->|Hg].
    + rewrite Hst2, lookup_insert_eq. intros [= <-]. done.
    + rewrite Hother by done. apply Hn.
  - intros p g. rewrite lookup_insert. case_decide as Hp.
    + intros [= <-]. subst p.
      change (page_at _ f) with
        (page_at (update_page f (fresh_page page_id) b) f).
      rewrite page_at_update_eq by done. simpl.
      repeat split; try lia.
    + intros [Hne Hpg]%lookup_delete_Some.
      destruct (Ht p g Hpg) as (Hg & Hid & Hpin & Hz).
      assert (Hgf : g <> f).
      { intros ->. by apply Hne. }
      change (page_at _ g) with
        (page_at (update_page f (fresh_page page_id) b) g).
      rewrite page_at_update_ne by lia.
      split; [done|]. split; [done|]. split; [done|].
      rewrite Hother by done. done.
Qed.

Lemma inv_set_next_page_id v b : inv b -> inv (set_next_page_id v b).
Proof. by apply inv_same_core. Qed.

Lemma inv_set_io_log v b : inv b -> inv (set_io_log v b).
Proof. by apply inv_same_core. Qed.

Lemma NewPage_inv b :
  inv b -> exists res b', NewPage b = Normal res b' /\ inv b'.
Proof.
  intros Hinv.
  destruct (RequestFrameId b) as [f b1|e b1] eqn:Hreq.
  2:{ destruct (RequestFrameId_cases b Hinv)
        as [(? & ? & _ & Hrun)|[(? & ? & _ & _ & _ & Hrun)|[_ Hrun]]]; congruence. }
  destruct (inv_RequestFrameId b f b1 Hinv Hreq) as [Hinv1 [[-> ->]|[Hf Hvalid]]].
  - exists None, b. split; [|done]. by apply NewPage_full.
  - pose proof (in_pool b1 f Hinv1 Hf) as [_ Hr].
    eexists _, _. split; [by apply (NewPage_run b f b1)|].
    apply inv_set_next_page_id. apply inv_claim.
    + by apply inv_flush_victim.
    + by rewrite (proj1 (flush_victim_same b1 f)).
Qed.

Lemma FetchPage_inv b p :
  inv b -> exists res b', FetchPage p b = Normal res b' /\ inv b'.
Proof.
  intros Hinv. destruct (page_table_ b !! p) as [f|] eqn:Hp.
  - destruct (inv_table b Hinv p f Hp) as (Hf & Hid & Hpin & Hz).
    pose proof (in_pool b f Hinv Hf) as [Hlt Hr].
    eexists _, _. split; [by apply FetchPage_hit_run|].
    destruct (SetEvictable_in_range (replacer_ b) f false Hr)
      as (r1 & Hr1 & Hsz1 & Hst1).
    assert (Hr1' : out_of_range r1 f = false).
    { unfold out_of_range in *. by rewrite Hsz1. }
    destruct (RecordAccess_in_range r1 f Hr1')
      as (r2 & nd & Hr2 & Hsz2 & Hst2 & Hfid & _).
    assert (Hrep : after (RecordAccess f) (after (SetEvictable f false) (replacer_ b)) = r2).
    { unfold after. rewrite Hr1. simpl. by rewrite Hr2. }
    rewrite Hrep. destruct Hinv as [Hs Hfl Hn Ht].
    split; simpl.
    + rewrite length_insert, Hsz2, Hsz1. done.
    + done.
    + intros g n. rewrite Hst2, lookup_insert. case_decide as Hg.
      * intros [= <-]. subst g. done.
      * rewrite Hst1, decide_False by done. apply Hn.
    + intros q g Hq. destruct (Ht q g Hq) as (Hg & Hqid & Hqpin & Hqz).
      destruct (decide (g = f)) as [->|Hgf].
      * change (page_at _ f) with
          (page_at (update_page f (fun pg => set_pin_count (pin_count_ pg + 1) pg) b) f).
        rewrite page_at_update_eq by done. simpl.
        split; [done|]. split; [done|]. split; [lia|]. intros; lia.
      * change (page_at _ g) with
          (page_at (update_page f (fun pg => set_pin_count (pin_count_ pg + 1) pg) b) g).
        rewrite page_at_update_ne by lia.
        split; [done|]. split; [done|]. split; [done|].
        rewrite Hst2, lookup_insert_ne by done.
        rewrite Hst1, decide_False by done. done.
  - destruct (RequestFrameId b) as [f b1|e b1] eqn:Hreq.
    2:{ destruct (RequestFrameId_cases b Hinv)
          as [(? & ? & _ & Hrun)|[(? & ? & _ & _ & _ & Hrun)|[_ Hrun]]]; congruence. }
    destruct (inv_RequestFrameId b f b1 Hinv Hreq) as [Hinv1 [[-> ->]|[Hf Hvalid]]].
    + exists None, b. split; [|done]. by apply FetchPage_full.
    + pose proof (in_pool b1 f Hinv1 Hf) as [_ Hr].
      eexists _, _. split; [by apply (FetchPage_miss_run b p f b1)|].
      apply inv_DiskSchedule. apply inv_claim.
      * by apply inv_flush_victim.
      * by rewrite (proj1 (flush_victim_same b1 f)).
Qed.

Lemma UnpinPage_inv b p d :
  inv b -> exists res b', UnpinPage p d b = Normal res b' /\ inv b'.
Proof.
  intros Hinv. destruct (page_table_ b !! p) as [f|] eqn:Hp.
  2:{ exists false, b. split; [by apply UnpinPage_absent|done]. }
  destruct (decide (pin_count_ (page_at b f) <= 0)) as [Hle|Hgt].
  { exists false, b. split; [by apply (UnpinPage_unpinned b p f)|done]. }
  destruct (inv_table b Hinv p f Hp) as (Hf & Hid & Hpin & Hz).
  pose proof (in_pool b f Hinv Hf) as [Hlt Hr].
  eexists _, _. split; [apply (UnpinPage_run b p f d); try done; lia|].
  destruct (SetEvictable_in_range (replacer_ b) f true Hr)
    as (r1 & Hr1 & Hsz1 & Hst1).
  set (R := if pin_count_ (page_at b f) - 1 =? 0
            then after (SetEvictable f true) (replacer_ b) else replacer_ b).
  set (g := fun pg => set_is_dirty d (set_pin_count (pin_count_ pg - 1) pg)).
  assert (HR : replacer_size_ R = replacer_size_ (replacer_ b)
               /\ (forall h n, node_store_ R !! h = Some n ->
                     exists n0, node_store_ (replacer_ b) !! h = Some n0
                       /\ fid_ n = fid_ n0
                       /\ (is_evictable_ n = is_evictable_ n0
                           \/ h = f /\ is_evictable_ n = true))
               /\ (pin_count_ (page_at b f) - 1 = 0 ->
                   forall n, node_store_ R !! f = Some n -> is_evictable_ n = true)).
  { subst R. destruct (pin_count_ (page_at b f) - 1 =? 0) eqn:E.
    - unfold after. rewrite Hr1. simpl. split; [done|]. split.
      + intros h n. rewrite Hst1. case_decide as Hh.
        * subst h. destruct (node_store_ (replacer_ b) !! f) as [n0|]; [|done].
          simpl. intros [= <-]. exists n0. simpl. split; [done|]. split; [done|].
          by right.
        * intros Hn. exists n. split; [done|]. split; [done|]. by left.
      + intros _ n. rewrite Hst1, decide_True by done.
        destruct (node_store_ (replacer_ b) !! f) as [n0|]; [|done].
        simpl. by intros [= <-].
    - split; [done|]. split.
      + intros h n Hn. exists n. split; [done|]. split; [done|]. by left.
      + apply Z.eqb_neq in E. intros; lia. }
  destruct HR as (HRsz & HRst & HRz).
  destruct Hinv as [Hs Hfl Hn Ht].
  split; simpl.
  - rewrite length_insert, HRsz. done.
  - done.
  - intros h n Hh. destruct (HRst h n Hh) as (n0 & Hn0 & Hfid & _).
    rewrite Hfid. by apply Hn.
  - intros q h Hq. destruct (Ht q h Hq) as (Hh & Hqid & Hqpin & Hqz).
    destruct (decide (h = f)) as [->|Hhf].
    + change (page_at _ f) with (page_at (update_page f g (set_replacer R b)) f).
      rewrite page_at_update_eq by done.
      change (page_at (set_replacer R b) f) with (page_at b f). subst g. simpl.
      split; [done|]. split; [done|]. split; [lia|]. done.
    + change (page_at _ h) with (page_at (update_page f g (set_replacer R b)) h).
      rewrite page_at_update_ne by lia.
      change (page_at (set_replacer R b) h) with (page_at b h).
      split; [done|]. split; [done|]. split; [done|].
      intros Hz0 n Hn'. destruct (HRst h n Hn') as (n0 & Hn0 & _ & [->|[? _]]); [|done].
      by apply (Hqz Hz0).
Qed.

Lemma FlushPage_inv b p :
  inv b -> exists res b', FlushPage p b = Normal res b' /\ inv b'.
Proof.
  intros Hinv. destruct (page_table_ b !! p) as [f|] eqn:Hp.
  - eexists _, _. split; [by apply FlushPage_run|].
    apply inv_update_page_meta; [done|]. by apply inv_DiskSchedule.
  - exists false, b. split; [by apply FlushPage_absent|done].
Qed.

Lemma FlushAllPages_in_inv order b :
  inv b -> exists b', FlushAllPages_in order b = Normal tt b' /\ inv b'.
Proof. intros Hinv. unfold FlushAllPages_in. by apply flush_frames_normal. Qed.

Lemma FlushAllPages_inv b :
  inv b -> exists b', FlushAllPages b = Normal tt b' /\ inv b'.
Proof. intros Hinv. unfold FlushAllPages. by apply FlushAllPages_in_inv. Qed.

Lemma DeletePage_inv b p :
  inv b -> exists res b', DeletePage p b = Normal res b' /\ inv b'.
Proof.
  intros Hinv. destruct (page_table_ b !! p) as [f|] eqn:Hp.
  2:{ exists true, b. split; [by apply DeletePage_absent|done]. }
  destruct (decide (0 < pin_count_ (page_at b f))) as [Hgt|Hle].
  { exists false, b. split; [by apply (DeletePage_pinned b p f)|done]. }
  destruct (inv_table b Hinv p f Hp) as (Hf & Hid & Hpin & Hz).
  pose proof (in_pool b f Hinv Hf) as [Hlt Hr].
  assert (Hev : forall n, node_store_ (replacer_ b) !! f = Some n -> is_evictable_ n = true).
  { apply Hz. lia. }
  eexists _, _. split; [apply (DeletePage_run b p f); try done; lia|].
  destruct (Remove_in_range (replacer_ b) f Hr Hev) as (r' & Hr' & Hsz & Hst).
  unfold after. rewrite Hr'. simpl.
  apply inv_set_io_log.
  set (g := fun pg => set_is_dirty false (set_pin_count 0
                        (set_page_id INVALID_PAGE_ID (ResetMemory pg)))).
  destruct Hinv as [Hs Hfl Hn Ht].
  split; simpl.
  - rewrite length_insert, Hsz. done.
  - intros h [Hh| ->%list_elem_of_singleton]%elem_of_app; [by apply Hfl|done].
  - intros h n. rewrite Hst. intros [_ Hh]%lookup_delete_Some. by apply Hn.
  - intros q h [Hqp Hq]%lookup_delete_Some.
    destruct (Ht q h Hq) as (Hh & Hqid & Hqpin & Hqz).
    assert (Hhf : h <> f).
    { intros ->. apply Hqp. congruence. }
    match goal with |- context [page_at ?X h] =>
      change (page_at X h) with
        (page_at (update_page f g
                    (set_free_list (free_list_ b ++ [f])
                       (set_replacer r' (set_page_table (delete p (page_table_ b)) b)))) h)
    end.
    rewrite page_at_update_ne by lia.
    change (page_at _ h) with (page_at b h).
    split; [done|]. split; [done|]. split; [done|].
    intros Hz0 n. rewrite Hst. intros [_ Hn']%lookup_delete_Some. by apply (Hqz Hz0).
Qed.

Lemma write_data_inv b f d : inv b -> inv (write_data f d b).
Proof.
  intros Hinv. unfold write_data. case_bool_decide; [|done].
  by apply inv_update_page_meta.
Qed.

Lemma wrap_int32_small z : - 2 ^ 31 <= z < 2 ^ 31 -> wrap_int32 z = z.
Proof. intros Hz. unfold wrap_int32. rewrite Z.mod_small; lia. Qed.

Lemma init_inv pool_size page_size k disk :
  Z.of_nat pool_size < 2 ^ 31 -> inv (init pool_size page_size k disk).
Proof.
  intros Hmax. split; simpl.
  - rewrite repeat_length. unfold SIZE_MAX. lia.
  - intros f (n & -> & Hn%elem_of_seq)%list_elem_of_fmap.
    rewrite wrap_int32_small; lia.
  - intros f n. by rewrite lookup_empty.
  - intros p f. by rewrite lookup_empty.
Qed.

(** Every reachable state of the pool satisfies the invariant. *)
Theorem reachable_inv b : reachable b -> inv b.
Proof.
  induction 1 as [ | b _ IH | b p _ IH | b p d _ IH | b p _ IH | b order _ IH _
                   | b p _ IH | b f d _ IH ].
  - by apply init_inv.
  - destruct (NewPage_inv b IH) as (? & ? & -> & ?). done.
  - destruct (FetchPage_inv b p IH) as (? & ? & -> & ?). done.
  - destruct (UnpinPage_inv b p d IH) as (? & ? & -> & ?). done.
  - destruct (FlushPage_inv b p IH) as (? & ? & -> & ?). done.
  - destruct (FlushAllPages_in_inv order b IH) as (? & -> & ?). done.
  - destruct (DeletePage_inv b p IH) as (? & ? & -> & ?). done.
  - by apply write_data_inv.
Qed.

(** *** Scenarios *)

Ltac reach :=
  unfold after;
  repeat first [ apply reach_NewPage | apply reach_FetchPage | apply reach_UnpinPage
               | apply reach_FlushPage | apply reach_DeletePage | apply reach_write
               | apply reach_init; vm_compute; reflexivity ].

Lemma pool_dirty_nul_reachable : reachable pool_dirty_nul.
Proof. unfold pool_dirty_nul. reach. Qed.

Lemma pool_dirty_hi_reachable : reachable pool_dirty_hi.
Proof. unfold pool_dirty_hi. reach. Qed.

Lemma pool_pinned_dirty_reachable : reachable pool_pinned_dirty.
Proof. unfold pool_pinned_dirty. reach. Qed.

Lemma pool_exhausted_reachable : reachable pool_exhausted.
Proof. unfold pool_exhausted. reach. Qed.

Lemma pool_two_pages_reachable : reachable pool_two_pages.
Proof. unfold pool_two_pages. reach. Qed.

(** The round trip law of section 8: the page fetched after the flush
    and the deletion holds the bytes written before the flush. *)
Example round_trip_reads_back :
  data_ (page_at pool_round_trip 0) = [Byte.x48; Byte.x69; Byte.x00; Byte.x00]
  /\ page_id_ (page_at pool_round_trip 0) = 0
  /\ pin_count_ (page_at pool_round_trip 0) = 1.
Proof. vm_compute. done. Qed.

(** Scenario 2 of section 8: with every frame pinned, [NewPage] and
    [FetchPage] of a page that is not resident return the null pointer. *)
Example exhausted_pool_returns_null :
  value_of (NewPage pool_exhausted) = Some None
  /\ value_of (FetchPage 9 pool_exhausted) = Some None.
Proof. vm_compute. done. Qed.

(** *** NewPage on an exhausted pool *)

(** C10. When the free list is empty and no node of the replacer is
    evictable, [NewPage] returns the null pointer and the pool is exactly
    as before the call: no page id is consumed, and the page table, the
    free list, the replacer and the frames are unchanged. *)
Theorem NewPage_exhausted b :
  free_list_ b = [] ->
  (forall f n, node_store_ (replacer_ b) !! f = Some n -> is_evictable_ n = false) ->
  NewPage b = Normal None b
  /\ next_page_id_ (state_of (NewPage b)) = next_page_id_ b.
Proof.
  intros Hfl Hne.
  assert (Hrun : NewPage b = Normal None b).
  { apply NewPage_full. unfold RequestFrameId. rewrite Hfl.
    destruct (0 <? Size (replacer_ b)); [|done].
    rewrite (Evict_none _ Hne). simpl. by rewrite set_replacer_id. }
  by rewrite Hrun.
Qed.

Lemma NewPage_exhausted_witness :
  NewPage pool_exhausted = Normal None pool_exhausted
  /\ next_page_id_ (state_of (NewPage pool_exhausted)) = next_page_id_ pool_exhausted.
Proof.
  apply (NewPage_exhausted pool_exhausted).
  - vm_compute. reflexivity.
  - intros f n Hn.
    assert (Hall : map_Forall (fun _ n => is_evictable_ n = false)
                     (node_store_ (replacer_ pool_exhausted))).
    { apply map_Forall_to_list. vm_compute. repeat constructor. }
    by apply (Hall f n).
Defined.

(** *** UnpinPage and the dirty bit *)

(** C2 (what the code does). [UnpinPage] on a resident, pinned page
    assigns the hint to the dirty bit of the frame; whatever the bit was
    before, it is the hint afterwards, so a clean unpin clears a dirty
    bit. *)
Theorem UnpinPage_assigns_dirty b p f hint :
  inv b -> page_table_ b !! p = Some f -> 0 < pin_count_ (page_at b f) ->
  exists b', UnpinPage p hint b = Normal true b'
             /\ is_dirty_ (page_at b' f) = hint.
Proof.
  intros Hinv Hp Hpin.
  destruct (inv_table b Hinv p f Hp) as (Hf & _).
  pose proof (in_pool b f Hinv Hf) as [Hlt Hr].
  eexists. split; [by apply (UnpinPage_run b p f hint)|].
  by rewrite page_at_update_eq.
Qed.

Lemma UnpinPage_assigns_dirty_witness :
  is_dirty_ (page_at pool_pinned_dirty 0) = true
  /\ exists b', UnpinPage 0 false pool_pinned_dirty = Normal true b'
                /\ is_dirty_ (page_at b' 0) = false.
Proof.
  split; [vm_compute; reflexivity|].
  apply (UnpinPage_assigns_dirty pool_pinned_dirty 0 0 false).
  - apply reachable_inv, pool_pinned_dirty_reachable.
  - vm_compute. reflexivity.
  - vm_compute. reflexivity.
Defined.

(** The page written with "Hi" and unpinned dirty, then unpinned clean, is
    evicted by the next [NewPage] without any write: the bytes are lost. *)
Example clean_unpin_loses_write :
  let b := after (UnpinPage 0 false) pool_pinned_dirty in
  data_ (page_at b 0) = [Byte.x48; Byte.x69; Byte.x00; Byte.x00]
  /\ is_dirty_ (page_at b 0) = false
  /\ value_of (NewPage b) = Some (Some (1, 0))
  /\ io_log_ (after NewPage b) = [].
Proof. vm_compute. done. Qed.

(** *** The write of the miss path *)

Lemma strlen_nonneg d : 0 <= strlen d.
Proof. induction d as [|c d IH]; simpl; [done|]. destruct (Byte.eqb c _); lia. Qed.

(** [strlen(data) > 0] looks at the first byte only. *)
Lemma strlen_positive d : (0 <? strlen d) = first_byte_nonzero d.
Proof.
  destruct d as [|c d]; simpl; [done|].
  destruct (Byte.eqb c Byte.x00); simpl; [done|].
  pose proof (strlen_nonneg d). apply Z.ltb_lt. lia.
Qed.

Lemma RequestFrameId_same b f b1 :
  inv b -> RequestFrameId b = Normal f b1 ->
  pages_ b1 = pages_ b /\ page_table_ b1 = page_table_ b
  /\ next_page_id_ b1 = next_page_id_ b /\ io_log_ b1 = io_log_ b
  /\ pool_size_ b1 = pool_size_ b.
Proof.
  intros Hinv Hreq.
  destruct (RequestFrameId_cases b Hinv)
    as [(f0 & rest & Hfl & Hrun)|[(v & nv & Hfl & Hnv & Hev & Hrun)|[Hfl Hrun]]];
    rewrite Hrun in Hreq; injection Hreq as <- <-; done.
Qed.

Lemma io_log_flush_victim f b :
  io_log_ (flush_victim f b) =
    io_log_ b ++ (if is_dirty_ (page_at b f) && first_byte_nonzero (data_ (page_at b f))
                  then [Scheduled true (page_id_ (page_at b f)) (data_ (page_at b f))]
                  else []).
Proof.
  unfold flush_victim. rewrite strlen_positive.
  destruct (_ && _); simpl; [done|]. by rewrite app_nil_r.
Qed.

(** The miss path, as the code runs it. When [NewPage] or a [FetchPage]
    miss reuses the frame [f] that [RequestFrameId] hands out, the write
    of the victim page, with the bytes the buffer holds before it is
    cleared, is given to the disk scheduler exactly when the frame is
    dirty and [strlen] of its buffer is positive; then the buffer is
    cleared and the frame belongs to the new page, pinned once and
    clean. *)
Lemma miss_path_write_guarded b f b1 p :
  inv b -> RequestFrameId b = Normal f b1 -> f <> INVALID_FRAME_ID ->
  let victim := page_at b f in
  let write :=
    if is_dirty_ victim && first_byte_nonzero (data_ victim)
    then [Scheduled true (page_id_ victim) (data_ victim)] else [] in
  (exists b', NewPage b = Normal (Some (next_page_id_ b, f)) b'
     /\ io_log_ b' = io_log_ b ++ write
     /\ page_at b' f = fresh_page (next_page_id_ b) victim
     /\ page_table_ b' !! next_page_id_ b = Some f)
  /\ (page_table_ b !! p = None ->
      exists b', FetchPage p b = Normal (Some f) b'
        /\ io_log_ b' = io_log_ b ++ write ++ [Scheduled false p (zeroed (data_ victim))]
        /\ page_id_ (page_at b' f) = p
        /\ pin_count_ (page_at b' f) = 1
        /\ is_dirty_ (page_at b' f) = false
        /\ page_table_ b' !! p = Some f).
Proof.
  intros Hinv Hreq Hvalid victim write.
  destruct (inv_RequestFrameId b f b1 Hinv Hreq) as [Hinv1 [[? _]|[Hf _]]]; [done|].
  pose proof (in_pool b1 f Hinv1 Hf) as [Hlt Hr].
  destruct (RequestFrameId_same b f b1 Hinv Hreq) as (Hpages & Htable & Hnext & Hlog & _).
  assert (Hvictim : page_at b1 f = victim).
  { unfold victim, page_at. by rewrite Hpages. }
  pose proof (flush_victim_same b1 f) as (_ & Hfp & _).
  assert (Hclaim : forall q,
            page_at (claim f q (flush_victim f b1)) f = fresh_page q victim).
  { intros q. unfold claim.
    change (page_at _ f) with
      (page_at (update_page f (fresh_page q) (flush_victim f b1)) f).
    rewrite page_at_update_eq by (by rewrite Hfp).
    by rewrite page_at_flush_victim, Hvictim. }
  assert (Hio : forall q, io_log_ (claim f q (flush_victim f b1)) = io_log_ b ++ write).
  { intros q. unfold claim. simpl. rewrite io_log_flush_victim, Hvictim, Hlog. done. }
  split.
  - eexists. split.
    { rewrite <- Hnext. by apply (NewPage_run b f b1). }
    rewrite <- Hnext. split; [apply (Hio (next_page_id_ b1))|]. split.
    + apply (Hclaim (next_page_id_ b1)).
    + apply lookup_insert_eq.
  - intros Hp. eexists. split; [by apply (FetchPage_miss_run b p f b1)|].
    set (C := claim f p (flush_victim f b1)).
    assert (HC : page_at C f = fresh_page p victim) by apply Hclaim.
    assert (HCio : io_log_ C = io_log_ b ++ write) by apply Hio.
    assert (HClen : (Z.to_nat f < length (pages_ C))%nat).
    { unfold C, claim. simpl. rewrite length_insert. by rewrite Hfp. }
    assert (HCt : page_table_ C !! p = Some f) by apply lookup_insert_eq.
    clearbody C.
    unfold after, DiskSchedule. rewrite HC.
    change (disk_ (set_io_log _ C)) with (disk_ C).
    destruct (disk_ C !! p) as [img|] eqn:Hd; unfold state_of.
    + split; [simpl; by rewrite HCio, <- app_assoc|].
      rewrite page_at_update_eq by done.
      change (page_at (set_io_log _ C) f) with (page_at C f). rewrite HC.
      done.
    + split; [simpl; by rewrite HCio, <- app_assoc|].
      change (page_at (set_io_log _ C) f) with (page_at C f). rewrite HC.
      done.
Qed.

(** C3 (what the code does). A dirty victim whose buffer starts with a
    NUL byte is lost: [NewPage] and a [FetchPage] miss reuse its frame,
    clear the buffer and give the frame to the new page, and no write of
    the victim goes to the disk scheduler ([NewPage] sends nothing, the
    miss of [FetchPage] only the read of the page fetched). The guard
    [strlen(page->GetData()) > 0] of the two miss paths takes the page
    for a C string; [FlushPage] and [FlushAllPages] write the buffer
    whatever its bytes are. *)
Theorem dirty_nul_victim_not_written b f b1 p :
  inv b -> RequestFrameId b = Normal f b1 -> f <> INVALID_FRAME_ID ->
  is_dirty_ (page_at b f) = true ->
  first_byte_nonzero (data_ (page_at b f)) = false ->
  (exists b', NewPage b = Normal (Some (next_page_id_ b, f)) b'
     /\ io_log_ b' = io_log_ b
     /\ page_at b' f = fresh_page (next_page_id_ b) (page_at b f))
  /\ (page_table_ b !! p = None ->
      exists b', FetchPage p b = Normal (Some f) b'
        /\ io_log_ b' = io_log_ b ++ [Scheduled false p (zeroed (data_ (page_at b f)))]
        /\ page_id_ (page_at b' f) = p
        /\ is_dirty_ (page_at b' f) = false).
Proof.
  intros Hinv Hreq Hvalid Hdirty Hnul.
  destruct (miss_path_write_guarded b f b1 p Hinv Hreq Hvalid) as [Hnew Hfetch].
  rewrite Hdirty, Hnul in Hnew, Hfetch. simpl in Hnew, Hfetch. split.
  - destruct Hnew as (b' & Hrun & Hio & Hpg & _). exists b'.
    split; [done|]. split; [by rewrite app_nil_r in Hio | done].
  - intros Hp. destruct (Hfetch Hp) as (b' & Hrun & Hio & Hid & _ & Hcl & _).
    by exists b'.
Qed.

Lemma dirty_nul_victim_not_written_witness :
  let b := pool_dirty_nul in
  (exists b', NewPage b = Normal (Some (next_page_id_ b, 0)) b'
     /\ io_log_ b' = io_log_ b
     /\ page_at b' 0 = fresh_page (next_page_id_ b) (page_at b 0))
  /\ (page_table_ b !! 7 = None ->
      exists b', FetchPage 7 b = Normal (Some 0) b'
        /\ io_log_ b' = io_log_ b ++ [Scheduled false 7 (zeroed (data_ (page_at b 0)))]
        /\ page_id_ (page_at b' 0) = 7
        /\ is_dirty_ (page_at b' 0) = false).
Proof.
  apply (dirty_nul_victim_not_written pool_dirty_nul 0
           (after RequestFrameId pool_dirty_nul) 7).
  - apply reachable_inv, pool_dirty_nul_reachable.
  - vm_compute. reflexivity.
  - unfold INVALID_FRAME_ID. lia.
  - vm_compute. reflexivity.
  - vm_compute. reflexivity.
Defined.

(** The dirty page "Hi" is written out by the next [NewPage], with its
    bytes, before the frame is cleared. *)
Example NewPage_writes_dirty_victim :
  io_log_ (after NewPage pool_dirty_hi)
  = [Scheduled true 0 [Byte.x48; Byte.x69; Byte.x00; Byte.x00]]
  /\ data_ (page_at (after NewPage pool_dirty_hi) 0)
     = [Byte.x00; Byte.x00; Byte.x00; Byte.x00].
Proof. vm_compute. done. Qed.

(** Page 0 is dirty and its buffer holds the bytes 00 48 69 00;
    [NewPage] reuses its frame for page 1, and a [FetchPage] miss reuses
    it for page 7, and neither gives a write of page 0 to the disk
    scheduler. *)
Example dirty_victim_reused_without_write :
  is_dirty_ (page_at pool_dirty_nul 0) = true
  /\ page_id_ (page_at pool_dirty_nul 0) = 0
  /\ data_ (page_at pool_dirty_nul 0) = [Byte.x00; Byte.x48; Byte.x69; Byte.x00]
  /\ value_of (NewPage pool_dirty_nul) = Some (Some (1, 0))
  /\ page_id_ (page_at (after NewPage pool_dirty_nul) 0) = 1
  /\ io_log_ (after NewPage pool_dirty_nul) = []
  /\ value_of (FetchPage 7 pool_dirty_nul) = Some (Some 0)
  /\ page_id_ (page_at (after (FetchPage 7) pool_dirty_nul) 0) = 7
  /\ (forall d, Scheduled true 0 d ∉ io_log_ (after (FetchPage 7) pool_dirty_nul)).
Proof.
  repeat (split; [vm_compute; reflexivity|]).
  intros d Hin.
  assert (Hlog : io_log_ (after (FetchPage 7) pool_dirty_nul)
                 = [Scheduled false 7 [Byte.x00; Byte.x00; Byte.x00; Byte.x00]])
    by (vm_compute; reflexivity).
  rewrite Hlog in Hin. apply list_elem_of_singleton in Hin. by inv Hin.
Qed.

(** *** DeletePage *)

(** C5. In every state that satisfies the invariant (so in every
    reachable state): [DeletePage(p)] returns true and changes nothing
    when [p] is not resident; returns false and changes nothing when [p]
    is resident and pinned; otherwise it returns true, [p] is no longer in
    the page table, the node of its frame is no longer in the replacer, the
    frame is at the back of the free list, its buffer is cleared and its
    metadata is reset, and the disk layer is told to deallocate [p]. *)
Theorem DeletePage_spec b p :
  inv b ->
  match page_table_ b !! p with
  | None => DeletePage p b = Normal true b
  | Some f =>
      if 0 <? pin_count_ (page_at b f) then DeletePage p b = Normal false b
      else exists b', DeletePage p b = Normal true b'
             /\ page_table_ b' = delete p (page_table_ b)
             /\ node_store_ (replacer_ b') = delete f (node_store_ (replacer_ b))
             /\ free_list_ b' = free_list_ b ++ [f]
             /\ page_at b' f = {| data_ := zeroed (data_ (page_at b f));
                                  page_id_ := INVALID_PAGE_ID;
                                  pin_count_ := 0;
                                  is_dirty_ := false |}
             /\ (forall g, 0 <= g -> g <> f -> page_at b' g = page_at b g)
             /\ io_log_ b' = io_log_ b ++ [Deallocated p]
  end.
Proof.
  intros Hinv. destruct (page_table_ b !! p) as [f|] eqn:Hp.
  2:{ by apply DeletePage_absent. }
  destruct (0 <? pin_count_ (page_at b f)) eqn:E.
  { apply Z.ltb_lt in E. by apply (DeletePage_pinned b p f). }
  apply Z.ltb_ge in E.
  destruct (inv_table b Hinv p f Hp) as (Hf & Hid & Hpin & Hz).
  pose proof (in_pool b f Hinv Hf) as [Hlt Hr].
  assert (Hev : forall n, node_store_ (replacer_ b) !! f = Some n -> is_evictable_ n = true).
  { apply Hz. lia. }
  eexists. split; [by apply (DeletePage_run b p f)|].
  destruct (Remove_in_range (replacer_ b) f Hr Hev) as (r' & Hr' & Hsz & Hst).
  unfold after. rewrite Hr'. unfold state_of.
  set (g := fun pg => set_is_dirty false (set_pin_count 0
                        (set_page_id INVALID_PAGE_ID (ResetMemory pg)))).
  set (b0 := set_free_list (free_list_ b ++ [f])
               (set_replacer r' (set_page_table (delete p (page_table_ b)) b))).
  split; [done|]. split; [done|]. split; [done|]. split; [|split; [|done]].
  - match goal with |- page_at ?X f = _ =>
      change (page_at X f) with (page_at (update_page f g b0) f)
    end.
    by rewrite page_at_update_eq.
  - intros h Hh Hne.
    match goal with |- page_at ?X h = _ =>
      change (page_at X h) with (page_at (update_page f g b0) h)
    end.
    rewrite page_at_update_ne by lia. done.
Qed.

Lemma DeletePage_spec_witness :
  match page_table_ pool_two_pages !! 0 with
  | None => DeletePage 0 pool_two_pages = Normal true pool_two_pages
  | Some f =>
      if 0 <? pin_count_ (page_at pool_two_pages f)
      then DeletePage 0 pool_two_pages = Normal false pool_two_pages
      else exists b', DeletePage 0 pool_two_pages = Normal true b'
             /\ page_table_ b' = delete 0 (page_table_ pool_two_pages)
             /\ node_store_ (replacer_ b')
                = delete f (node_store_ (replacer_ pool_two_pages))
             /\ free_list_ b' = free_list_ pool_two_pages ++ [f]
             /\ page_at b' f = {| data_ := zeroed (data_ (page_at pool_two_pages f));
                                  page_id_ := INVALID_PAGE_ID;
                                  pin_count_ := 0;
                                  is_dirty_ := false |}
             /\ (forall g, 0 <= g -> g <> f -> page_at b' g = page_at pool_two_pages g)
             /\ io_log_ b' = io_log_ pool_two_pages ++ [Deallocated 0]
  end.
Proof.
  apply (DeletePage_spec pool_two_pages 0).
  apply reachable_inv, pool_two_pages_reachable.
Defined.

(** The three cases on the pool whose page 0 is unpinned and whose page 1
    is pinned; scenario 5 of section 8 is the second and the third. *)
Example DeletePage_cases :
  DeletePage 9 pool_two_pages = Normal true pool_two_pages
  /\ DeletePage 1 pool_two_pages = Normal false pool_two_pages
  /\ value_of (DeletePage 0 pool_two_pages) = Some true
  /\ page_table_ (after (DeletePage 0) pool_two_pages) !! 0 = None
  /\ node_store_ (replacer_ (after (DeletePage 0) pool_two_pages)) !! 0 = None
  /\ free_list_ (after (DeletePage 0) pool_two_pages) = [0]
  /\ io_log_ (after (DeletePage 0) pool_two_pages) = [Deallocated 0].
Proof. vm_compute. done. Qed.

End BpmProps.

(** ** The disk scheduler *)

Module SchedulerProps.
Import Scheduler.

Section Worker.
Context {D : Type} `{DiskManager D}.

Lemma signals_serve r (w : Worker D) :
  signals (serve r w) = signals w ++ [(callback_ r, true)].
Proof.
  unfold serve. destruct (is_write_ r).
  - by destruct (WritePage _ _ _).
  - by destruct (ReadPage _ _ _) as [[? ?] ?].
Qed.

Lemma times_set_app p s1 s2 :
  times_set p (s1 ++ s2) = (times_set p s1 + times_set p s2)%nat.
Proof. unfold times_set. by rewrite filter_app, length_app. Qed.

Lemma times_set_served p (l : list DiskRequest) :
  NoDup (map callback_ l) ->
  times_set p (map (fun r => (callback_ r, true)) l)
  = if bool_decide (p ∈ map callback_ l) then 1%nat else 0%nat.
Proof.
  induction l as [|r l IH]; simpl; intros Hnd.
  - done.
  - apply NoDup_cons in Hnd as [Hnew Hnd]. specialize (IH Hnd).
    unfold times_set in *. rewrite filter_cons. simpl.
    destruct (decide (callback_ r = p)) as [Heq|Hne].
    + simpl. rewrite IH. subst p.
      rewrite bool_decide_eq_false_2 by done.
      rewrite bool_decide_eq_true_2; [done|]. by left.
    + rewrite IH. apply f_equal with (f := fun b : bool => if b then 1%nat else 0%nat).
      apply bool_decide_ext. rewrite elem_of_cons.
      split; [by right|]. intros [Heq|Hin]; [congruence|done].
Qed.

Lemma times_set_zero p v (sig : list (nat * bool)) :
  times_set p sig = 0%nat -> (p, v) ∉ sig.
Proof.
  unfold times_set. intros Hz Hin.
  assert (Hf : (p, v) ∈ filter (fun s : nat * bool => s.1 = p) sig).
  { by apply list_elem_of_filter. }
  apply nil_length_inv in Hz. rewrite Hz in Hf. by apply elem_of_nil in Hf.
Qed.

Lemma worker_run (q : list (option DiskRequest)) : forall w0 : Worker D,
  let '(st, w', rest) := StartWorkerThread q w0 in
  signals w' = signals w0 ++ map (fun r => (callback_ r, true)) (dequeued q)
  /\ (st = Exited <-> None ∈ q)
  /\ (st = Exited -> q = map Some (dequeued q) ++ None :: rest)
  /\ (st = Waiting -> q = map Some (dequeued q) /\ rest = []).
Proof.
  induction q as [|[r|] q IH]; intros w0; simpl.
  - rewrite app_nil_r. split; [done|]. split; [|done].
    split; [done|]. by intros ?%elem_of_nil.
  - specialize (IH (serve r w0)).
    destruct (StartWorkerThread q (serve r w0)) as [[st w'] rest].
    destruct IH as (Hs & Hex & Hq & Hw).
    rewrite Hs, signals_serve, <- app_assoc. split; [done|]. split.
    + rewrite Hex, elem_of_cons.
      split; [by right|]. intros [Heq|Hin]; [discriminate|done].
    + split.
      * intros Hst. by rewrite <- (Hq Hst).
      * intros Hst. destruct (Hw Hst) as [Hq' ->]. by rewrite <- Hq'.
  - rewrite app_nil_r. split; [done|]. split; [|done].
    split; [intros _; by left|done].
Qed.

(** The worker that the destructor joins has left its loop. *)
Lemma worker_exits_after_delete (queue : list (option DiskRequest)) (w : Worker D) :
  (StartWorkerThread (DiskScheduler_delete queue) w).1.1 = Exited.
Proof.
  pose proof (worker_run (DiskScheduler_delete queue) w) as Hrun.
  destruct (StartWorkerThread (DiskScheduler_delete queue) w) as [[st w'] rest].
  destruct Hrun as (_ & Hex & _). simpl. apply Hex.
  unfold DiskScheduler_delete. apply elem_of_app. right. by left.
Qed.

(** C8 (amended). For every queue content whose requests own distinct,
    unset promises: the worker calls [set_value] exactly once for each
    request it dequeues, in order, and always with the value true,
    whatever the disk manager answered; it goes on after each request; and
    it leaves its loop exactly when it dequeues the sentinel, the requests
    behind the sentinel staying in the queue. *)
Theorem worker_signals_success (queue : list (option DiskRequest)) (w : Worker D) :
  NoDup (map callback_ (dequeued queue)) ->
  (forall r, r ∈ dequeued queue -> times_set (callback_ r) (signals w) = 0%nat) ->
  let '(st, w', rest) := StartWorkerThread queue w in
  signals w' = signals w ++ map (fun r => (callback_ r, true)) (dequeued queue)
  /\ (forall r, r ∈ dequeued queue ->
        times_set (callback_ r) (signals w') = 1%nat
        /\ (callback_ r, true) ∈ signals w'
        /\ (callback_ r, false) ∉ signals w')
  /\ (st = Exited <-> None ∈ queue)
  /\ (st = Exited -> queue = map Some (dequeued queue) ++ None :: rest)
  /\ (st = Waiting -> queue = map Some (dequeued queue) /\ rest = []).
Proof.
  intros Hnd Hfresh.
  pose proof (worker_run queue w) as Hrun.
  destruct (StartWorkerThread queue w) as [[st w'] rest].
  destruct Hrun as (Hs & Hex & Hq & Hw).
  split; [done|]. split; [|done].
  intros r Hr. rewrite Hs. split; [|split].
  - rewrite times_set_app, times_set_served, (Hfresh r Hr) by done.
    rewrite bool_decide_eq_true_2; [done|].
    apply list_elem_of_fmap. by exists r.
  - apply elem_of_app. right. apply list_elem_of_fmap. by exists r.
  - intros [Hin|Hin]%elem_of_app.
    + by apply (times_set_zero _ _ _ (Hfresh r Hr)) in Hin.
    + apply list_elem_of_fmap in Hin as (r' & Heq & _). discriminate.
Qed.

End Worker.

Lemma worker_signals_success_witness :
  let '(st, w', rest) := @StartWorkerThread _ (faulty [1]) failing_queue idle_worker in
  signals w' = signals idle_worker
               ++ map (fun r => (callback_ r, true)) (dequeued failing_queue)
  /\ (forall r, r ∈ dequeued failing_queue ->
        times_set (callback_ r) (signals w') = 1%nat
        /\ (callback_ r, true) ∈ signals w'
        /\ (callback_ r, false) ∉ signals w')
  /\ (st = Exited <-> None ∈ failing_queue)
  /\ (st = Exited -> failing_queue = map Some (dequeued failing_queue) ++ None :: rest)
  /\ (st = Waiting -> failing_queue = map Some (dequeued failing_queue) /\ rest = []).
Proof.
  apply (@worker_signals_success _ (faulty [1]) failing_queue idle_worker).
  - compute_done.
  - intros r Hr. reflexivity.
Defined.

(** C8 (the claim fails). The disk manager fails the write of page 1 and
    the read of page 2; the worker sets both completion signals to true,
    so neither carries the failure. *)
Lemma failure_not_carried_by_signal :
  let w := idle_worker in
  let r1 := {| is_write_ := true; data_ := 0; page_id_ := 1; callback_ := 10 |} in
  let r2 := {| is_write_ := false; data_ := 0; page_id_ := 2; callback_ := 11 |} in
  @io_status_of _ (faulty [1]) r1 w = IoFailed
  /\ @io_status_of _ (faulty [1]) r2 (@serve _ (faulty [1]) r1 w) = IoFailed
  /\ signals (@StartWorkerThread _ (faulty [1]) failing_queue w).1.2
     = [(10%nat, true); (11%nat, true)].
Proof. vm_compute. done. Qed.

End SchedulerProps.

(** ** The page guards *)

Module GuardsProps.
Import Bpm Guards BpmProps.

(** *** What the drops compute *)

Lemma on_pool_UnpinPage w p d :
  inv (pool w) ->
  exists res b', UnpinPage p d (pool w) = Normal res b' /\ inv b'
    /\ on_pool (UnpinPage p d) w
       = Normal res {| pool := b'; heap := heap w; trace := trace w |}.
Proof.
  intros Hinv. destruct (UnpinPage_inv (pool w) p d Hinv) as (res & b' & Hrun & Hinv').
  exists res, b'. split; [done|]. split; [done|].
  unfold on_pool. by rewrite Hrun.
Qed.

Lemma Drop_null w this :
  page_ (guard_at w this) = None -> Drop this w = Normal tt w.
Proof. intros Hg. unfold Drop, bind, get. by rewrite Hg. Qed.

Lemma Drop_live w this f :
  inv (pool w) -> page_ (guard_at w this) = Some f ->
  exists res b',
    UnpinPage (PageId w f) (is_dirty_ (guard_at w this)) (pool w) = Normal res b'
    /\ inv b'
    /\ Drop this w =
         Normal tt {| pool := b';
                      heap := <[this := null_guard]> (heap w);
                      trace := trace w ++ [CallUnpinPage f (PageId w f)
                                             (is_dirty_ (guard_at w this))] |}.
Proof.
  intros Hinv Hg.
  set (w1 := {| pool := pool w; heap := heap w;
                trace := trace w ++ [CallUnpinPage f (PageId w f)
                                       (is_dirty_ (guard_at w this))] |}).
  destruct (on_pool_UnpinPage w1 (PageId w f) (is_dirty_ (guard_at w this)) Hinv)
    as (res & b' & Hrun & Hinv' & Hon).
  exists res, b'. split; [done|]. split; [done|].
  unfold Drop, bind, get. rewrite Hg. unfold emit, modify.
  fold w1. by rewrite Hon.
Qed.

Lemma latched_Drop_null w this :
  page_ (guard_at w this) = None ->
  ReadPageGuard_Drop this w = Normal tt w /\ WritePageGuard_Drop this w = Normal tt w.
Proof.
  intros Hg. unfold ReadPageGuard_Drop, WritePageGuard_Drop, bind, get.
  by rewrite Hg.
Qed.

Lemma guard_at_store_eq b h t a g :
  guard_at {| pool := b; heap := <[a := g]> h; trace := t |} a = g.
Proof. unfold guard_at. simpl. by rewrite lookup_insert_eq. Qed.

Lemma guard_at_store_ne b h t a a' g :
  a <> a' ->
  guard_at {| pool := b; heap := <[a := g]> h; trace := t |} a'
  = default null_guard (h !! a').
Proof. intros Hne. unfold guard_at. simpl. by rewrite lookup_insert_ne. Qed.



(** *** Counting the holders of a frame *)

Lemma size_lookup_Some {A} (m : gmap nat A) a x :
  m !! a = Some x -> size m = S (size (delete a m)).
Proof.
  intros Ha. rewrite <- (insert_delete_id m a x Ha) at 1.
  rewrite map_size_insert_None; [done|]. apply lookup_delete_eq.
Qed.

Lemma held_in_insert f a g (h : gmap nat BasicPageGuard) :
  (held_in f (<[a := g]> h)
   + (if decide (page_ (default null_guard (h !! a)) = Some f) then 1 else 0)
   = held_in f h + (if decide (page_ g = Some f) then 1 else 0))%nat.
Proof.
  unfold held_in.
  set (P := fun ag : nat * BasicPageGuard => page_ ag.2 = Some f).
  rewrite map_filter_insert. fold P.
  assert (Hold : (filter P h !! a = None
                  /\ page_ (default null_guard (h !! a)) <> Some f)
                 \/ (exists x, filter P h !! a = Some x
                     /\ page_ (default null_guard (h !! a)) = Some f)).
  { destruct (h !! a) as [x|] eqn:Ha; simpl.
    - destruct (decide (page_ x = Some f)) as [Hx|Hx].
      + right. exists x. split; [|done]. by apply map_lookup_filter_Some.
      + left. split; [|done]. apply map_lookup_filter_None. right.
        intros y Hy. rewrite Ha in Hy. by simplify_eq.
    - left. split; [|done]. apply map_lookup_filter_None. by left. }
  destruct (decide (P (a, g))) as [Hg|Hg]; unfold P in Hg; simpl in Hg.
  - rewrite (decide_True _ _ Hg). rewrite map_size_insert.
    destruct Hold as [[Hn Hp]|(x & Hx & Hp)].
    + rewrite Hn. rewrite (decide_False _ _ Hp). simpl. lia.
    + rewrite Hx. rewrite (decide_True _ _ Hp). simpl. lia.
  - rewrite (decide_False _ _ Hg). rewrite map_filter_delete.
    destruct Hold as [[Hn Hp]|(x & Hx & Hp)].
    + rewrite (decide_False _ _ Hp). by rewrite delete_id.
    + rewrite (decide_True _ _ Hp). rewrite (size_lookup_Some _ a x Hx). lia.
Qed.

Lemma unpins_snoc f w b h e :
  unpins f {| pool := b; heap := h; trace := trace w ++ [e] |}
  = (unpins f w + (if is_unpin_of f e then 1 else 0))%nat.
Proof.
  unfold unpins. simpl. rewrite filter_app, length_app. f_equal.
  rewrite filter_cons, filter_nil. destruct (is_unpin_of f e); done.
Qed.

(** *** Moves and drops of basic guards *)

Lemma move_run w this that :
  BasicPageGuard_move this that w =
    Normal tt {| pool := pool w;
                 heap := <[that := null_guard]> (<[this := guard_at w that]> (heap w));
                 trace := trace w |}.
Proof. reflexivity. Qed.


Lemma Drop_conserves w this :
  inv (pool w) ->
  exists w', Drop this w = Normal tt w'
    /\ inv (pool w')
    /\ page_ (guard_at w' this) = None
    /\ (forall a, a <> this -> guard_at w' a = guard_at w a)
    /\ forall f, (held f w' + unpins f w' = held f w + unpins f w)%nat.
Proof.
  intros Hinv. destruct (page_ (guard_at w this)) as [f0|] eqn:Hg.
  - destruct (Drop_live w this f0 Hinv Hg) as (res & b' & _ & Hinv' & ->).
    eexists. split; [done|]. split; [done|]. split; [by rewrite guard_at_store_eq|].
    split; [intros a Ha; by rewrite guard_at_store_ne|].
    intros f. rewrite unpins_snoc. unfold held. simpl.
    pose proof (held_in_insert f this null_guard (heap w)) as H1.
    fold (guard_at w this) in H1. rewrite Hg in H1.
    unfold is_unpin_of.
    repeat case_decide; case_bool_decide; simplify_eq; lia.
  - exists w. split; [by apply Drop_null|]. done.
Qed.

Lemma move_assign_run w this that :
  this <> that ->
  move_assign this that w = bind (Drop this) (fun _ => BasicPageGuard_move this that) w.
Proof. intros Hne. unfold move_assign. by rewrite decide_False. Qed.



(** *** What a drop does to the pool *)


(** The drop of a guard that holds [f0]: one call of [UnpinPage], on the
    pool, and one holder less. *)
Lemma Drop_calls w this f0 :
  inv (pool w) -> page_ (guard_at w this) = Some f0 ->
  let call := CallUnpinPage f0 (PageId w f0) (is_dirty_ (guard_at w this)) in
  exists w', Drop this w = Normal tt w'
    /\ inv (pool w')
    /\ trace w' = trace w ++ [call]
    /\ pool w' = replay [call] (pool w)
    /\ heap w' = <[this := null_guard]> (heap w)
    /\ forall f, (held f w' + (if decide (f = f0) then 1 else 0) = held f w)%nat.
Proof.
  intros Hinv Hg call.
  destruct (Drop_live w this f0 Hinv Hg) as (res & b' & Hun & Hinv' & ->).
  eexists. split; [done|]. split; [done|]. split; [done|].
  split; [simpl; unfold after; by rewrite Hun|]. split; [done|].
  intros f. unfold held. simpl.
  pose proof (held_in_insert f this null_guard (heap w)) as H1.
  fold (guard_at w this) in H1. rewrite Hg in H1.
  repeat case_decide; simplify_eq; lia.
Qed.







Lemma world_basic_inv : inv (pool world_basic).
Proof.
  assert (Hp : pool world_basic = after NewPage (Bpm.init 1 4 2 ∅))
    by (vm_compute; reflexivity).
  rewrite Hp. apply reachable_inv. reach.
Qed.



(** In [world_basic] the guard at 0 holds the one pin of frame 0. *)
Lemma world_basic_pinned : pinned_by_guards world_basic.
Proof.
  intros f Hpos.
  assert (Hheap : heap world_basic
                  = {[ 0%nat := {| bpm_ := Some tt; page_ := Some 0; is_dirty_ := false |} ]})
    by (vm_compute; reflexivity).
  assert (f = 0) as ->.
  { destruct (decide (f = 0)) as [|Hne]; [done|]. exfalso.
    unfold held, held_in in Hpos. rewrite Hheap in Hpos.
    rewrite map_filter_singleton_False in Hpos by (simpl; congruence).
    rewrite map_size_empty in Hpos. lia. }
  split; [vm_compute; reflexivity|].
  assert (held 0 world_basic = 1%nat) as -> by (vm_compute; reflexivity).
  vm_compute. discriminate.
Qed.

(** The same with two guards on the page: a second guard from
    [FetchPageBasic] holds the second pin of frame 0. *)
Example two_guards_two_pins :
  let w := after (FetchPageBasic 0 1) world_basic in
  held 0 w = 2%nat /\ pins 0 w = 2
  /\ pins 0 (after (BasicPageGuard_delete 1) w) = 1
  /\ pins 0 (after (BasicPageGuard_delete 0) (after (BasicPageGuard_delete 1) w)) = 0
  /\ trace (after (BasicPageGuard_delete 0) (after (BasicPageGuard_delete 1) w))
     = [CallUnpinPage 0 0 false; CallUnpinPage 0 0 false].
Proof. vm_compute. done. Qed.

Example travel_unpins_once :
  held 0 world_basic = 1%nat
  /\ trace (after (run_ops travel) world_basic) = [CallUnpinPage 0 0 false]
  /\ held 0 (after (run_ops travel) world_basic) = 0%nat
  /\ pin_count_ (page_at (pool (after (run_ops travel) world_basic)) 0) = 0.
Proof. vm_compute. done. Qed.

(** *** Upgrade of a basic guard *)

(** C7 (what the code does). [UpgradeRead] and [UpgradeWrite] build a
    guard that holds nothing, whatever the basic guard holds: the
    constructors they call do not use their arguments. The drop of the
    new guard changes nothing and calls nothing, and the basic guard is
    left as it was, still holding its frame. *)
Theorem Upgrade_builds_null_guard w this result :
  this <> result ->
  (let w' := after (UpgradeRead this result) w in
   guard_at w' result = null_guard
   /\ guard_at w' this = guard_at w this
   /\ pool w' = pool w /\ trace w' = trace w
   /\ ReadPageGuard_Drop result w' = Normal tt w')
  /\ (let w' := after (UpgradeWrite this result) w in
      guard_at w' result = null_guard
      /\ guard_at w' this = guard_at w this
      /\ pool w' = pool w /\ trace w' = trace w
      /\ WritePageGuard_Drop result w' = Normal tt w').
Proof.
  intros Hne.
  assert (Hres : guard_at {| pool := pool w; heap := <[result := null_guard]> (heap w);
                             trace := trace w |} result = null_guard)
    by apply guard_at_store_eq.
  assert (Hthis : guard_at {| pool := pool w; heap := <[result := null_guard]> (heap w);
                              trace := trace w |} this = guard_at w this).
  { by rewrite guard_at_store_ne. }
  split; simpl.
  - change (after (UpgradeRead this result) w)
      with {| pool := pool w; heap := <[result := null_guard]> (heap w);
              trace := trace w |}.
    repeat split; try done.
    apply latched_Drop_null. by rewrite Hres.
  - change (after (UpgradeWrite this result) w)
      with {| pool := pool w; heap := <[result := null_guard]> (heap w);
              trace := trace w |}.
    repeat split; try done.
    apply latched_Drop_null. by rewrite Hres.
Qed.

Lemma Upgrade_builds_null_guard_witness :
  (let w' := after (UpgradeRead 0 1) world_basic in
   guard_at w' 1 = null_guard
   /\ guard_at w' 0 = guard_at world_basic 0
   /\ pool w' = pool world_basic /\ trace w' = trace world_basic
   /\ ReadPageGuard_Drop 1 w' = Normal tt w')
  /\ (let w' := after (UpgradeWrite 0 1) world_basic in
      guard_at w' 1 = null_guard
      /\ guard_at w' 0 = guard_at world_basic 0
      /\ pool w' = pool world_basic /\ trace w' = trace world_basic
      /\ WritePageGuard_Drop 1 w' = Normal tt w').
Proof.
  apply (Upgrade_builds_null_guard world_basic 0 1). discriminate.
Defined.

(** The basic guard of [world_basic] holds frame 0; after [UpgradeRead]
    the new guard holds nothing and its drop leaves the page pinned. *)
Example UpgradeRead_drops_nothing :
  page_ (guard_at world_basic 0) = Some 0
  /\ page_ (guard_at (after (UpgradeRead 0 1) world_basic) 1) = None
  /\ page_ (guard_at (after (UpgradeRead 0 1) world_basic) 0) = Some 0
  /\ trace (after (ReadPageGuard_Drop 1) (after (UpgradeRead 0 1) world_basic)) = []
  /\ pin_count_ (page_at (pool (after (ReadPageGuard_Drop 1)
                                 (after (UpgradeRead 0 1) world_basic))) 0) = 1.
Proof. vm_compute. done. Qed.

(** Scenario 6 of section 8 on the code: a write guard on page 0 obtained
    from [FetchPageWrite] goes out of scope; the page is still pinned, the
    latch was taken and never released, and [DeletePage] answers false. *)
Example write_guard_scope_keeps_pin :
  let w0 := {| pool := pool_dirty_nul; heap := ∅; trace := [] |} in
  let w := after (WritePageGuard_delete 7) (after (FetchPageWrite 0 7) w0) in
  trace w = [CallWLatch 0]
  /\ pin_count_ (page_at (pool w) 0) = 1
  /\ value_of (DeletePage 0 (pool w)) = Some false.
Proof. vm_compute. done. Qed.

End GuardsProps.

(** * Further properties *)

(** ** Counting the entries of a map that satisfy a predicate *)

Module MapCount.
Import Count.

Section Count.
Context {K : Type} `{Countable K} {A : Type}.
Context (P : K * A -> Prop) `{!forall x, Decision (P x)}.

Lemma size_delete_Some (m : gmap K A) a x :
  m !! a = Some x -> size m = S (size (delete a m)).
Proof.
  intros Ha. rewrite <- (insert_delete_id m a x Ha) at 1.
  rewrite map_size_insert_None; [done|]. apply lookup_delete_eq.
Qed.

Lemma filter_lookup_hit (m : gmap K A) a :
  (filter P m !! a = None /\ hit P a (m !! a) = 0%nat)
  \/ (exists x, filter P m !! a = Some x /\ hit P a (m !! a) = 1%nat).
Proof.
  unfold hit. destruct (m !! a) as [x|] eqn:Ha.
  - destruct (decide (P (a, x))) as [Hx|Hx].
    + right. exists x. split; [|done]. by apply map_lookup_filter_Some.
    + left. split; [|done]. apply map_lookup_filter_None. right.
      intros y Hy. rewrite Ha in Hy. by simplify_eq.
  - left. split; [|done]. apply map_lookup_filter_None. by left.
Qed.

Lemma size_filter_delete (m : gmap K A) a :
  (size (filter P (delete a m)) + hit P a (m !! a) = size (filter P m))%nat.
Proof.
  rewrite map_filter_delete.
  destruct (filter_lookup_hit m a) as [[Hn ->]|(x & Hx & ->)].
  - rewrite delete_id by done. lia.
  - rewrite (size_delete_Some _ a x Hx). lia.
Qed.

Lemma size_filter_insert (m : gmap K A) a x :
  (size (filter P (<[a := x]> m)) + hit P a (m !! a)
   = size (filter P m) + hit P a (Some x))%nat.
Proof.
  rewrite map_filter_insert. unfold hit at 2.
  destruct (decide (P (a, x))) as [Hx|Hx].
  - rewrite map_size_insert.
    destruct (filter_lookup_hit m a) as [[Hn ->]|(y & Hy & ->)].
    + rewrite Hn. simpl. lia.
    + rewrite Hy. simpl. lia.
  - pose proof (size_filter_delete m a). lia.
Qed.

End Count.

End MapCount.

(** ** The LRU-K replacer: counting, histories, composition *)

Module ReplacerInvProps.
Import Replacer ReplacerProps ReplacerInv Count MapCount.

Lemma trim_last_k k h : trim k h = last_k k h.
Proof.
  unfold last_k. induction h as [|a h IH]; [done|].
  cbn [trim]. destruct (k <? Z.of_nat (length (a :: h))) eqn:E.
  - apply Z.ltb_lt in E. rewrite IH. simpl in E |- *.
    replace (S (length h) - Z.to_nat k)%nat with (S (length h - Z.to_nat k)) by lia.
    done.
  - apply Z.ltb_ge in E. simpl in E |- *.
    replace (S (length h) - Z.to_nat k)%nat with 0%nat by lia. done.
Qed.

Lemma last_k_length k h :
  Z.of_nat (length (last_k k h)) = Z.min (Z.of_nat (length h)) (Z.max 0 k).
Proof. unfold last_k. rewrite length_drop. lia. Qed.

Lemma wrap_succ z : wrap_size_t (wrap_size_t z + 1) = wrap_size_t (z + 1).
Proof. unfold wrap_size_t. by rewrite Zplus_mod_idemp_l. Qed.

Lemma wrap_pred z : wrap_size_t (wrap_size_t z - 1) = wrap_size_t (z - 1).
Proof. unfold wrap_size_t. by rewrite Zminus_mod_idemp_l. Qed.

Lemma evictable_hit f (o : option LRUKNode) :
  hit (fun kn : Z * LRUKNode => is_evictable_ kn.2 = true) f o
  = if is_evictable_ (default default_node o) then 1%nat else 0%nat.
Proof.
  unfold hit. destruct o as [n|]; simpl; [|done].
  destruct (is_evictable_ n); by case_decide.
Qed.

Lemma count_insert r f nd size ts :
  (evictable_count {| node_store_ := <[f := nd]> (node_store_ r);
                      current_timestamp_ := ts; curr_size_ := size;
                      replacer_size_ := replacer_size_ r; k_ := k_ r |}
   + (if is_evictable_ (at_ (node_store_ r) f) then 1 else 0)
   = evictable_count r + (if is_evictable_ nd then 1 else 0))%nat.
Proof.
  unfold evictable_count. simpl.
  pose proof (size_filter_insert (fun kn : Z * LRUKNode => is_evictable_ kn.2 = true)
                (node_store_ r) f nd) as Hc.
  rewrite !evictable_hit in Hc. done.
Qed.

Lemma count_delete r f size ts :
  (evictable_count {| node_store_ := delete f (node_store_ r);
                      current_timestamp_ := ts; curr_size_ := size;
                      replacer_size_ := replacer_size_ r; k_ := k_ r |}
   + (if is_evictable_ (at_ (node_store_ r) f) then 1 else 0)
   = evictable_count r)%nat.
Proof.
  unfold evictable_count. simpl.
  pose proof (size_filter_delete (fun kn : Z * LRUKNode => is_evictable_ kn.2 = true)
                (node_store_ r) f) as Hc.
  rewrite evictable_hit in Hc. done.
Qed.

Lemma count_le_size r : (evictable_count r <= size (node_store_ r))%nat.
Proof. apply map_size_filter. Qed.

(** *** Every built state is shaped *)

Lemma shaped_init num_frames k : shaped num_frames k (init num_frames k).
Proof. split; try done. Qed.

Lemma shaped_RecordAccess num_frames k r f :
  shaped num_frames k r -> shaped num_frames k (after (RecordAccess f) r).
Proof.
  intros [Hsz Hk Hkey Hcnt Hrng Hhist]. unfold after, RecordAccess.
  destruct (out_of_range r f) eqn:Hr; [by split|]. simpl.
  split; unfold keyed, counted in *; simpl; try done.
  - intros g n. rewrite lookup_insert. case_decide as Hg.
    + intros [= <-]. subst g. simpl. split; [done|]. by apply out_of_range_false in Hr.
    + apply Hkey.
  - unfold counted in *. simpl.
    pose proof (count_insert r f
      {| history_ := trim (k_ r) (history_ (at_ (node_store_ r) f)
                                  ++ [wrap_size_t (current_timestamp_ r + 1)]);
         fid_ := f; is_evictable_ := is_evictable_ (at_ (node_store_ r) f) |}
      (curr_size_ r) (wrap_size_t (current_timestamp_ r + 1))) as Hc.
    simpl in Hc. apply Nat.add_cancel_r in Hc. rewrite Hc. exact Hcnt.
  - intros g n. rewrite lookup_insert. case_decide as Hg.
    + intros _. subst g. unfold out_of_range in *. done.
    + intros Hn. specialize (Hrng g n Hn). unfold out_of_range in *. done.
  - intros g n. rewrite lookup_insert. case_decide as Hg.
    + intros [= <-]. simpl. rewrite trim_last_k. split.
      * rewrite last_k_length, Hk. lia.
      * intros Hk1. intros Hnil.
        pose proof (last_k_length (k_ r) (history_ (at_ (node_store_ r) f)
                      ++ [wrap_size_t (current_timestamp_ r + 1)])) as Hl.
        rewrite Hnil, length_app in Hl. simpl in Hl. lia.
    + apply Hhist.
Qed.

Lemma shaped_SetEvictable num_frames k r f e :
  shaped num_frames k r -> shaped num_frames k (after (SetEvictable f e) r).
Proof.
  intros Hs. pose proof Hs as [Hsz Hk Hkey Hcnt Hrng Hhist].
  unfold after, SetEvictable.
  destruct (out_of_range r f) eqn:Hr; [done|].
  destruct (node_store_ r !! f) as [n|] eqn:E; [|done].
  destruct (negb (eqb (is_evictable_ n) e)) eqn:C; [|done]. simpl.
  apply negb_true_iff, eqb_false_iff in C.
  split; unfold keyed, counted in *; simpl; try done.
  - intros g m. rewrite lookup_insert. case_decide as Hg.
    + intros [= <-]. subst g. simpl. by apply (Hkey f n).
    + apply Hkey.
  - unfold counted in *. simpl.
    pose proof (count_insert r f
      {| history_ := history_ n; fid_ := fid_ n; is_evictable_ := e |}
      (if e then wrap_size_t (curr_size_ r + 1) else wrap_size_t (curr_size_ r - 1))
      (current_timestamp_ r)) as Hc.
    unfold at_ in Hc. rewrite E in Hc. simpl in Hc.
    destruct e, (is_evictable_ n); try done.
    + match goal with |- _ = wrap_size_t (Z.of_nat ?c) =>
        replace (Z.of_nat c) with (Z.of_nat (evictable_count r) + 1) by lia
      end.
      by rewrite Hcnt, wrap_succ.
    + match goal with |- _ = wrap_size_t (Z.of_nat ?c) =>
        replace (Z.of_nat c) with (Z.of_nat (evictable_count r) - 1) by lia
      end.
      by rewrite Hcnt, wrap_pred.
  - intros g m. rewrite lookup_insert. case_decide as Hg.
    + intros _. subst g. unfold out_of_range in *. done.
    + intros Hm. specialize (Hrng g m Hm). unfold out_of_range in *. done.
  - intros g m. rewrite lookup_insert. case_decide as Hg.
    + intros [= <-]. simpl. by apply (Hhist f n).
    + apply Hhist.
Qed.

Lemma shaped_delete num_frames k r v :
  shaped num_frames k r ->
  (exists nv, node_store_ r !! v = Some nv /\ is_evictable_ nv = true) ->
  shaped num_frames k
    {| node_store_ := delete v (node_store_ r);
       current_timestamp_ := current_timestamp_ r;
       curr_size_ := wrap_size_t (curr_size_ r - 1);
       replacer_size_ := replacer_size_ r;
       k_ := k_ r |}.
Proof.
  intros [Hsz Hk Hkey Hcnt Hrng Hhist] (nv & Hnv & Hev).
  split; unfold keyed, counted in *; simpl; try done.
  - intros g m [_ Hm]%lookup_delete_Some. by apply Hkey.
  - unfold counted in *. simpl.
    pose proof (count_delete r v (wrap_size_t (curr_size_ r - 1))
                  (current_timestamp_ r)) as Hc.
    unfold at_ in Hc. rewrite Hnv in Hc. simpl in Hc. rewrite Hev in Hc.
    match goal with |- _ = wrap_size_t (Z.of_nat ?c) =>
      replace (Z.of_nat c) with (Z.of_nat (evictable_count r) - 1) by lia
    end.
    by rewrite Hcnt, wrap_pred.
  - intros g m [_ Hm]%lookup_delete_Some. specialize (Hrng g m Hm).
    unfold out_of_range in *. done.
  - intros g m [_ Hm]%lookup_delete_Some. by apply (Hhist g).
Qed.

Lemma shaped_Remove num_frames k r f :
  shaped num_frames k r -> shaped num_frames k (after (Remove f) r).
Proof.
  intros Hs. unfold after, Remove.
  destruct (out_of_range r f); [done|].
  destruct (node_store_ r !! f) as [n|] eqn:E; [|done].
  destruct (is_evictable_ n) eqn:Hev; [|done]. simpl.
  apply shaped_delete; [done|]. by exists n.
Qed.

Lemma shaped_Evict_in num_frames k r order :
  shaped num_frames k r -> order ≡ₚ map_to_list (node_store_ r) ->
  shaped num_frames k (Evict_in order r).2.
Proof.
  intros Hs Hperm.
  pose proof (Evict_in_found r order (shaped_keyed _ _ _ Hs) Hperm) as Hf.
  destruct (Evict_in order r) as [[v|] r'].
  - destruct Hf as [Hv ->]. by apply shaped_delete.
  - destruct Hf as [_ ->]. done.
Qed.

Lemma built_shaped num_frames k r : built num_frames k r -> shaped num_frames k r.
Proof.
  induction 1.
  - apply shaped_init.
  - by apply shaped_RecordAccess.
  - by apply shaped_SetEvictable.
  - by apply shaped_Remove.
  - by apply shaped_Evict_in.
Qed.

Lemma scenario_mixed_built : built 7 2 scenario_mixed.
Proof.
  unfold scenario_mixed, record_all.
  repeat first [ apply built_RecordAccess | apply built_SetEvictable | apply built_init ].
Qed.

Lemma small_store (r : LRUKReplacer) (n : nat) :
  size (node_store_ r) = n -> Z.of_nat n < 2 ^ 64 ->
  Z.of_nat (size (node_store_ r)) < 2 ^ 64.
Proof. by intros ->. Qed.

(** *** Size *)

Lemma Size_counts_evictable_aux r :
  counted r -> Z.of_nat (size (node_store_ r)) < 2 ^ 64 ->
  Size r = Z.of_nat (evictable_count r).
Proof.
  intros Hc Hsmall. unfold Size. rewrite Hc. unfold wrap_size_t.
  pose proof (count_le_size r). apply Z.mod_small. lia.
Qed.

(** X1. In every state built from a fresh replacer by any calls of its
    member functions, [Size()] is the number of nodes whose evictable flag
    is set (the map holding fewer than 2^64 nodes). *)
Theorem Size_counts_evictable num_frames k r :
  built num_frames k r ->
  Z.of_nat (size (node_store_ r)) < 2 ^ 64 ->
  Size r = Z.of_nat (evictable_count r).
Proof.
  intros Hb Hsmall. apply Size_counts_evictable_aux; [|done].
  apply (shaped_counted num_frames k). by apply built_shaped.
Qed.

Lemma Size_counts_evictable_witness :
  Size scenario_mixed = Z.of_nat (evictable_count scenario_mixed).
Proof.
  apply (Size_counts_evictable 7 2 scenario_mixed).
  - apply scenario_mixed_built.
  - apply (small_store _ 3); [vm_compute; reflexivity | reflexivity].
Defined.

(** X2. In every built state [Evict] succeeds exactly when [Size()] is
    positive, the test [RequestFrameId] makes before calling it: a
    successful [Evict] erases its victim only and takes one off [Size()];
    when [Size()] is 0 it returns false and changes nothing. *)
Theorem Evict_succeeds_iff_Size_positive num_frames k r order :
  built num_frames k r ->
  Z.of_nat (size (node_store_ r)) < 2 ^ 64 ->
  order ≡ₚ map_to_list (node_store_ r) ->
  match Evict_in order r with
  | (Some v, r') =>
      0 < Size r /\ Size r' = Size r - 1
      /\ node_store_ r' = delete v (node_store_ r)
      /\ (exists nv, node_store_ r !! v = Some nv /\ is_evictable_ nv = true)
  | (None, r') => Size r = 0 /\ r' = r
  end.
Proof.
  intros Hb Hsmall Hperm.
  pose proof (built_shaped _ _ _ Hb) as Hs.
  pose proof (Size_counts_evictable_aux r (shaped_counted _ _ _ Hs) Hsmall) as Hsize.
  pose proof (Evict_in_found r order (shaped_keyed _ _ _ Hs) Hperm) as Hf.
  destruct (Evict_in order r) as [[v|] r'].
  - destruct Hf as [(nv & Hnv & Hev) ->].
    pose proof (count_delete r v (wrap_size_t (curr_size_ r - 1))
                  (current_timestamp_ r)) as Hc.
    unfold at_ in Hc. rewrite Hnv in Hc. simpl in Hc. rewrite Hev in Hc.
    unfold Size in *. simpl.
    split; [lia|]. split; [|split; [done|by exists nv]].
    pose proof (count_le_size r). unfold wrap_size_t. apply Z.mod_small. lia.
  - destruct Hf as [Hnone ->]. split; [|done].
    rewrite Hsize. unfold evictable_count.
    assert (Hempty : filter (fun kn : Z * LRUKNode => is_evictable_ kn.2 = true)
                       (node_store_ r) = ∅).
    { apply map_empty. intros g. apply map_lookup_filter_None. right.
      intros n Hn. simpl. by rewrite (Hnone g n Hn). }
    by rewrite Hempty, map_size_empty.
Qed.

Lemma Evict_succeeds_iff_Size_positive_witness :
  match Evict_in (map_to_list (node_store_ scenario_mixed)) scenario_mixed with
  | (Some v, r') =>
      0 < Size scenario_mixed /\ Size r' = Size scenario_mixed - 1
      /\ node_store_ r' = delete v (node_store_ scenario_mixed)
      /\ (exists nv, node_store_ scenario_mixed !! v = Some nv
                     /\ is_evictable_ nv = true)
  | (None, r') => Size scenario_mixed = 0 /\ r' = scenario_mixed
  end.
Proof.
  apply (Evict_succeeds_iff_Size_positive 7 2 scenario_mixed).
  - apply scenario_mixed_built.
  - apply (small_store _ 3); [vm_compute; reflexivity | reflexivity].
  - reflexivity.
Defined.

(** *** Histories *)

(** X3. [RecordAccess] on a frame id that passes the range check stores
    under this id the K most recent timestamps of the frame, the new
    timestamp last; the evictable flag of the frame is kept (a new node
    is not evictable), and the other nodes, [Size()] and the number of
    evictable nodes are unchanged. *)
Theorem RecordAccess_keeps_K_most_recent r f :
  out_of_range r f = false ->
  exists r' nd,
    RecordAccess f r = Normal tt r'
    /\ current_timestamp_ r' = wrap_size_t (current_timestamp_ r + 1)
    /\ node_store_ r' !! f = Some nd
    /\ history_ nd = last_k (k_ r) (history_ (at_ (node_store_ r) f)
                                    ++ [current_timestamp_ r'])
    /\ fid_ nd = f
    /\ is_evictable_ nd = is_evictable_ (at_ (node_store_ r) f)
    /\ (forall g, g <> f -> node_store_ r' !! g = node_store_ r !! g)
    /\ Size r' = Size r
    /\ evictable_count r' = evictable_count r.
Proof.
  intros Hr. unfold RecordAccess. rewrite Hr.
  eexists _, _. split; [reflexivity|]. simpl.
  split; [done|]. split; [apply lookup_insert_eq|]. split; [apply trim_last_k|].
  split; [done|]. split; [done|]. split; [|split; [done|]].
  - intros g Hg. by rewrite lookup_insert_ne.
  - match goal with |- evictable_count ?r' = _ => set (rr := r') end.
    pose proof (count_insert r f
      {| history_ := trim (k_ r) (history_ (at_ (node_store_ r) f)
                                  ++ [wrap_size_t (current_timestamp_ r + 1)]);
         fid_ := f; is_evictable_ := is_evictable_ (at_ (node_store_ r) f) |}
      (curr_size_ r) (wrap_size_t (current_timestamp_ r + 1))) as Hc.
    simpl in Hc. fold rr in Hc. lia.
Qed.

Lemma RecordAccess_keeps_K_most_recent_witness :
  exists r' nd,
    RecordAccess 3 scenario_mixed = Normal tt r'
    /\ current_timestamp_ r' = wrap_size_t (current_timestamp_ scenario_mixed + 1)
    /\ node_store_ r' !! 3 = Some nd
    /\ history_ nd = last_k (k_ scenario_mixed)
                       (history_ (at_ (node_store_ scenario_mixed) 3)
                        ++ [current_timestamp_ r'])
    /\ fid_ nd = 3
    /\ is_evictable_ nd = is_evictable_ (at_ (node_store_ scenario_mixed) 3)
    /\ (forall g, g <> 3 -> node_store_ r' !! g = node_store_ scenario_mixed !! g)
    /\ Size r' = Size scenario_mixed
    /\ evictable_count r' = evictable_count scenario_mixed.
Proof.
  apply (RecordAccess_keeps_K_most_recent scenario_mixed 3).
  vm_compute. reflexivity.
Defined.

(** Frame 3 was accessed at the times 3, 4 and 5; with K = 2 a further
    access leaves the history 5, 6. *)
Example RecordAccess_trims :
  history_ (at_ (node_store_ scenario_mixed) 3) = [4; 5]
  /\ history_ (at_ (node_store_ (after (RecordAccess 3) scenario_mixed)) 3) = [5; 6].
Proof. vm_compute. done. Qed.

(** X4. In every built state with K >= 1, a tracked frame holds at least
    one and at most K timestamps, is stored under its own frame id, and
    its id passes the range check: it is not negative and not above
    [num_frames]. *)
Theorem built_histories_bounded num_frames k r f nd :
  built num_frames k r -> 1 <= k -> node_store_ r !! f = Some nd ->
  1 <= Z.of_nat (length (history_ nd)) <= k
  /\ fid_ nd = f
  /\ 0 <= f /\ wrap_size_t f <= num_frames.
Proof.
  intros Hb Hk Hn. destruct (built_shaped _ _ _ Hb) as [Hsz Hkk Hkey Hcnt Hrng Hhist].
  destruct (Hhist f nd Hn) as [Hlen Hne]. destruct (Hkey f nd Hn) as [Hfid Hf].
  specialize (Hrng f nd Hn). unfold out_of_range in Hrng.
  apply orb_false_iff in Hrng as [_ Hrng]. apply Z.ltb_ge in Hrng.
  split; [|split; [done|split; [done|lia]]].
  specialize (Hne Hk). destruct (history_ nd); [done|]. simpl in *. lia.
Qed.

Lemma built_histories_bounded_witness :
  1 <= Z.of_nat (length (history_ (at_ (node_store_ scenario_mixed) 3))) <= 2
  /\ fid_ (at_ (node_store_ scenario_mixed) 3) = 3
  /\ 0 <= 3 /\ wrap_size_t 3 <= 7.
Proof.
  apply (built_histories_bounded 7 2 scenario_mixed 3).
  - apply scenario_mixed_built.
  - lia.
  - vm_compute. reflexivity.
Defined.

(** *** SetEvictable *)

(** X5. Of two calls of [SetEvictable] on the same frame the last one
    wins: the state, [Size()] included, is the one a single call with the
    last flag leaves (so the call is idempotent, and setting a flag and
    setting it back restores the state). *)
Theorem SetEvictable_last_wins r f e1 e2 :
  0 <= curr_size_ r < 2 ^ 64 ->
  SetEvictable f e2 (after (SetEvictable f e1) r) = SetEvictable f e2 r.
Proof.
  intros Hc. unfold after, SetEvictable.
  destruct (out_of_range r f) eqn:Hr; simpl; [by rewrite Hr|].
  destruct (node_store_ r !! f) as [n|] eqn:E; simpl; [|by rewrite Hr, E].
  destruct n as [h i b]. simpl.
  destruct b, e1, e2; simpl; unfold out_of_range in *; simpl;
    rewrite ?Hr, ?E, ?lookup_insert_eq; simpl; try done.
  - rewrite insert_insert_eq, (insert_id _ _ _ E).
    rewrite wrap_succ. unfold wrap_size_t.
    replace (curr_size_ r - 1 + 1) with (curr_size_ r) by lia.
    rewrite Z.mod_small by lia. by destruct r.
  - rewrite insert_insert_eq, (insert_id _ _ _ E).
    rewrite wrap_pred. unfold wrap_size_t.
    replace (curr_size_ r + 1 - 1) with (curr_size_ r) by lia.
    rewrite Z.mod_small by lia. by destruct r.
Qed.

Lemma SetEvictable_last_wins_witness :
  SetEvictable 3 false (after (SetEvictable 3 true) scenario_mixed)
  = SetEvictable 3 false scenario_mixed.
Proof.
  apply (SetEvictable_last_wins scenario_mixed 3 true false).
  vm_compute. split; [discriminate | reflexivity].
Defined.

End ReplacerInvProps.
(** ** The LRU replacer *)

Module LruProps.
Import Lru.

Lemma filter_all {A} (P : A -> Prop) `{!forall x, Decision (P x)} (l : list A) :
  Forall P l -> filter P l = l.
Proof.
  induction 1 as [|x l Hx _ IH]; [done|]. by rewrite filter_cons_True, IH.
Qed.

Lemma address_unique (l : list (nat * Z)) n m :
  NoDup l.*1 -> n ∈ l -> m ∈ l -> n.1 = m.1 -> n = m.
Proof.
  induction l as [|x l IH]; simpl; intros Hnd Hn Hm Heq; [by inv Hn|].
  apply NoDup_cons in Hnd as [Hx Hnd].
  apply elem_of_cons in Hn as [->|Hn]; apply elem_of_cons in Hm as [->|Hm].
  - done.
  - exfalso. apply Hx. rewrite Heq. apply list_elem_of_fmap. by exists m.
  - exfalso. apply Hx. rewrite <- Heq. apply list_elem_of_fmap. by exists n.
  - by apply IH.
Qed.

Lemma erase_notin it (l : list (nat * Z)) : it ∉ l.*1 -> erase it l = l.
Proof.
  induction l as [|n l IH]; simpl; [done|]. intros Hn.
  apply not_elem_of_cons in Hn as [Hne Hn].
  rewrite decide_False by done. by rewrite IH.
Qed.

Lemma erase_elem_of it n (l : list (nat * Z)) :
  NoDup l.*1 -> n ∈ erase it l <-> n ∈ l /\ n.1 <> it.
Proof.
  induction l as [|m l IH]; simpl; intros Hnd.
  - split; [by intros H; inv H | by intros [H _]; inv H].
  - apply NoDup_cons in Hnd as [Hm Hnd]. case_decide as Hmi.
    + split.
      * intros Hn. split; [by right|]. intros Hni. apply Hm. subst it.
        rewrite <- Hni. apply list_elem_of_fmap. by exists n.
      * intros [Hn Hni]. apply elem_of_cons in Hn as [->|Hn]; done.
    + rewrite !elem_of_cons, (IH Hnd). split.
      * intros [->|[Hn Hni]]; [by split; [left|] | by split; [right|]].
      * intros [[->|Hn] Hni]; [by left | by right].
Qed.

Lemma erase_length it (l : list (nat * Z)) : (length (erase it l) <= length l)%nat.
Proof. induction l as [|m l IH]; simpl; [done|]. case_decide; simpl; lia. Qed.

Lemma erase_nodup it (l : list (nat * Z)) : NoDup l.*1 -> NoDup (erase it l).*1.
Proof.
  induction l as [|m l IH]; simpl; intros Hnd; [done|].
  apply NoDup_cons in Hnd as [Hm Hnd]. case_decide; [done|].
  simpl. apply NoDup_cons. split; [|by apply IH].
  intros Hin. apply list_elem_of_fmap in Hin as (n & Hn1 & Hn).
  apply erase_elem_of in Hn as [Hn _]; [|done].
  apply Hm. rewrite Hn1. apply list_elem_of_fmap. by exists n.
Qed.

(** Unlinking the node of frame [f] by its iterator removes [f], and
    only [f], from the frames of the list. *)
Lemma erase_frames a f (l : list (nat * Z)) :
  NoDup l.*1 -> (a, f) ∈ l -> (forall n, n ∈ l -> n.2 = f -> n.1 = a) ->
  (erase a l).*2 = filter (fun g => g <> f) l.*2.
Proof.
  induction l as [|[b g] l IH]; simpl; intros Hnd Hin Huniq; [by inv Hin|].
  apply NoDup_cons in Hnd as [Hb Hnd]. case_decide as Hba; simpl in Hba.
  - subst b. assert (g = f) as ->.
    { apply elem_of_cons in Hin as [?|Hin]; [congruence|].
      exfalso. apply Hb. apply list_elem_of_fmap. by exists (a, f). }
    rewrite filter_cons_False by (intros ?; done).
    symmetry. apply filter_all. apply Forall_forall.
    intros g Hg ->. apply list_elem_of_fmap in Hg as (n & Hn2 & Hn).
    apply Hb. apply list_elem_of_fmap. exists n. split; [|done].
    symmetry. apply Huniq; [by right | done].
  - assert (g <> f) as Hgf.
    { intros ->. apply Hba. apply (Huniq (b, f)); [left | done]. }
    rewrite filter_cons_True by done. simpl. f_equal.
    apply IH; [done | |].
    + apply elem_of_cons in Hin as [?|Hin]; [congruence | done].
    + intros n Hn. apply Huniq. by right.
Qed.

Lemma linked_unique r n m :
  linked r -> n ∈ frame_dll_ r -> m ∈ frame_dll_ r -> n.2 = m.2 -> n = m.
Proof.
  intros [_ Htab _] Hn Hm Heq. destruct n as [a f], m as [b g]. simpl in *. subst g.
  apply Htab in Hn, Hm. congruence.
Qed.

Lemma linked_frames_nodup r : linked r -> NoDup (frames r).
Proof.
  intros Hl. unfold frames. apply NoDup_fmap_2_strong; [|].
  - intros n m Hn Hm Heq. by apply (linked_unique r).
  - apply (NoDup_fmap_1 fst). apply (linked_nodup _ Hl).
Qed.

Lemma linked_table_frames r f :
  linked r -> is_Some (frame_table_ r !! f) <-> f ∈ frames r.
Proof.
  intros Hl. unfold frames. rewrite list_elem_of_fmap. split.
  - intros [a Ha]. exists (a, f). split; [done|]. by apply (linked_table _ Hl).
  - intros ([a g] & -> & Hn). exists a. by apply (linked_table _ Hl).
Qed.

Lemma linked_init n : linked (init n).
Proof.
  split; simpl.
  - constructor.
  - intros f a. rewrite lookup_empty. split; [done | by intros H; inv H].
  - intros m H. inv H.
Qed.

Lemma linked_Pin r f : linked r -> linked (Pin f r).
Proof.
  intros Hl. pose proof Hl as [Hnd Htab Hfr]. unfold Pin.
  destruct (frame_table_ r !! f) as [a|] eqn:E; [|done].
  split; simpl.
  - by apply erase_nodup.
  - intros g b. rewrite erase_elem_of by done. simpl.
    rewrite lookup_delete_Some, Htab. split.
    + intros [Hgf Hin]. split; [done|]. intros ->.
      apply Htab in E. apply Hgf.
      pose proof (address_unique _ (a, f) (a, g) Hnd E Hin eq_refl). congruence.
    + intros [Hin Hba]. split; [|done]. intros ->. apply Htab in Hin. congruence.
  - intros n Hn. apply Hfr. apply erase_elem_of in Hn as [Hn _]; done.
Qed.

Lemma linked_Unpin r f : linked r -> linked (Unpin f r).
Proof.
  intros Hl. pose proof Hl as [Hnd Htab Hfr]. unfold Unpin.
  case_match; [done|]. destruct (frame_table_ r !! f) as [a|] eqn:E; [done|].
  split; simpl.
  - apply NoDup_cons. split; [|done]. intros Hin.
    apply list_elem_of_fmap in Hin as (n & Hn1 & Hn). apply Hfr in Hn. lia.
  - intros g b. rewrite elem_of_cons, lookup_insert. case_decide as Hfg.
    + subst g. split; [intros ?; left; congruence|].
      intros [?|Hin]; [congruence|]. apply Htab in Hin. congruence.
    + rewrite Htab. split; [by right|]. intros [?|?]; [congruence | done].
  - intros n Hn. apply elem_of_cons in Hn as [->|Hn]; simpl; [lia|].
    apply Hfr in Hn. lia.
Qed.

Lemma Victim_run r :
  match last (frame_dll_ r) with
  | None => frame_dll_ r = [] /\ Victim r = (None, r)
  | Some n =>
      exists l, frame_dll_ r = l ++ [n]
      /\ Victim r = (Some n.2, {| frame_dll_ := l;
                                  frame_table_ := delete n.2 (frame_table_ r);
                                  num_pages_ := num_pages_ r;
                                  next_node_ := next_node_ r |})
  end.
Proof.
  unfold Victim. destruct (last (frame_dll_ r)) as [n|] eqn:E.
  - apply last_Some in E as [l El]. exists l. split; [done|].
    by rewrite El, removelast_last.
  - by apply last_None in E.
Qed.

Lemma linked_Victim r : linked r -> linked (Victim r).2.
Proof.
  intros Hl. pose proof Hl as [Hnd Htab Hfr]. pose proof (Victim_run r) as Hv.
  destruct (last (frame_dll_ r)) as [[a f]|].
  - destruct Hv as (l & El & ->). simpl. rewrite El in Hnd.
    rewrite fmap_app in Hnd. apply NoDup_app in Hnd as (Hndl & Hdisj & _).
    split; simpl.
    + done.
    + intros g b. rewrite lookup_delete_Some, Htab, El, elem_of_app.
      rewrite list_elem_of_singleton. split.
      * intros [Hne [Hin|Heq]]; [done | congruence].
      * intros Hin. split; [|by left]. intros Hgf. subst g.
        assert ((b, f) = (a, f)) as Heq.
        { apply (linked_unique r); [done | | | done]; rewrite El, elem_of_app.
          - by left.
          - right. by apply list_elem_of_singleton. }
        simplify_eq. apply (Hdisj a).
        -- apply list_elem_of_fmap. by exists (a, f).
        -- simpl. left.
    + intros n Hn. apply Hfr. rewrite El, elem_of_app. by left.
  - by destruct Hv as [_ ->].
Qed.

Lemma reachable_linked n r : reachable n r -> linked r.
Proof.
  induction 1; [apply linked_init | by apply linked_Victim | by apply linked_Pin
               | by apply linked_Unpin].
Qed.

Lemma reachable_bound n r :
  reachable n r -> num_pages_ r = n /\ Size r <= Z.max 0 n.
Proof.
  unfold Size. induction 1 as [|r Hr [IHn IH]|r f Hr [IHn IH]|r f Hr [IHn IH]].
  - simpl. lia.
  - pose proof (Victim_run r) as Hv. destruct (last (frame_dll_ r)) as [m|].
    + destruct Hv as (l & El & ->). simpl. rewrite El, length_app in IH.
      simpl in IH. lia.
    + by destruct Hv as [_ ->].
  - unfold Pin. destruct (frame_table_ r !! f) as [a|]; [|done]. simpl.
    split; [done|]. pose proof (erase_length a (frame_dll_ r)). lia.
  - unfold Unpin. destruct (Z.leb_spec (num_pages_ r) (Z.of_nat (length (frame_dll_ r))));
      [done|]. destruct (frame_table_ r !! f); [done|]. simpl. lia.
Qed.

Lemma frames_Unpin r f :
  linked r ->
  frames (Unpin f r)
  = if decide (Size r < num_pages_ r /\ f ∉ frames r) then f :: frames r
    else frames r.
Proof.
  intros Hl. unfold Unpin, Size.
  pose proof (linked_table_frames r f Hl) as Htab.
  destruct (Z.leb_spec (num_pages_ r) (Z.of_nat (length (frame_dll_ r)))).
  - rewrite decide_False; [done | lia].
  - destruct (frame_table_ r !! f) as [a|] eqn:E.
    + rewrite decide_False; [done|]. intros [_ Hn]. apply Hn, Htab. by exists a.
    + rewrite decide_True; [done|]. split; [lia|]. intros Hin.
      apply Htab in Hin as [a Ha]. congruence.
Qed.

Lemma frames_Pin r f :
  linked r -> frames (Pin f r) = filter (fun g => g <> f) (frames r).
Proof.
  intros Hl. unfold Pin, frames.
  destruct (frame_table_ r !! f) as [a|] eqn:E; simpl.
  - apply erase_frames.
    + apply (linked_nodup _ Hl).
    + by apply (linked_table _ Hl).
    + intros [b g] Hn Hg. simpl in *. subst g. apply (linked_table _ Hl) in Hn.
      congruence.
  - symmetry. apply filter_all, Forall_forall. intros g Hg ->.
    apply (linked_table_frames r f Hl) in Hg as [a Ha]. congruence.
Qed.

Lemma drain_frames r :
  linked r ->
  drain (length (frame_dll_ r)) r
  = (reverse (frames r),
     {| frame_dll_ := []; frame_table_ := ∅; num_pages_ := num_pages_ r;
        next_node_ := next_node_ r |}).
Proof.
  destruct r as [l t n x]. unfold frames. simpl.
  induction l as [|m l IH] using rev_ind in t |- *; intros Hl.
  - simpl. do 2 f_equal. apply map_empty. intros f.
    destruct (t !! f) as [a|] eqn:E; [|done].
    apply (linked_table _ Hl) in E. simpl in E. inv E.
  - rewrite length_app. simpl. rewrite Nat.add_1_r. simpl.
    pose proof (Victim_run (mk_lru (l ++ [m]) t n x)) as Hv. simpl in Hv.
    rewrite last_snoc in Hv. destruct Hv as (l' & El & Hv).
    apply app_inj_tail in El as [<- _]. rewrite Hv.
    pose proof (linked_Victim _ Hl) as Hl'. rewrite Hv in Hl'. simpl in Hl'.
    rewrite (IH _ Hl'). simpl. by rewrite fmap_app, reverse_app.
Qed.

(** X6. In every state of the LRU replacer the table mirrors the list:
    no frame is twice in the list, the keys of the table are the frames
    of the list, every iterator stored in the table designates a node of
    the list that holds the frame it is stored under (so [Pin] never
    erases through a dangling iterator), and [Size()] is at most
    [num_pages]. *)
Theorem table_mirrors_list num_pages r :
  reachable num_pages r ->
  NoDup (frames r)
  /\ (forall f, is_Some (frame_table_ r !! f) <-> f ∈ frames r)
  /\ (forall f it, frame_table_ r !! f = Some it -> (it, f) ∈ frame_dll_ r)
  /\ size (frame_table_ r) = length (frame_dll_ r)
  /\ Size r <= Z.max 0 num_pages.
Proof.
  intros Hr. pose proof (reachable_linked _ _ Hr) as Hl.
  split; [by apply linked_frames_nodup|].
  split; [intros f; by apply linked_table_frames|].
  split; [intros f it; by apply (linked_table _ Hl)|].
  split; [|apply (reachable_bound _ _ Hr)].
  assert (dom (frame_table_ r) = list_to_set (frames r)) as Hdom.
  { apply set_eq. intros f.
    by rewrite elem_of_dom, elem_of_list_to_set, (linked_table_frames r f Hl). }
  rewrite <- size_dom, Hdom, size_list_to_set by by apply linked_frames_nodup.
  unfold frames. by rewrite length_fmap.
Qed.

Lemma table_mirrors_list_witness :
  let r := Pin 2 (unpin_all [1; 2; 3] (init 4)) in
  NoDup (frames r)
  /\ (forall f, is_Some (frame_table_ r !! f) <-> f ∈ frames r)
  /\ (forall f it, frame_table_ r !! f = Some it -> (it, f) ∈ frame_dll_ r)
  /\ size (frame_table_ r) = length (frame_dll_ r)
  /\ Size r <= Z.max 0 4.
Proof.
  apply (table_mirrors_list 4 (Pin 2 (unpin_all [1; 2; 3] (init 4)))).
  apply reachable_Pin. unfold unpin_all. simpl.
  repeat apply reachable_Unpin. apply reachable_init.
Defined.

(** X7. [Pin] removes the frame from the list by value, although it
    erases through the stored iterator: the frames left are the former
    ones without [frame_id], in the same order, and a following
    [Victim] does not return [frame_id]. *)
Theorem Pin_removes_frame num_pages r f :
  reachable num_pages r ->
  frames (Pin f r) = filter (fun g => g <> f) (frames r)
  /\ frame_table_ (Pin f r) = delete f (frame_table_ r)
  /\ (Victim (Pin f r)).1 <> Some f.
Proof.
  intros Hr. pose proof (reachable_linked _ _ Hr) as Hl.
  pose proof (frames_Pin r f Hl) as Hf. split; [done|]. split.
  - unfold Pin. destruct (frame_table_ r !! f) eqn:E; [done|].
    symmetry. by apply delete_id.
  - pose proof (Victim_run (Pin f r)) as Hv.
    destruct (last (frame_dll_ (Pin f r))) as [n|] eqn:E.
    + destruct Hv as (l & El & ->). simpl. intros [= Hn].
      assert (f ∈ frames (Pin f r)) as Hin.
      { unfold frames. rewrite El, fmap_app, elem_of_app. right.
        simpl. rewrite Hn. by apply list_elem_of_singleton. }
      rewrite Hf in Hin. apply list_elem_of_filter in Hin as [Hne _]. done.
    + by destruct Hv as [_ ->].
Qed.

Lemma Pin_removes_frame_witness :
  let r := unpin_all [1; 2; 3] (init 4) in
  frames (Pin 2 r) = filter (fun g => g <> 2) (frames r)
  /\ frame_table_ (Pin 2 r) = delete 2 (frame_table_ r)
  /\ (Victim (Pin 2 r)).1 <> Some 2.
Proof.
  apply (Pin_removes_frame 4 (unpin_all [1; 2; 3] (init 4)) 2).
  unfold unpin_all. simpl. repeat apply reachable_Unpin. apply reachable_init.
Defined.

(** X8. [Unpin] puts a frame at the front of the list when the list
    holds fewer than [num_pages] frames and the frame is not in it, and
    does nothing otherwise: a frame already in the list keeps its place
    (it is not moved to the front), and a frame given to a full
    replacer is dropped. *)
Theorem Unpin_links_new_frame num_pages r f :
  reachable num_pages r ->
  frames (Unpin f r)
  = if decide (Size r < num_pages /\ f ∉ frames r) then f :: frames r
    else frames r.
Proof.
  intros Hr. rewrite (frames_Unpin r f (reachable_linked _ _ Hr)).
  by destruct (reachable_bound _ _ Hr) as [-> _].
Qed.

Lemma Unpin_links_new_frame_witness :
  let r := unpin_all [1; 2; 3] (init 4) in
  frames (Unpin 2 r)
  = if decide (Size r < 4 /\ 2 ∉ frames r) then 2 :: frames r else frames r.
Proof.
  apply (Unpin_links_new_frame 4 (unpin_all [1; 2; 3] (init 4)) 2).
  unfold unpin_all. simpl. repeat apply reachable_Unpin. apply reachable_init.
Defined.

Lemma frames_unpin_all fs r :
  linked r -> NoDup fs -> (forall f, f ∈ fs -> f ∉ frames r) ->
  Z.of_nat (length fs) + Size r <= num_pages_ r ->
  linked (unpin_all fs r)
  /\ num_pages_ (unpin_all fs r) = num_pages_ r
  /\ next_node_ (unpin_all fs r) = (next_node_ r + length fs)%nat
  /\ frames (unpin_all fs r) = reverse fs ++ frames r.
Proof.
  unfold unpin_all. revert r.
  induction fs as [|f fs IH]; simpl; intros r Hl Hnd Hnew Hlen; [by rewrite Nat.add_0_r|].
  apply NoDup_cons in Hnd as [Hf Hnd].
  assert (Unpin f r = {| frame_dll_ := (next_node_ r, f) :: frame_dll_ r;
                         frame_table_ := <[f := next_node_ r]> (frame_table_ r);
                         num_pages_ := num_pages_ r;
                         next_node_ := S (next_node_ r) |}) as Hu.
  { unfold Unpin, Size in *.
    destruct (Z.leb_spec (num_pages_ r) (Z.of_nat (length (frame_dll_ r)))); [lia|].
    destruct (frame_table_ r !! f) as [a|] eqn:E; [|done].
    exfalso. apply (Hnew f); [left|]. apply (linked_table_frames r f Hl). by exists a. }
  destruct (IH (Unpin f r)) as (Hl' & Hn' & Hx' & Hfs).
  - by apply linked_Unpin.
  - done.
  - intros g Hg. rewrite Hu. unfold frames. simpl. apply not_elem_of_cons. split.
    + intros ->. done.
    + apply Hnew. by right.
  - rewrite Hu. unfold Size in *. simpl. lia.
  - split; [done|]. rewrite Hn', Hx', Hfs, Hu. unfold frames. simpl.
    split; [done|]. split; [lia|]. by rewrite reverse_cons, <- (assoc_L (++)).
Qed.

(** X9. The victims are taken in the order of the [Unpin] calls: after
    [Unpin] of distinct frames, no more than [num_pages] of them, on a
    fresh replacer, as many calls of [Victim] return these frames, the
    one unpinned first coming first, and leave the replacer empty. *)
Theorem Victim_order_is_Unpin_order num_pages fs :
  NoDup fs -> Z.of_nat (length fs) <= num_pages ->
  exists r', drain (length fs) (unpin_all fs (init num_pages)) = (fs, r')
             /\ Size r' = 0 /\ frame_table_ r' = ∅ /\ Victim r' = (None, r').
Proof.
  intros Hnd Hlen.
  destruct (frames_unpin_all fs (init num_pages)) as (Hl & Hn & Hx & Hfs).
  - apply linked_init.
  - done.
  - intros f _ Hin. inv Hin.
  - unfold Size. simpl. lia.
  - pose proof (drain_frames _ Hl) as Hd.
    assert (length (frame_dll_ (unpin_all fs (init num_pages))) = length fs) as Hlen'.
    { rewrite <- (length_fmap snd). fold (frames (unpin_all fs (init num_pages))).
      by rewrite Hfs, app_nil_r, length_reverse. }
    rewrite Hlen', Hfs, app_nil_r, reverse_involutive in Hd.
    eexists. split; [exact Hd|]. done.
Qed.

Lemma Victim_order_is_Unpin_order_witness :
  exists r', drain (length [5; 1; 3]) (unpin_all [5; 1; 3] (init 4)) = ([5; 1; 3], r')
             /\ Size r' = 0 /\ frame_table_ r' = ∅ /\ Victim r' = (None, r').
Proof.
  apply (Victim_order_is_Unpin_order 4 [5; 1; 3]).
  - apply NoDup_ListNoDup. repeat constructor; simpl; intuition lia.
  - simpl. lia.
Defined.

End LruProps.

(** ** Further invariants of the buffer pool *)

Module BpmInvProps.
Import Replacer Bpm BpmProps BpmInv.

Lemma tidy_same b b' :
  free_list_ b' = free_list_ b -> page_table_ b' = page_table_ b ->
  node_store_ (replacer_ b') = node_store_ (replacer_ b) ->
  (forall f, pin_count_ (page_at b' f) = pin_count_ (page_at b f)) ->
  tidy b -> tidy b'.
Proof.
  intros H1 H2 H3 H4 [Hnd Hfr Hev].
  split; rewrite ?H1, ?H2, ?H3; [done| |]; intros f; rewrite ?H4; [apply Hfr | apply Hev].
Qed.

Lemma pin_count_update_meta b f g h :
  (forall pg, pin_count_ (g pg) = pin_count_ pg) ->
  pin_count_ (page_at (update_page f g b) h) = pin_count_ (page_at b h).
Proof.
  intros Hg. destruct (page_at_update_cases b f g h) as [->| ->]; [done | apply Hg].
Qed.

Lemma tidy_update_meta b f g :
  (forall pg, pin_count_ (g pg) = pin_count_ pg) -> tidy b -> tidy (update_page f g b).
Proof. intros Hg. apply tidy_same; try done. intros h. by apply pin_count_update_meta. Qed.

Lemma tidy_DiskSchedule w f p b : tidy b -> tidy (after (DiskSchedule w f p) b).
Proof.
  unfold after, DiskSchedule. destruct w; simpl.
  - by apply tidy_same.
  - destruct (disk_ _ !! p); simpl.
    + intros Ht. apply tidy_update_meta; [done|]. revert Ht. by apply tidy_same.
    + by apply tidy_same.
Qed.

Lemma tidy_flush_victim f b : tidy b -> tidy (flush_victim f b).
Proof. unfold flush_victim. case_match; [apply tidy_DiskSchedule | done]. Qed.

Lemma inv_injective b p q f :
  inv b -> page_table_ b !! p = Some f -> page_table_ b !! q = Some f -> p = q.
Proof.
  intros Hinv Hp Hq.
  destruct (inv_table _ Hinv p f Hp) as (_ & <- & _).
  by destruct (inv_table _ Hinv q f Hq) as (_ & <- & _).
Qed.

(** The frame [RequestFrameId] hands out is not pinned, and is neither
    free nor tracked afterwards. *)
Lemma tidy_RequestFrameId b f b1 :
  inv b -> tidy b -> RequestFrameId b = Normal f b1 -> f <> INVALID_FRAME_ID ->
  tidy b1 /\ (f ∉ free_list_ b1) /\ pin_count_ (page_at b f) = 0
  /\ node_store_ (replacer_ b1) !! f = None.
Proof.
  intros Hinv [Hnd Hfr Hev] Hreq Hvalid.
  destruct (RequestFrameId_cases b Hinv)
    as [(f0 & rest & Hfl & Hrun)|[(v & nv & Hfl & Hnv & Hevt & Hrun)|[Hfl Hrun]]];
    rewrite Hrun in Hreq; injection Hreq as <- <-; [| |done].
  - rewrite Hfl in Hnd. apply NoDup_cons in Hnd as [Hf0 Hrest].
    destruct (Hfr f0) as (_ & Hpin & Hnone); [rewrite Hfl; left|].
    split; [|done]. split; simpl; [done| |done].
    intros g Hg. apply Hfr. rewrite Hfl. by right.
  - split; [|split; [simpl; rewrite Hfl; apply not_elem_of_nil|]].
    + split; simpl.
      * done.
      * intros g Hg. rewrite Hfl in Hg. inv Hg.
      * intros g n [_ Hg]%lookup_delete_Some. by apply Hev.
    + split; [by apply (Hev v nv) | simpl; apply lookup_delete_eq].
Qed.

Lemma tidy_claim b f page_id :
  inv b -> 0 <= f < pool_size_ b -> tidy b -> f ∉ free_list_ b ->
  tidy (claim f page_id b).
Proof.
  intros Hinv Hf [Hnd Hfr Hev] Hnf. pose proof (in_pool b f Hinv Hf) as [Hlt Hr].
  destruct (SetEvictable_in_range (replacer_ b) f false Hr) as (r1 & Hr1 & Hsz1 & Hst1).
  assert (Hr1' : out_of_range r1 f = false).
  { unfold out_of_range in *. by rewrite Hsz1. }
  destruct (RecordAccess_in_range r1 f Hr1')
    as (r2 & nd & Hr2 & Hsz2 & Hst2 & Hfid & Hflag).
  assert (Hrep : after (RecordAccess f) (after (SetEvictable f false) (replacer_ b)) = r2).
  { unfold after. rewrite Hr1. simpl. by rewrite Hr2. }
  assert (Hother : forall g, g <> f ->
            node_store_ r2 !! g = node_store_ (replacer_ b) !! g).
  { intros g Hg. rewrite Hst2, lookup_insert_ne by done. rewrite Hst1.
    by rewrite decide_False. }
  assert (Hnd_f : is_evictable_ nd = false).
  { rewrite Hflag. unfold at_. rewrite Hst1, decide_True by done.
    by destruct (node_store_ (replacer_ b) !! f). }
  assert (Hpg : forall g, 0 <= g -> g <> f ->
            page_at (claim f page_id b) g = page_at b g).
  { intros g Hg Hgf. unfold claim.
    transitivity (page_at (update_page f (fresh_page page_id) b) g); [done|].
    apply page_at_update_ne; lia. }
  split.
  - done.
  - intros g Hg. assert (g <> f) as Hgf by (intros ->; done).
    destruct (Hfr g Hg) as (Hres & Hpin & Hnone).
    pose proof (inv_free _ Hinv g Hg) as Hrange.
    rewrite Hpg by lia. split; [|split; [done|]].
    + intros p. unfold claim. simpl. rewrite lookup_insert. case_decide.
      * congruence.
      * intros [_ Hp]%lookup_delete_Some. by apply (Hres p).
    + unfold claim. simpl. rewrite Hrep, Hother; done.
  - intros g n. unfold claim at 1. simpl. rewrite Hrep.
    destruct (decide (g = f)) as [->|Hgf].
    + rewrite Hst2, lookup_insert_eq. intros [= <-]. congruence.
    + rewrite Hother by done. intros Hn He.
      destruct (inv_nodes _ Hinv g n Hn) as [_ Hrange].
      rewrite Hpg by lia. by apply (Hev g n).
Qed.

Lemma RequestFrameId_normal b :
  inv b -> exists f b1, RequestFrameId b = Normal f b1.
Proof.
  intros Hinv. destruct (RequestFrameId_cases b Hinv)
    as [(? & ? & _ & Hrun)|[(? & ? & _ & _ & _ & Hrun)|[_ Hrun]]]; eauto.
Qed.

Lemma NewPage_tidy b : inv b -> tidy b -> tidy (state_of (NewPage b)).
Proof.
  intros Hinv Ht. destruct (RequestFrameId_normal b Hinv) as (f & b1 & Hreq).
  destruct (inv_RequestFrameId b f b1 Hinv Hreq) as [Hinv1 [[-> ->]|[Hf Hvalid]]].
  - by rewrite (NewPage_full b Hreq).
  - pose proof (in_pool b1 f Hinv1 Hf) as [_ Hr].
    destruct (tidy_RequestFrameId b f b1 Hinv Ht Hreq Hvalid) as (Ht1 & Hnf & _).
    rewrite (NewPage_run b f b1 Hreq Hvalid Hr). simpl.
    apply (tidy_same (claim f (next_page_id_ b1) (flush_victim f b1))); try done.
    destruct (flush_victim_same b1 f) as (Hps & _ & Hfl & _).
    apply tidy_claim.
    + by apply inv_flush_victim.
    + by rewrite Hps.
    + by apply tidy_flush_victim.
    + by rewrite Hfl.
Qed.

Lemma FetchPage_tidy b p : inv b -> tidy b -> tidy (state_of (FetchPage p b)).
Proof.
  intros Hinv Ht. destruct (page_table_ b !! p) as [f|] eqn:Hp.
  - destruct (inv_table b Hinv p f Hp) as (Hf & Hid & Hpin & Hz).
    pose proof (in_pool b f Hinv Hf) as [Hlt Hr].
    rewrite (FetchPage_hit_run b p f Hp Hr). simpl.
    destruct (SetEvictable_in_range (replacer_ b) f false Hr)
      as (r1 & Hr1 & Hsz1 & Hst1).
    assert (Hr1' : out_of_range r1 f = false).
    { unfold out_of_range in *. by rewrite Hsz1. }
    destruct (RecordAccess_in_range r1 f Hr1')
      as (r2 & nd & Hr2 & Hsz2 & Hst2 & Hfid & Hflag).
    assert (Hrep : after (RecordAccess f) (after (SetEvictable f false) (replacer_ b)) = r2).
    { unfold after. rewrite Hr1. simpl. by rewrite Hr2. }
    rewrite Hrep.
    assert (Hother : forall g, g <> f ->
              node_store_ r2 !! g = node_store_ (replacer_ b) !! g).
    { intros g Hg. rewrite Hst2, lookup_insert_ne by done. rewrite Hst1.
      by rewrite decide_False. }
    assert (Hnd_f : is_evictable_ nd = false).
    { rewrite Hflag. unfold at_. rewrite Hst1, decide_True by done.
      by destruct (node_store_ (replacer_ b) !! f). }
    set (up := fun pg => set_pin_count (pin_count_ pg + 1) pg).
    assert (Hpg : forall g, 0 <= g -> g <> f ->
              page_at (set_replacer r2 (update_page f up b)) g = page_at b g).
    { intros g Hg Hgf.
      transitivity (page_at (update_page f up b) g); [done|].
      apply page_at_update_ne; lia. }
    destruct Ht as [Hnd Hfr Hev]. split; simpl.
    + done.
    + intros g Hg. destruct (Hfr g Hg) as (Hres & Hpin0 & Hnone).
      assert (g <> f) as Hgf by (intros ->; by apply (Hres p)).
      pose proof (inv_free _ Hinv g Hg) as Hrange.
      rewrite Hpg by lia. by rewrite Hother.
    + intros g n. destruct (decide (g = f)) as [->|Hgf].
      * rewrite Hst2, lookup_insert_eq. intros [= <-]. congruence.
      * rewrite Hother by done. intros Hn He.
        destruct (inv_nodes _ Hinv g n Hn) as [_ Hrange].
        rewrite Hpg by lia. by apply (Hev g n).
  - destruct (RequestFrameId_normal b Hinv) as (f & b1 & Hreq).
    destruct (inv_RequestFrameId b f b1 Hinv Hreq) as [Hinv1 [[-> ->]|[Hf Hvalid]]].
    + by rewrite (FetchPage_full b p Hp Hreq).
    + pose proof (in_pool b1 f Hinv1 Hf) as [_ Hr].
      destruct (tidy_RequestFrameId b f b1 Hinv Ht Hreq Hvalid) as (Ht1 & Hnf & _).
      rewrite (FetchPage_miss_run b p f b1 Hp Hreq Hvalid Hr). simpl.
      apply tidy_DiskSchedule.
      destruct (flush_victim_same b1 f) as (Hps & _ & Hfl & _).
      apply tidy_claim.
      * by apply inv_flush_victim.
      * by rewrite Hps.
      * by apply tidy_flush_victim.
      * by rewrite Hfl.
Qed.

Lemma UnpinPage_tidy b p d : inv b -> tidy b -> tidy (state_of (UnpinPage p d b)).
Proof.
  intros Hinv Ht. destruct (page_table_ b !! p) as [f|] eqn:Hp.
  2:{ by rewrite (UnpinPage_absent b p d Hp). }
  destruct (decide (pin_count_ (page_at b f) <= 0)) as [Hle|Hgt].
  { by rewrite (UnpinPage_unpinned b p f d Hp Hle). }
  destruct (inv_table b Hinv p f Hp) as (Hf & Hid & Hpin & Hz).
  pose proof (in_pool b f Hinv Hf) as [Hlt Hr].
  rewrite (UnpinPage_run b p f d) by (try done; lia). simpl.
  destruct (SetEvictable_in_range (replacer_ b) f true Hr)
    as (r1 & Hr1 & Hsz1 & Hst1).
  set (R := if pin_count_ (page_at b f) - 1 =? 0
            then after (SetEvictable f true) (replacer_ b) else replacer_ b).
  set (g := fun pg => set_is_dirty d (set_pin_count (pin_count_ pg - 1) pg)).
  assert (HR : forall h n, node_store_ R !! h = Some n ->
             exists n0, node_store_ (replacer_ b) !! h = Some n0
               /\ (is_evictable_ n = is_evictable_ n0
                   \/ h = f /\ pin_count_ (page_at b f) - 1 = 0)).
  { subst R. destruct (pin_count_ (page_at b f) - 1 =? 0) eqn:E.
    - apply Z.eqb_eq in E. unfold after. rewrite Hr1. simpl.
      intros h n. rewrite Hst1. case_decide as Hh.
      + subst h. destruct (node_store_ (replacer_ b) !! f) as [n0|]; [|done].
        simpl. intros [= <-]. exists n0. split; [done|]. by right.
      + intros Hn. exists n. split; [done|]. by left.
    - intros h n Hn. exists n. split; [done|]. by left. }
  assert (Hpf : page_at (update_page f g (set_replacer R b)) f = g (page_at b f)).
  { by rewrite page_at_update_eq. }
  assert (Hpg : forall h, 0 <= h -> h <> f ->
            page_at (update_page f g (set_replacer R b)) h = page_at b h).
  { intros h Hh Hhf. rewrite page_at_update_ne by lia. done. }
  destruct Ht as [Hnd Hfr Hev]. split; simpl.
  - done.
  - intros h Hh. destruct (Hfr h Hh) as (Hres & Hpin0 & Hnone).
    assert (h <> f) as Hhf by (intros ->; by apply (Hres p)).
    pose proof (inv_free _ Hinv h Hh) as Hrange.
    rewrite Hpg by lia. split; [done|]. split; [done|].
    destruct (node_store_ R !! h) as [n|] eqn:En; [|done].
    destruct (HR h n En) as (n0 & Hn0 & _). congruence.
  - intros h n Hn He. destruct (HR h n Hn) as (n0 & Hn0 & Hflag).
    destruct (inv_nodes _ Hinv h n0 Hn0) as [_ Hrange].
    destruct (decide (h = f)) as [->|Hhf].
    + rewrite Hpf. subst g. simpl.
      destruct Hflag as [Hsame|[_ Hzero]]; [|done].
      rewrite Hsame in He. pose proof (Hev f n0 Hn0 He). lia.
    + rewrite Hpg by lia. destruct Hflag as [Hsame|[? _]]; [|done].
      apply (Hev h n0 Hn0). congruence.
Qed.

Lemma FlushPage_tidy b p : tidy b -> tidy (state_of (FlushPage p b)).
Proof.
  intros Ht. destruct (page_table_ b !! p) as [f|] eqn:Hp.
  - rewrite (FlushPage_run b p f Hp). simpl.
    apply tidy_update_meta; [done|]. by apply tidy_DiskSchedule.
  - by rewrite (FlushPage_absent b p Hp).
Qed.

Lemma flush_frames_tidy order : forall b,
  tidy b -> tidy (state_of (flush_frames order b)).
Proof.
  induction order as [|[q f] rest IH]; intros b Ht; simpl; [done|].
  unfold bind. rewrite flush_frame_run. apply IH.
  apply tidy_update_meta; [done|]. by apply tidy_DiskSchedule.
Qed.

Lemma DeletePage_tidy b p : inv b -> tidy b -> tidy (state_of (DeletePage p b)).
Proof.
  intros Hinv Ht. destruct (page_table_ b !! p) as [f|] eqn:Hp.
  2:{ by rewrite (DeletePage_absent b p Hp). }
  destruct (decide (0 < pin_count_ (page_at b f))) as [Hgt|Hle].
  { by rewrite (DeletePage_pinned b p f Hp Hgt). }
  destruct (inv_table b Hinv p f Hp) as (Hf & Hid & Hpin & Hz).
  pose proof (in_pool b f Hinv Hf) as [Hlt Hr].
  assert (Hevf : forall n, node_store_ (replacer_ b) !! f = Some n -> is_evictable_ n = true).
  { apply Hz. lia. }
  rewrite (DeletePage_run b p f) by (try done; lia). simpl.
  destruct (Remove_in_range (replacer_ b) f Hr Hevf) as (r' & Hr' & Hsz & Hst).
  unfold after. rewrite Hr'. simpl.
  set (g := fun pg => set_is_dirty false (set_pin_count 0
                        (set_page_id INVALID_PAGE_ID (ResetMemory pg)))).
  set (b0 := set_free_list (free_list_ b ++ [f])
               (set_replacer r' (set_page_table (delete p (page_table_ b)) b))).
  apply (tidy_same (update_page f g b0)); try done.
  assert (Hpf : page_at (update_page f g b0) f = g (page_at b f)).
  { by rewrite page_at_update_eq. }
  assert (Hpg : forall h, 0 <= h -> h <> f -> page_at (update_page f g b0) h = page_at b h).
  { intros h Hh Hhf. rewrite page_at_update_ne by lia. done. }
  destruct Ht as [Hnd Hfr Hev]. split; simpl.
  - apply NoDup_app. split; [done|]. split; [|apply NoDup_singleton].
    intros h Hh ->%list_elem_of_singleton. destruct (Hfr f Hh) as (Hres & _).
    by apply (Hres p).
  - intros h [Hh| ->%list_elem_of_singleton]%elem_of_app.
    + destruct (Hfr h Hh) as (Hres & Hpin0 & Hnone).
      assert (h <> f) as Hhf by (intros ->; by apply (Hres p)).
      pose proof (inv_free _ Hinv h Hh) as Hrange.
      rewrite Hpg by lia. split; [|split; [done|]].
      * intros q [_ Hq]%lookup_delete_Some. by apply (Hres q).
      * rewrite Hst. by rewrite lookup_delete_ne.
    + rewrite Hpf. split; [|split; [done|]].
      * intros q [Hqp Hq]%lookup_delete_Some. apply Hqp.
        by apply (inv_injective b p q f).
      * rewrite Hst. apply lookup_delete_eq.
  - intros h n. rewrite Hst. intros [Hhf Hn]%lookup_delete_Some He.
    destruct (inv_nodes _ Hinv h n Hn) as [_ Hrange].
    rewrite Hpg by lia. by apply (Hev h n).
Qed.

Lemma write_data_tidy b f d : tidy b -> tidy (write_data f d b).
Proof.
  intros Ht. unfold write_data. case_bool_decide; [|done]. by apply tidy_update_meta.
Qed.

Lemma init_tidy pool_size page_size k disk :
  Z.of_nat pool_size < 2 ^ 31 -> tidy (init pool_size page_size k disk).
Proof.
  intros Hsz. split; simpl.
  - apply NoDup_fmap_2_strong; [|apply NoDup_seq].
    intros x y Hx%elem_of_seq Hy%elem_of_seq.
    rewrite !wrap_int32_small by lia. lia.
  - intros f Hf. split; [intros p; by rewrite lookup_empty|]. split; [|done].
    unfold page_at. simpl.
    destruct (repeat _ pool_size !! Z.to_nat f) as [pg|] eqn:E; [|done].
    apply list_elem_of_lookup_2, list_elem_of_In, repeat_spec in E. by subst pg.
  - intros f n. by rewrite lookup_empty.
Qed.

Lemma reachable_tidy b : reachable b -> tidy b.
Proof.
  induction 1 as [| b Hb IH | b p Hb IH | b p d Hb IH | b p Hb IH | b order Hb IH Hperm
                  | b p Hb IH | b f d Hb IH].
  - by apply init_tidy.
  - apply NewPage_tidy; [by apply reachable_inv | done].
  - apply FetchPage_tidy; [by apply reachable_inv | done].
  - apply UnpinPage_tidy; [by apply reachable_inv | done].
  - by apply FlushPage_tidy.
  - unfold FlushAllPages_in. by apply flush_frames_tidy.
  - apply DeletePage_tidy; [by apply reachable_inv | done].
  - by apply write_data_tidy.
Qed.

(** *** Resident frames are tracked *)

Lemma tracked_same b b' :
  page_table_ b' = page_table_ b ->
  node_store_ (replacer_ b') = node_store_ (replacer_ b) ->
  tracked b -> tracked b'.
Proof. intros H1 H2 Ht p f. rewrite H1, H2. apply Ht. Qed.

Lemma tracked_DiskSchedule w f p b : tracked b -> tracked (after (DiskSchedule w f p) b).
Proof.
  unfold after, DiskSchedule. destruct w; simpl; [by apply tracked_same|].
  destruct (disk_ _ !! p); simpl; by apply tracked_same.
Qed.

Lemma tracked_claim b f page_id :
  inv b -> 0 <= f < pool_size_ b ->
  (forall p g, page_table_ b !! p = Some g -> g <> f ->
     is_Some (node_store_ (replacer_ b) !! g)) ->
  tracked (claim f page_id b).
Proof.
  intros Hinv Hf Ht. pose proof (in_pool b f Hinv Hf) as [Hlt Hr].
  destruct (SetEvictable_in_range (replacer_ b) f false Hr) as (r1 & Hr1 & Hsz1 & Hst1).
  assert (Hr1' : out_of_range r1 f = false).
  { unfold out_of_range in *. by rewrite Hsz1. }
  destruct (RecordAccess_in_range r1 f Hr1')
    as (r2 & nd & Hr2 & Hsz2 & Hst2 & Hfid & Hflag).
  assert (Hrep : after (RecordAccess f) (after (SetEvictable f false) (replacer_ b)) = r2).
  { unfold after. rewrite Hr1. simpl. by rewrite Hr2. }
  intros p g. unfold claim. simpl. rewrite Hrep, Hst2.
  rewrite lookup_insert. case_decide as Hp.
  - intros [= <-]. rewrite lookup_insert_eq. by eexists.
  - intros [Hne Hpg]%lookup_delete_Some.
    assert (g <> f) as Hgf.
    { intros ->. apply Hne. by destruct (inv_table _ Hinv p f Hpg) as (_ & -> & _). }
    rewrite lookup_insert_ne by done. rewrite Hst1, decide_False by done.
    by apply (Ht p g).
Qed.

Lemma tracked_RequestFrameId b f b1 p g :
  inv b -> tracked b -> RequestFrameId b = Normal f b1 ->
  page_table_ b1 !! p = Some g -> g <> f ->
  is_Some (node_store_ (replacer_ b1) !! g).
Proof.
  intros Hinv Ht Hreq Hp Hgf.
  destruct (RequestFrameId_cases b Hinv)
    as [(f0 & rest & Hfl & Hrun)|[(v & nv & Hfl & Hnv & Hevt & Hrun)|[Hfl Hrun]]];
    rewrite Hrun in Hreq; injection Hreq as <- <-; simpl in *.
  - by apply (Ht p g).
  - rewrite lookup_delete_ne by done. by apply (Ht p g).
  - by apply (Ht p g).
Qed.

Lemma tracked_miss b f b1 page_id :
  inv b -> tracked b -> RequestFrameId b = Normal f b1 -> f <> INVALID_FRAME_ID ->
  tracked (claim f page_id (flush_victim f b1)).
Proof.
  intros Hinv Ht Hreq Hvalid.
  destruct (inv_RequestFrameId b f b1 Hinv Hreq) as [Hinv1 [[-> _]|[Hf _]]]; [done|].
  destruct (flush_victim_same b1 f) as (Hps & _ & _ & Htab & Hrep & _).
  apply tracked_claim.
  - by apply inv_flush_victim.
  - by rewrite Hps.
  - intros p g. rewrite Htab, Hrep. by apply (tracked_RequestFrameId b f b1).
Qed.

Lemma NewPage_tracked b : inv b -> tracked b -> tracked (state_of (NewPage b)).
Proof.
  intros Hinv Ht. destruct (RequestFrameId_normal b Hinv) as (f & b1 & Hreq).
  destruct (inv_RequestFrameId b f b1 Hinv Hreq) as [Hinv1 [[-> ->]|[Hf Hvalid]]].
  - by rewrite (NewPage_full b Hreq).
  - pose proof (in_pool b1 f Hinv1 Hf) as [_ Hr].
    rewrite (NewPage_run b f b1 Hreq Hvalid Hr). simpl.
    apply (tracked_same (claim f (next_page_id_ b1) (flush_victim f b1))); try done.
    by apply (tracked_miss b).
Qed.

Lemma FetchPage_tracked b p : inv b -> tracked b -> tracked (state_of (FetchPage p b)).
Proof.
  intros Hinv Ht. destruct (page_table_ b !! p) as [f|] eqn:Hp.
  - destruct (inv_table b Hinv p f Hp) as (Hf & Hid & Hpin & Hz).
    pose proof (in_pool b f Hinv Hf) as [Hlt Hr].
    rewrite (FetchPage_hit_run b p f Hp Hr). simpl.
    destruct (SetEvictable_in_range (replacer_ b) f false Hr)
      as (r1 & Hr1 & Hsz1 & Hst1).
    assert (Hr1' : out_of_range r1 f = false).
    { unfold out_of_range in *. by rewrite Hsz1. }
    destruct (RecordAccess_in_range r1 f Hr1')
      as (r2 & nd & Hr2 & Hsz2 & Hst2 & Hfid & Hflag).
    assert (Hrep : after (RecordAccess f) (after (SetEvictable f false) (replacer_ b)) = r2).
    { unfold after. rewrite Hr1. simpl. by rewrite Hr2. }
    rewrite Hrep. intros q g Hq. simpl in *. rewrite Hst2, lookup_insert.
    case_decide; [by eexists|]. rewrite Hst1, decide_False by done. by apply (Ht q g).
  - destruct (RequestFrameId_normal b Hinv) as (f & b1 & Hreq).
    destruct (inv_RequestFrameId b f b1 Hinv Hreq) as [Hinv1 [[-> ->]|[Hf Hvalid]]].
    + by rewrite (FetchPage_full b p Hp Hreq).
    + pose proof (in_pool b1 f Hinv1 Hf) as [_ Hr].
      rewrite (FetchPage_miss_run b p f b1 Hp Hreq Hvalid Hr). simpl.
      apply tracked_DiskSchedule. by apply (tracked_miss b).
Qed.

Lemma UnpinPage_tracked b p d : inv b -> tracked b -> tracked (state_of (UnpinPage p d b)).
Proof.
  intros Hinv Ht. destruct (page_table_ b !! p) as [f|] eqn:Hp.
  2:{ by rewrite (UnpinPage_absent b p d Hp). }
  destruct (decide (pin_count_ (page_at b f) <= 0)) as [Hle|Hgt].
  { by rewrite (UnpinPage_unpinned b p f d Hp Hle). }
  destruct (inv_table b Hinv p f Hp) as (Hf & Hid & Hpin & Hz).
  pose proof (in_pool b f Hinv Hf) as [Hlt Hr].
  rewrite (UnpinPage_run b p f d) by (try done; lia). simpl.
  destruct (SetEvictable_in_range (replacer_ b) f true Hr)
    as (r1 & Hr1 & Hsz1 & Hst1).
  intros q g Hq. simpl in *. specialize (Ht q g Hq).
  destruct (pin_count_ (page_at b f) - 1 =? 0); [|done].
  unfold after. rewrite Hr1. simpl. rewrite Hst1. case_decide; [|done].
  subst g. destruct Ht as [n ->]. by eexists.
Qed.

Lemma FlushPage_tracked b p : tracked b -> tracked (state_of (FlushPage p b)).
Proof.
  intros Ht. destruct (page_table_ b !! p) as [f|] eqn:Hp.
  - rewrite (FlushPage_run b p f Hp). simpl.
    apply (tracked_same (after (DiskSchedule true f (page_id_ (page_at b f))) b));
      [done|done|]. by apply tracked_DiskSchedule.
  - by rewrite (FlushPage_absent b p Hp).
Qed.

Lemma flush_frames_tracked order : forall b,
  tracked b -> tracked (state_of (flush_frames order b)).
Proof.
  induction order as [|[q f] rest IH]; intros b Ht; simpl; [done|].
  unfold bind. rewrite flush_frame_run. apply IH.
  apply (tracked_same (after (DiskSchedule true f (page_id_ (page_at b f))) b));
    [done|done|]. by apply tracked_DiskSchedule.
Qed.

Lemma DeletePage_tracked b p : inv b -> tracked b -> tracked (state_of (DeletePage p b)).
Proof.
  intros Hinv Ht. destruct (page_table_ b !! p) as [f|] eqn:Hp.
  2:{ by rewrite (DeletePage_absent b p Hp). }
  destruct (decide (0 < pin_count_ (page_at b f))) as [Hgt|Hle].
  { by rewrite (DeletePage_pinned b p f Hp Hgt). }
  destruct (inv_table b Hinv p f Hp) as (Hf & Hid & Hpin & Hz).
  pose proof (in_pool b f Hinv Hf) as [Hlt Hr].
  assert (Hevf : forall n, node_store_ (replacer_ b) !! f = Some n -> is_evictable_ n = true).
  { apply Hz. lia. }
  rewrite (DeletePage_run b p f) by (try done; lia). simpl.
  destruct (Remove_in_range (replacer_ b) f Hr Hevf) as (r' & Hr' & Hsz & Hst).
  unfold after. rewrite Hr'. intros q g. simpl. rewrite Hst.
  intros [Hqp Hq]%lookup_delete_Some.
  rewrite lookup_delete_ne; [by apply (Ht q g)|].
  intros ->. apply Hqp. by apply (inv_injective b p q g).
Qed.

Lemma write_data_tracked b f d : tracked b -> tracked (write_data f d b).
Proof. unfold write_data. case_bool_decide; [|done]. by apply tracked_same. Qed.

Lemma reachable_tracked b : reachable b -> tracked b.
Proof.
  induction 1 as [| b Hb IH | b p Hb IH | b p d Hb IH | b p Hb IH | b order Hb IH Hperm
                  | b p Hb IH | b f d Hb IH].
  - intros p f. simpl. by rewrite lookup_empty.
  - apply NewPage_tracked; [by apply reachable_inv | done].
  - apply FetchPage_tracked; [by apply reachable_inv | done].
  - apply UnpinPage_tracked; [by apply reachable_inv | done].
  - by apply FlushPage_tracked.
  - unfold FlushAllPages_in. by apply flush_frames_tracked.
  - apply DeletePage_tracked; [by apply reachable_inv | done].
  - by apply write_data_tracked.
Qed.

End BpmInvProps.


(** ** Further properties of the buffer pool *)

Module BpmMore.
Import Replacer Bpm BpmProps BpmInv BpmInvProps.

(** X10. In every state of the pool, the public member functions return
    normally: the exceptions of the replacer ([OUT_OF_RANGE], and
    [INVALID] for [Remove] of a frame that is not evictable) never leave
    the pool. *)
Theorem public_calls_return b :
  reachable b ->
  (exists res b', NewPage b = Normal res b')
  /\ (forall p, exists res b', FetchPage p b = Normal res b')
  /\ (forall p d, exists res b', UnpinPage p d b = Normal res b')
  /\ (forall p, exists res b', FlushPage p b = Normal res b')
  /\ (forall order, order ≡ₚ map_to_list (page_table_ b) ->
        exists b', FlushAllPages_in order b = Normal tt b')
  /\ (forall p, exists res b', DeletePage p b = Normal res b').
Proof.
  intros Hinv%reachable_inv.
  split; [destruct (NewPage_inv b Hinv) as (r & b' & H & _); eauto|].
  split; [intros p; destruct (FetchPage_inv b p Hinv) as (r & b' & H & _); eauto|].
  split; [intros p d; destruct (UnpinPage_inv b p d Hinv) as (r & b' & H & _); eauto|].
  split; [intros p; destruct (FlushPage_inv b p Hinv) as (r & b' & H & _); eauto|].
  split; [intros order _; destruct (FlushAllPages_in_inv order b Hinv) as (b' & H & _); eauto|].
  intros p; destruct (DeletePage_inv b p Hinv) as (r & b' & H & _); eauto.
Qed.

Lemma public_calls_return_witness :
  (exists res b', NewPage pool_two_pages = Normal res b')
  /\ (forall p, exists res b', FetchPage p pool_two_pages = Normal res b')
  /\ (forall p d, exists res b', UnpinPage p d pool_two_pages = Normal res b')
  /\ (forall p, exists res b', FlushPage p pool_two_pages = Normal res b')
  /\ (forall order, order ≡ₚ map_to_list (page_table_ pool_two_pages) ->
        exists b', FlushAllPages_in order pool_two_pages = Normal tt b')
  /\ (forall p, exists res b', DeletePage p pool_two_pages = Normal res b').
Proof. apply (public_calls_return pool_two_pages). unfold pool_two_pages. reach. Defined.

Lemma range_length (l : list Z) n :
  NoDup l -> (forall x, x ∈ l -> 0 <= x < Z.of_nat n) -> (length l <= n)%nat.
Proof.
  intros Hnd Hin.
  assert (l ⊆+ seqZ 0 (Z.of_nat n)) as Hsub.
  { apply NoDup_submseteq; [done|]. intros x Hx. apply elem_of_seqZ.
    specialize (Hin x Hx). lia. }
  apply submseteq_length in Hsub. rewrite length_seqZ in Hsub. lia.
Qed.

Lemma owned_nodup b : inv b -> tidy b -> NoDup (owned b).
Proof.
  intros Hinv [Hnd Hfr Hev]. apply NoDup_app. split; [done|]. split.
  - intros f Hf [[p g] [-> Hpg]]%list_elem_of_fmap. simpl in *.
    apply elem_of_map_to_list in Hpg. destruct (Hfr g Hf) as (Hres & _).
    by apply (Hres p).
  - apply NoDup_fmap_2_strong; [|apply NoDup_map_to_list].
    intros [p f] [q g] Hp%elem_of_map_to_list Hq%elem_of_map_to_list Heq.
    simpl in *. subst g. f_equal. by apply (inv_injective b p q f).
Qed.

Lemma owned_range b f : inv b -> f ∈ owned b -> 0 <= f < pool_size_ b.
Proof.
  intros Hinv [Hf|Hf]%elem_of_app; [by apply (inv_free _ Hinv)|].
  apply list_elem_of_fmap in Hf as [[p g] [-> Hpg]]. simpl.
  apply elem_of_map_to_list in Hpg. by destruct (inv_table _ Hinv p g Hpg).
Qed.

Lemma owned_length b :
  length (owned b) = (length (free_list_ b) + size (page_table_ b))%nat.
Proof. unfold owned. by rewrite length_app, length_fmap, length_map_to_list. Qed.

(** X11. In every state of the pool a frame has one owner at most: the
    free list holds no frame twice, no two resident pages share a
    frame, and a free frame holds no resident page, is not pinned and
    has no node in the replacer; so the resident pages and the free
    frames together are never more than [pool_size_]. *)
Theorem frame_has_one_owner b :
  reachable b ->
  NoDup (free_list_ b)
  /\ (forall p q f, page_table_ b !! p = Some f -> page_table_ b !! q = Some f -> p = q)
  /\ (forall f, f ∈ free_list_ b ->
        (forall p, page_table_ b !! p <> Some f)
        /\ pin_count_ (page_at b f) = 0
        /\ node_store_ (replacer_ b) !! f = None)
  /\ Z.of_nat (length (free_list_ b)) + Z.of_nat (size (page_table_ b)) <= pool_size_ b.
Proof.
  intros Hr. pose proof (reachable_inv _ Hr) as Hinv.
  pose proof (reachable_tidy _ Hr) as Ht.
  split; [apply (tidy_nodup _ Ht)|].
  split; [intros p q f; by apply inv_injective|].
  split; [apply (tidy_free _ Ht)|].
  destruct (inv_size _ Hinv) as (_ & Hlen & _).
  assert (length (owned b) <= length (pages_ b))%nat as Hle.
  { apply range_length; [by apply owned_nodup|]. rewrite <- Hlen.
    intros f Hf. by apply owned_range. }
  rewrite owned_length in Hle. lia.
Qed.

Lemma frame_has_one_owner_witness :
  let b := after (DeletePage 0) pool_two_pages in
  NoDup (free_list_ b)
  /\ (forall p q f, page_table_ b !! p = Some f -> page_table_ b !! q = Some f -> p = q)
  /\ (forall f, f ∈ free_list_ b ->
        (forall p, page_table_ b !! p <> Some f)
        /\ pin_count_ (page_at b f) = 0
        /\ node_store_ (replacer_ b) !! f = None)
  /\ Z.of_nat (length (free_list_ b)) + Z.of_nat (size (page_table_ b)) <= pool_size_ b.
Proof.
  apply (frame_has_one_owner (after (DeletePage 0) pool_two_pages)).
  unfold pool_two_pages, after.
  apply reach_DeletePage, reach_UnpinPage, reach_NewPage, reach_NewPage, reach_init.
  vm_compute. reflexivity.
Defined.

(** X12. In every state of the pool the frame of a resident page has a
    node in the replacer, and this node is evictable exactly when the
    page's pin count is 0. *)
Theorem evictable_iff_unpinned b p f :
  reachable b -> page_table_ b !! p = Some f ->
  exists n, node_store_ (replacer_ b) !! f = Some n
            /\ (is_evictable_ n = true <-> pin_count_ (page_at b f) = 0).
Proof.
  intros Hr Hp. pose proof (reachable_inv _ Hr) as Hinv.
  destruct (reachable_tracked _ Hr p f Hp) as [n Hn]. exists n. split; [done|].
  split.
  - by apply (tidy_evictable _ (reachable_tidy _ Hr) f n).
  - intros Hz. destruct (inv_table _ Hinv p f Hp) as (_ & _ & _ & Hev). by apply Hev.
Qed.

Lemma evictable_iff_unpinned_witness :
  exists n, node_store_ (replacer_ pool_two_pages) !! 0 = Some n
            /\ (is_evictable_ n = true <-> pin_count_ (page_at pool_two_pages 0) = 0).
Proof.
  apply (evictable_iff_unpinned pool_two_pages 0 0).
  - unfold pool_two_pages. reach.
  - vm_compute. reflexivity.
Defined.

Lemma page_at_claim_ne b f page_id g :
  0 <= f -> 0 <= g -> g <> f -> page_at (claim f page_id b) g = page_at b g.
Proof.
  intros Hf Hg Hgf.
  transitivity (page_at (update_page f (fresh_page page_id) b) g); [done|].
  apply page_at_update_ne; lia.
Qed.

Lemma page_at_claim_eq b f page_id :
  (Z.to_nat f < length (pages_ b))%nat ->
  page_at (claim f page_id b) f = fresh_page page_id (page_at b f).
Proof.
  intros Hlt.
  transitivity (page_at (update_page f (fresh_page page_id) b) f); [done|].
  by apply page_at_update_eq.
Qed.

Lemma pin_count_DiskSchedule w f p b g :
  pin_count_ (page_at (after (DiskSchedule w f p) b) g) = pin_count_ (page_at b g).
Proof.
  unfold after, DiskSchedule. destruct w; simpl; [done|].
  destruct (disk_ _ !! p); simpl; [|done]. by rewrite pin_count_update_meta.
Qed.

Lemma page_at_DiskSchedule_ne w f p b g :
  0 <= f -> 0 <= g -> g <> f -> page_at (after (DiskSchedule w f p) b) g = page_at b g.
Proof.
  intros Hf Hg Hgf. unfold after, DiskSchedule. destruct w; simpl; [done|].
  destruct (disk_ _ !! p); simpl; [|done].
  rewrite page_at_update_ne by lia. done.
Qed.

Lemma page_at_RequestFrameId b f b1 g :
  inv b -> RequestFrameId b = Normal f b1 -> page_at b1 g = page_at b g.
Proof.
  intros Hinv Hreq. destruct (RequestFrameId_same b f b1 Hinv Hreq) as (Hpg & _).
  unfold page_at. by rewrite Hpg.
Qed.

(** X13. A pinned frame is never given to another page: the frame in
    which [NewPage] or a miss of [FetchPage] puts its page had pin count
    0, and no other frame is changed; a hit of [FetchPage] changes no
    frame but the one of the page. *)
Theorem pinned_frame_not_reused b :
  reachable b ->
  (forall page_id f b', NewPage b = Normal (Some (page_id, f)) b' ->
     pin_count_ (page_at b f) = 0
     /\ forall g, 0 <= g -> g <> f -> page_at b' g = page_at b g)
  /\ (forall p f b', FetchPage p b = Normal (Some f) b' ->
        (page_table_ b !! p = Some f
         \/ page_table_ b !! p = None /\ pin_count_ (page_at b f) = 0)
        /\ forall g, 0 <= g -> g <> f -> page_at b' g = page_at b g).
Proof.
  intros Hr. pose proof (reachable_inv _ Hr) as Hinv.
  pose proof (reachable_tidy _ Hr) as Ht.
  destruct (RequestFrameId_normal b Hinv) as (f0 & b1 & Hreq).
  destruct (inv_RequestFrameId b f0 b1 Hinv Hreq) as [Hinv1 Hcase].
  split.
  - intros page_id f b' Hnew. destruct Hcase as [[-> ->]|[Hf Hvalid]].
    + by rewrite (NewPage_full b Hreq) in Hnew.
    + pose proof (in_pool b1 f0 Hinv1 Hf) as [_ Hrng].
      rewrite (NewPage_run b f0 b1 Hreq Hvalid Hrng) in Hnew.
      injection Hnew as _ <- <-.
      destruct (tidy_RequestFrameId b f0 b1 Hinv Ht Hreq Hvalid) as (_ & _ & Hpin & _).
      split; [done|]. intros g Hg Hgf.
      transitivity (page_at (claim f0 (next_page_id_ b1) (flush_victim f0 b1)) g);
        [done|].
      rewrite page_at_claim_ne, page_at_flush_victim by lia.
      by apply (page_at_RequestFrameId b f0).
  - intros p f b' Hfetch. destruct (page_table_ b !! p) as [fp|] eqn:Hp.
    + destruct (inv_table b Hinv p fp Hp) as (Hfp & _).
      pose proof (in_pool b fp Hinv Hfp) as [_ Hrng].
      rewrite (FetchPage_hit_run b p fp Hp Hrng) in Hfetch.
      injection Hfetch as <- <-. split; [by left|]. intros g Hg Hgf.
      transitivity (page_at (update_page fp
                      (fun pg => set_pin_count (pin_count_ pg + 1) pg) b) g); [done|].
      apply page_at_update_ne; lia.
    + destruct Hcase as [[-> ->]|[Hf Hvalid]].
      * by rewrite (FetchPage_full b p Hp Hreq) in Hfetch.
      * pose proof (in_pool b1 f0 Hinv1 Hf) as [_ Hrng].
        rewrite (FetchPage_miss_run b p f0 b1 Hp Hreq Hvalid Hrng) in Hfetch.
        injection Hfetch as <- <-.
        destruct (tidy_RequestFrameId b f0 b1 Hinv Ht Hreq Hvalid) as (_ & _ & Hpin & _).
        split; [by right|]. intros g Hg Hgf.
        rewrite page_at_DiskSchedule_ne, page_at_claim_ne, page_at_flush_victim by lia.
        by apply (page_at_RequestFrameId b f0).
Qed.

Lemma pinned_frame_not_reused_witness :
  (forall page_id f b', NewPage pool_two_pages = Normal (Some (page_id, f)) b' ->
     pin_count_ (page_at pool_two_pages f) = 0
     /\ forall g, 0 <= g -> g <> f -> page_at b' g = page_at pool_two_pages g)
  /\ (forall p f b', FetchPage p pool_two_pages = Normal (Some f) b' ->
        (page_table_ pool_two_pages !! p = Some f
         \/ page_table_ pool_two_pages !! p = None
            /\ pin_count_ (page_at pool_two_pages f) = 0)
        /\ forall g, 0 <= g -> g <> f -> page_at b' g = page_at pool_two_pages g).
Proof. apply (pinned_frame_not_reused pool_two_pages). unfold pool_two_pages. reach. Defined.

(** Page 1 is pinned in frame 1; [NewPage] takes frame 0, whose page is
    not pinned. *)
Example NewPage_takes_unpinned_frame :
  value_of (NewPage pool_two_pages) = Some (Some (2, 0))
  /\ page_at (after NewPage pool_two_pages) 1 = page_at pool_two_pages 1.
Proof. vm_compute. done. Qed.

(** X14. [UnpinPage] returns true exactly when the page is resident
    with a positive pin count, and then takes one off the pin count of
    its frame and keeps the frame's page id and bytes; when it returns
    false the pool is unchanged. In both cases the page table, the free
    list, the page id counter and the other frames are as before and no
    request goes to the disk. *)
Theorem UnpinPage_result b p d :
  inv b ->
  exists res b',
    UnpinPage p d b = Normal res b'
    /\ (res = true <-> exists f, page_table_ b !! p = Some f
                                 /\ 0 < pin_count_ (page_at b f))
    /\ (res = false -> b' = b)
    /\ page_table_ b' = page_table_ b /\ free_list_ b' = free_list_ b
    /\ io_log_ b' = io_log_ b /\ next_page_id_ b' = next_page_id_ b
    /\ (forall f, page_table_ b !! p = Some f -> res = true ->
          page_at b' f = set_is_dirty d
                           (set_pin_count (pin_count_ (page_at b f) - 1) (page_at b f)))
    /\ (forall g, 0 <= g -> page_table_ b !! p <> Some g -> page_at b' g = page_at b g).
Proof.
  intros Hinv. destruct (page_table_ b !! p) as [f|] eqn:Hp.
  2:{ exists false, b. split; [by apply UnpinPage_absent|].
      split; [split; [done | by intros (? & ? & _)]|]. done. }
  destruct (decide (pin_count_ (page_at b f) <= 0)) as [Hle|Hgt].
  { exists false, b. split; [by apply (UnpinPage_unpinned b p f)|].
    split; [split; [done | intros (? & [= <-] & ?); lia]|]. done. }
  destruct (inv_table b Hinv p f Hp) as (Hf & Hid & Hpin & Hz).
  pose proof (in_pool b f Hinv Hf) as [Hlt Hrng].
  eexists true, _. split; [apply (UnpinPage_run b p f d); try done; lia|].
  split; [split; [intros _; exists f; split; [done | lia] | done]|].
  split; [done|]. do 4 (split; [done|]). split.
  - intros ? [= <-] _. by rewrite page_at_update_eq.
  - intros g Hg Hne. rewrite page_at_update_ne; [done | lia | done | congruence].
Qed.

Lemma UnpinPage_result_witness :
  exists res b',
    UnpinPage 1 true pool_two_pages = Normal res b'
    /\ (res = true <-> exists f, page_table_ pool_two_pages !! 1 = Some f
                                 /\ 0 < pin_count_ (page_at pool_two_pages f))
    /\ (res = false -> b' = pool_two_pages)
    /\ page_table_ b' = page_table_ pool_two_pages
    /\ free_list_ b' = free_list_ pool_two_pages
    /\ io_log_ b' = io_log_ pool_two_pages
    /\ next_page_id_ b' = next_page_id_ pool_two_pages
    /\ (forall f, page_table_ pool_two_pages !! 1 = Some f -> res = true ->
          page_at b' f
          = set_is_dirty true
              (set_pin_count (pin_count_ (page_at pool_two_pages f) - 1)
                 (page_at pool_two_pages f)))
    /\ (forall g, 0 <= g -> page_table_ pool_two_pages !! 1 <> Some g ->
          page_at b' g = page_at pool_two_pages g).
Proof.
  apply (UnpinPage_result pool_two_pages 1 true).
  apply reachable_inv. unfold pool_two_pages. reach.
Defined.

Lemma hit_replacer r f :
  out_of_range r f = false ->
  exists r2 nd,
    after (RecordAccess f) (after (SetEvictable f false) r) = r2
    /\ node_store_ r2 !! f = Some nd /\ is_evictable_ nd = false
    /\ forall g, g <> f -> node_store_ r2 !! g = node_store_ r !! g.
Proof.
  intros Hr.
  destruct (SetEvictable_in_range r f false Hr) as (r1 & Hr1 & Hsz1 & Hst1).
  assert (Hr1' : out_of_range r1 f = false).
  { unfold out_of_range in *. by rewrite Hsz1. }
  destruct (RecordAccess_in_range r1 f Hr1')
    as (r2 & nd & Hr2 & Hsz2 & Hst2 & Hfid & Hflag).
  exists r2, nd. split; [unfold after; rewrite Hr1; simpl; by rewrite Hr2|].
  split; [rewrite Hst2; apply lookup_insert_eq|]. split.
  - rewrite Hflag. unfold at_. rewrite Hst1, decide_True by done.
    by destruct (node_store_ r !! f).
  - intros g Hg. rewrite Hst2, lookup_insert_ne by done.
    by rewrite Hst1, decide_False.
Qed.

Lemma FetchPage_hit_pages b p f :
  inv b -> page_table_ b !! p = Some f ->
  exists b',
    FetchPage p b = Normal (Some f) b'
    /\ replacer_ b' = after (RecordAccess f) (after (SetEvictable f false) (replacer_ b))
    /\ page_at b' f = set_pin_count (pin_count_ (page_at b f) + 1) (page_at b f)
    /\ (forall g, 0 <= g -> g <> f -> page_at b' g = page_at b g)
    /\ page_table_ b' = page_table_ b /\ free_list_ b' = free_list_ b
    /\ io_log_ b' = io_log_ b /\ next_page_id_ b' = next_page_id_ b.
Proof.
  intros Hinv Hp. destruct (inv_table b Hinv p f Hp) as (Hf & _).
  pose proof (in_pool b f Hinv Hf) as [Hlt Hrng].
  eexists. split; [by apply FetchPage_hit_run|]. split; [done|].
  set (up := fun pg => set_pin_count (pin_count_ pg + 1) pg).
  split.
  { transitivity (page_at (update_page f up b) f); [done|]. by rewrite page_at_update_eq. }
  split; [|done].
  intros g Hg Hgf. transitivity (page_at (update_page f up b) g); [done|].
  apply page_at_update_ne; lia.
Qed.

(** X15. A hit of [FetchPage] returns the frame of the page with one
    more pin and sends nothing to the disk: the bytes, the dirty flag
    and the page id of the frame, the other frames, the page table and
    the free list are as before, and the frame is not evictable. *)
Theorem FetchPage_hit b p f :
  inv b -> page_table_ b !! p = Some f ->
  exists b',
    FetchPage p b = Normal (Some f) b'
    /\ page_at b' f = set_pin_count (pin_count_ (page_at b f) + 1) (page_at b f)
    /\ (forall g, 0 <= g -> g <> f -> page_at b' g = page_at b g)
    /\ page_table_ b' = page_table_ b /\ free_list_ b' = free_list_ b
    /\ io_log_ b' = io_log_ b /\ next_page_id_ b' = next_page_id_ b
    /\ (exists n, node_store_ (replacer_ b') !! f = Some n /\ is_evictable_ n = false)
    /\ forall g, g <> f ->
         node_store_ (replacer_ b') !! g = node_store_ (replacer_ b) !! g.
Proof.
  intros Hinv Hp. destruct (inv_table b Hinv p f Hp) as (Hf & _).
  pose proof (in_pool b f Hinv Hf) as [_ Hrng].
  destruct (FetchPage_hit_pages b p f Hinv Hp)
    as (b' & Hrun & Hrep & Hpf & Hpg & Htab & Hfl & Hio & Hnext).
  destruct (hit_replacer (replacer_ b) f Hrng) as (r2 & nd & Hr2 & Hnd & Hflag & Hother).
  exists b'. do 7 (split; [done|]). rewrite Hrep, Hr2.
  split; [by exists nd | done].
Qed.

Lemma FetchPage_hit_witness :
  exists b',
    FetchPage 1 pool_two_pages = Normal (Some 1) b'
    /\ page_at b' 1 = set_pin_count (pin_count_ (page_at pool_two_pages 1) + 1)
                        (page_at pool_two_pages 1)
    /\ (forall g, 0 <= g -> g <> 1 -> page_at b' g = page_at pool_two_pages g)
    /\ page_table_ b' = page_table_ pool_two_pages
    /\ free_list_ b' = free_list_ pool_two_pages
    /\ io_log_ b' = io_log_ pool_two_pages
    /\ next_page_id_ b' = next_page_id_ pool_two_pages
    /\ (exists n, node_store_ (replacer_ b') !! 1 = Some n /\ is_evictable_ n = false)
    /\ forall g, g <> 1 ->
         node_store_ (replacer_ b') !! g = node_store_ (replacer_ pool_two_pages) !! g.
Proof.
  apply (FetchPage_hit pool_two_pages 1 1).
  - apply reachable_inv. unfold pool_two_pages. reach.
  - vm_compute. reflexivity.
Defined.

(** X16. Fetching a resident page and unpinning it again gives the pin
    back: after [FetchPage(p)] and [UnpinPage(p, d)], which returns
    true, the frame differs from before in its dirty flag only, which
    is [d]; the other frames, the page table and the free list are as
    before, nothing went to the disk, and the frame is evictable again
    when its pin count is 0. *)
Theorem FetchPage_UnpinPage_round_trip b p f d :
  inv b -> page_table_ b !! p = Some f ->
  exists b1 b2,
    FetchPage p b = Normal (Some f) b1
    /\ UnpinPage p d b1 = Normal true b2
    /\ page_at b2 f = set_is_dirty d (page_at b f)
    /\ (forall g, 0 <= g -> g <> f -> page_at b2 g = page_at b g)
    /\ page_table_ b2 = page_table_ b /\ free_list_ b2 = free_list_ b
    /\ io_log_ b2 = io_log_ b
    /\ (pin_count_ (page_at b f) = 0 ->
        exists n, node_store_ (replacer_ b2) !! f = Some n /\ is_evictable_ n = true).
Proof.
  intros Hinv Hp. destruct (inv_table b Hinv p f Hp) as (Hf & Hid & Hpin & Hz).
  destruct (FetchPage_hit_pages b p f Hinv Hp)
    as (b1 & Hfetch & Hrep & Hpf & Hpg & Htab & Hfl & Hio & Hnext).
  assert (exists n1, node_store_ (replacer_ b1) !! f = Some n1) as [n1 Hn1].
  { pose proof (in_pool b f Hinv Hf) as [_ Hrng].
    destruct (hit_replacer (replacer_ b) f Hrng) as (r2 & nd & Hr2 & Hnd & _).
    exists nd. by rewrite Hrep, Hr2. }
  assert (Hinv1 : inv b1).
  { destruct (FetchPage_inv b p Hinv) as (r & b1' & Hrun & Hi). congruence. }
  assert (Hp1 : page_table_ b1 !! p = Some f) by by rewrite Htab.
  assert (Hf1 : 0 <= f < pool_size_ b1) by by destruct (inv_table b1 Hinv1 p f Hp1).
  pose proof (in_pool b1 f Hinv1 Hf1) as [Hlt1 Hrng1].
  assert (Hpin1 : pin_count_ (page_at b1 f) = pin_count_ (page_at b f) + 1)
    by by rewrite Hpf.
  exists b1. eexists. split; [done|].
  split; [apply (UnpinPage_run b1 p f d); try done; lia|].
  split.
  { rewrite page_at_update_eq by done.
    change (page_at (set_replacer _ b1) f) with (page_at b1 f).
    rewrite Hpf. destruct (page_at b f) as [dt pid pc dr]. unfold set_is_dirty,
      set_pin_count. simpl. f_equal. lia. }
  split.
  { intros g Hg Hgf. rewrite page_at_update_ne by lia.
    change (page_at (set_replacer _ b1) g) with (page_at b1 g). by apply Hpg. }
  do 3 (split; [done|]).
  intros Hz0. simpl. rewrite Hpin1, Hz0. simpl.
  destruct (SetEvictable_in_range (replacer_ b1) f true Hrng1) as (r' & Hr' & _ & Hst).
  unfold after. rewrite Hr'. simpl. rewrite Hst, decide_True, Hn1 by done.
  by eexists.
Qed.

Lemma FetchPage_UnpinPage_round_trip_witness :
  exists b1 b2,
    FetchPage 0 pool_two_pages = Normal (Some 0) b1
    /\ UnpinPage 0 true b1 = Normal true b2
    /\ page_at b2 0 = set_is_dirty true (page_at pool_two_pages 0)
    /\ (forall g, 0 <= g -> g <> 0 -> page_at b2 g = page_at pool_two_pages g)
    /\ page_table_ b2 = page_table_ pool_two_pages
    /\ free_list_ b2 = free_list_ pool_two_pages
    /\ io_log_ b2 = io_log_ pool_two_pages
    /\ (pin_count_ (page_at pool_two_pages 0) = 0 ->
        exists n, node_store_ (replacer_ b2) !! 0 = Some n /\ is_evictable_ n = true).
Proof.
  apply (FetchPage_UnpinPage_round_trip pool_two_pages 0 0 true).
  - apply reachable_inv. unfold pool_two_pages. reach.
  - vm_compute. reflexivity.
Defined.

(** X17. [FlushPage] of a resident page sends one write request, with
    the page id and the bytes of its frame, whether the frame is dirty
    or not and whatever its pin count, and clears the dirty flag; the
    pin count, the bytes, the other frames, the page table, the free
    list and the replacer are as before. For a page that is not
    resident it returns false and changes nothing. *)
Theorem FlushPage_writes b p :
  inv b ->
  match page_table_ b !! p with
  | None => FlushPage p b = Normal false b
  | Some f =>
      exists b',
        FlushPage p b = Normal true b'
        /\ io_log_ b' = io_log_ b ++ [Scheduled true p (data_ (page_at b f))]
        /\ page_at b' f = set_is_dirty false (page_at b f)
        /\ (forall g, 0 <= g -> g <> f -> page_at b' g = page_at b g)
        /\ page_table_ b' = page_table_ b /\ free_list_ b' = free_list_ b
        /\ replacer_ b' = replacer_ b
  end.
Proof.
  intros Hinv. destruct (page_table_ b !! p) as [f|] eqn:Hp;
    [|by apply FlushPage_absent].
  destruct (inv_table b Hinv p f Hp) as (Hf & Hid & _).
  pose proof (in_pool b f Hinv Hf) as [Hlt _].
  eexists. split; [by apply FlushPage_run|].
  split; [simpl; by rewrite Hid|]. split.
  { rewrite page_at_update_eq; done. }
  split; [|done]. intros g Hg Hgf. rewrite page_at_update_ne by lia. done.
Qed.

Lemma FlushPage_writes_witness :
  match page_table_ pool_two_pages !! 1 with
  | None => FlushPage 1 pool_two_pages = Normal false pool_two_pages
  | Some f =>
      exists b',
        FlushPage 1 pool_two_pages = Normal true b'
        /\ io_log_ b' = io_log_ pool_two_pages
                        ++ [Scheduled true 1 (data_ (page_at pool_two_pages f))]
        /\ page_at b' f = set_is_dirty false (page_at pool_two_pages f)
        /\ (forall g, 0 <= g -> g <> f -> page_at b' g = page_at pool_two_pages g)
        /\ page_table_ b' = page_table_ pool_two_pages
        /\ free_list_ b' = free_list_ pool_two_pages
        /\ replacer_ b' = replacer_ pool_two_pages
  end.
Proof.
  apply (FlushPage_writes pool_two_pages 1).
  apply reachable_inv. unfold pool_two_pages. reach.
Defined.

Lemma flush_frames_run order : forall b,
  inv b ->
  (forall q f, (q, f) ∈ order -> page_table_ b !! q = Some f) ->
  exists b',
    flush_frames order b = Normal tt b'
    /\ io_log_ b' = io_log_ b
         ++ map (fun qf : Z * Z => Scheduled true qf.1 (data_ (page_at b qf.2))) order
    /\ page_table_ b' = page_table_ b /\ free_list_ b' = free_list_ b
    /\ replacer_ b' = replacer_ b /\ next_page_id_ b' = next_page_id_ b
    /\ forall g, 0 <= g ->
         page_at b' g = if bool_decide (g ∈ order.*2)
                        then set_is_dirty false (page_at b g) else page_at b g.
Proof.
  induction order as [|[q f] rest IH]; intros b Hinv Hres.
  - exists b. split; [done|]. split; [by rewrite app_nil_r|]. done.
  - assert (Hq : page_table_ b !! q = Some f) by (apply Hres; left).
    destruct (inv_table b Hinv q f Hq) as (Hf & Hid & _).
    pose proof (in_pool b f Hinv Hf) as [Hlt _].
    set (b1 := update_page f (set_is_dirty false)
                 (after (DiskSchedule true f (page_id_ (page_at b f))) b)).
    assert (Hinv1 : inv b1).
    { pose proof (inv_flush_frame f b Hinv) as Hi. by rewrite flush_frame_run in Hi. }
    assert (Hpf : page_at b1 f = set_is_dirty false (page_at b f)).
    { unfold b1. by rewrite page_at_update_eq. }
    assert (Hpg : forall g, 0 <= g -> g <> f -> page_at b1 g = page_at b g).
    { intros g Hg Hgf. unfold b1. rewrite page_at_update_ne by lia. done. }
    destruct (IH b1 Hinv1) as (b' & Hrun & Hio & Htab & Hfl & Hrep & Hnext & Hpages).
    { intros q' f' Hin. apply Hres. by right. }
    exists b'. split; [simpl; unfold bind; by rewrite flush_frame_run|].
    split.
    { rewrite Hio. simpl. rewrite Hid, <- (assoc_L (++)). simpl. do 2 f_equal.
      apply map_ext_in. intros [q' f'] Hin%list_elem_of_In. simpl. f_equal.
      assert (page_table_ b !! q' = Some f') as Hq' by (apply Hres; by right).
      destruct (inv_table b Hinv q' f' Hq') as (Hf' & _).
      destruct (decide (f' = f)) as [->|Hne]; [by rewrite Hpf|].
      rewrite Hpg; [done | lia | done]. }
    do 4 (split; [done|]).
    intros g Hg. rewrite (Hpages g Hg), fmap_cons.
    change ((q, f).2) with f.
    destruct (decide (g = f)) as [->|Hgf].
    + rewrite Hpf. repeat case_bool_decide; try done.
      all: exfalso; match goal with H : ?x ∉ ?x :: _ |- _ => apply H end; left.
    + rewrite Hpg by done. repeat case_bool_decide; try done.
      * exfalso. match goal with H : _ ∉ _ |- _ => apply H end. by right.
      * match goal with H : _ ∈ _ :: _ |- _ =>
          apply elem_of_cons in H as [?|?]; done end.
Qed.

(** X18. [FlushAllPages] sends one write request for each resident
    page, with the page id and the bytes of its frame, in the order in
    which the loop visits the page table, whichever order this is, and
    leaves every resident frame clean; pin counts, bytes, the frames
    without a resident page, the page table, the free list and the
    replacer are as before, so that the frames it leaves do not depend
    on the order of the visit. *)
Theorem FlushAllPages_cleans b order :
  inv b -> order ≡ₚ map_to_list (page_table_ b) ->
  exists b',
    FlushAllPages_in order b = Normal tt b'
    /\ io_log_ b' = io_log_ b
         ++ map (fun pf : Z * Z => Scheduled true pf.1 (data_ (page_at b pf.2))) order
    /\ (forall p f, page_table_ b !! p = Some f ->
          page_at b' f = set_is_dirty false (page_at b f))
    /\ (forall g, 0 <= g -> (forall p, page_table_ b !! p <> Some g) ->
          page_at b' g = page_at b g)
    /\ page_table_ b' = page_table_ b /\ free_list_ b' = free_list_ b
    /\ replacer_ b' = replacer_ b.
Proof.
  intros Hinv Hperm.
  assert (Hin : forall q f, (q, f) ∈ order <-> page_table_ b !! q = Some f).
  { intros q f. by rewrite Hperm, elem_of_map_to_list. }
  destruct (flush_frames_run order b Hinv)
    as (b' & Hrun & Hio & Htab & Hfl & Hrep & _ & Hpages).
  { intros q f. apply Hin. }
  exists b'. split; [done|]. split; [done|]. split; [|split; [|done]].
  - intros p f Hp. destruct (inv_table b Hinv p f Hp) as (Hf & _).
    rewrite Hpages by lia. rewrite bool_decide_eq_true_2; [done|].
    apply list_elem_of_fmap. exists (p, f). split; [done|]. by apply Hin.
  - intros g Hg Hfree. rewrite Hpages by done. rewrite bool_decide_eq_false_2; [done|].
    intros [[p f] [-> Hpf]]%list_elem_of_fmap. apply Hin in Hpf.
    by apply (Hfree p).
Qed.

Lemma FlushAllPages_cleans_witness :
  let b := pool_two_pages in
  let order := reverse (map_to_list (page_table_ b)) in
  exists b',
    FlushAllPages_in order b = Normal tt b'
    /\ io_log_ b' = io_log_ b
         ++ map (fun pf : Z * Z => Scheduled true pf.1 (data_ (page_at b pf.2))) order
    /\ (forall p f, page_table_ b !! p = Some f ->
          page_at b' f = set_is_dirty false (page_at b f))
    /\ (forall g, 0 <= g -> (forall p, page_table_ b !! p <> Some g) ->
          page_at b' g = page_at b g)
    /\ page_table_ b' = page_table_ b /\ free_list_ b' = free_list_ b
    /\ replacer_ b' = replacer_ b.
Proof.
  apply (FlushAllPages_cleans pool_two_pages
           (reverse (map_to_list (page_table_ pool_two_pages)))).
  - apply reachable_inv. unfold pool_two_pages. reach.
  - apply reverse_Permutation.
Defined.

(** The two orders of visiting the page table of [pool_two_pages] send
    the same writes in opposite orders and leave the same frames. *)
Example FlushAllPages_two_orders :
  let b := pool_two_pages in
  let b1 := after (FlushAllPages_in [(0, 0); (1, 1)]) b in
  let b2 := after (FlushAllPages_in [(1, 1); (0, 0)]) b in
  io_log_ b1 = [Scheduled true 0 (data_ (page_at b 0)); Scheduled true 1 (data_ (page_at b 1))]
  /\ io_log_ b2 = [Scheduled true 1 (data_ (page_at b 1)); Scheduled true 0 (data_ (page_at b 0))]
  /\ pages_ b1 = pages_ b2.
Proof. vm_compute. done. Qed.

End BpmMore.


(** ** The worker and the queue *)

Module SchedulerMore.
Import Scheduler.

Section Worker.
Context {D : Type} `{DiskManager D}.

(** The requests of a list served in order. *)
Lemma serve_all (rs : list DiskRequest) (q : list (option DiskRequest)) : forall w : Worker D,
  StartWorkerThread (map Some rs ++ q) w
  = StartWorkerThread q (foldl (fun w r => serve r w) w rs).
Proof. induction rs as [|r rs IH]; intros w; simpl; [done | apply IH]. Qed.

(** X19. The requests given to [Schedule] are served in the order of
    the calls, and the destructor lets the worker finish them: after
    [Schedule] of the requests [rs] and the destructor, the worker has
    served all of [rs], one after the other, has left the loop, and the
    queue is empty. *)
Theorem Schedule_then_delete_serves_all (rs : list DiskRequest) (w : Worker D) :
  StartWorkerThread (DiskScheduler_delete (foldl (fun q r => Schedule r q) [] rs)) w
  = (Exited, foldl (fun w r => serve r w) w rs, []).
Proof.
  assert (Hq : forall q0, foldl (fun q r => Schedule r q) q0 rs = q0 ++ map Some rs).
  { induction rs as [|r rs' IH]; intros q0; simpl; [by rewrite app_nil_r|].
    rewrite IH. unfold Schedule. by rewrite <- (assoc_L (++)). }
  rewrite Hq. unfold DiskScheduler_delete. simpl. by rewrite serve_all.
Qed.

(** X20. The worker takes the items in the order they are put, across
    the times it waits: when it is blocked on the empty queue after the
    items [q1], the items [q2] put later are handled as if they had been
    in the queue from the start; when it has left the loop, they stay
    in the queue and are never served. *)
Theorem worker_resumes (q1 q2 : list (option DiskRequest)) (w : Worker D) :
  let '(st, w1, rest) := StartWorkerThread q1 w in
  StartWorkerThread (q1 ++ q2) w
  = match st with
    | Waiting => StartWorkerThread q2 w1
    | Exited => (Exited, w1, rest ++ q2)
    end.
Proof.
  revert w. induction q1 as [|[r|] q1 IH]; intros w; simpl.
  - done.
  - apply IH.
  - done.
Qed.

End Worker.

(** The request behind the sentinel of [failing_queue] is left in the
    queue whatever is put later. *)
Example request_behind_sentinel_stays :
  (@StartWorkerThread _ (faulty [1]) (Schedule
     {| is_write_ := true; data_ := 0; page_id_ := 4; callback_ := 13 |}
     failing_queue) idle_worker).2
  = [Some {| is_write_ := true; data_ := 0; page_id_ := 3; callback_ := 12 |};
     Some {| is_write_ := true; data_ := 0; page_id_ := 4; callback_ := 13 |}].
Proof. reflexivity. Qed.

End SchedulerMore.

(** ** Guards and the pool *)

Module GuardsMore.
Import Replacer Bpm BpmProps Guards GuardsProps LatchedMoves BpmInv BpmInvProps BpmMore.

(** The page [FetchPage] returns is resident in the frame returned, and
    pinned. *)
Lemma FetchPage_resident b p f b1 :
  inv b -> FetchPage p b = Normal (Some f) b1 ->
  inv b1 /\ page_table_ b1 !! p = Some f /\ 0 < pin_count_ (page_at b1 f).
Proof.
  intros Hinv Hfetch.
  assert (Hinv1 : inv b1).
  { destruct (FetchPage_inv b p Hinv) as (r & b' & Hrun & Hi). congruence. }
  split; [done|].
  destruct (page_table_ b !! p) as [fp|] eqn:Hp.
  - destruct (FetchPage_hit_pages b p fp Hinv Hp) as (b' & Hrun & _ & Hpf & _ & Htab & _).
    rewrite Hrun in Hfetch. injection Hfetch as <- <-.
    split; [by rewrite Htab|]. rewrite Hpf. simpl.
    destruct (inv_table b Hinv p fp Hp) as (_ & _ & Hpin & _). lia.
  - destruct (RequestFrameId_normal b Hinv) as (f0 & b0 & Hreq).
    destruct (inv_RequestFrameId b f0 b0 Hinv Hreq) as [Hinv0 [[-> ->]|[Hf Hvalid]]].
    + by rewrite (FetchPage_full b p Hp Hreq) in Hfetch.
    + pose proof (in_pool b0 f0 Hinv0 Hf) as [Hlt Hrng].
      rewrite (FetchPage_miss_run b p f0 b0 Hp Hreq Hvalid Hrng) in Hfetch.
      injection Hfetch as <- <-.
      assert (Htab : page_table_ (after (DiskSchedule false f0 p)
                        (claim f0 p (flush_victim f0 b0))) !! p = Some f0).
      { unfold after, DiskSchedule. simpl.
        destruct (disk_ _ !! p); simpl; apply lookup_insert_eq. }
      split; [done|].
      rewrite pin_count_DiskSchedule, page_at_claim_eq.
      * simpl. lia.
      * destruct (flush_victim_same b0 f0) as (_ & -> & _). done.
Qed.

(** X21. A basic guard destroyed at once gives its pin back: the guard
    [FetchPageBasic] builds holds the frame [FetchPage] returned, and
    its destructor, run with no call in between, calls [UnpinPage]
    once, for the page fetched and with the dirty hint false, which
    succeeds and takes one off the pin count. When [FetchPage] returned
    the null pointer, the guard holds nothing and its destructor does
    nothing. (The destructor reads the page id from the frame when it
    runs; [scope_moves_page_table_entry] shows a scope with a call in
    between in which the unpin reaches another frame.) *)
Theorem basic_guard_scope w p res b1 result :
  inv (pool w) -> FetchPage p (pool w) = Normal res b1 ->
  exists w1,
    FetchPageBasic p result w = Normal tt w1
    /\ pool w1 = b1 /\ trace w1 = trace w
    /\ guard_at w1 result = {| bpm_ := Some tt; page_ := res; is_dirty_ := false |}
    /\ match res with
       | None => BasicPageGuard_delete result w1 = Normal tt w1
       | Some f =>
           exists w2,
             BasicPageGuard_delete result w1 = Normal tt w2
             /\ trace w2 = trace w ++ [CallUnpinPage f p false]
             /\ UnpinPage p false b1 = Normal true (pool w2)
             /\ pin_count_ (page_at (pool w2) f) = pin_count_ (page_at b1 f) - 1
             /\ page_ (guard_at w2 result) = None
       end.
Proof.
  intros Hinv Hfetch.
  set (g := {| bpm_ := Some tt; page_ := res; is_dirty_ := false |}).
  set (w1 := {| pool := b1; heap := <[result := g]> (heap w); trace := trace w |}).
  assert (Hrun : FetchPageBasic p result w = Normal tt w1).
  { unfold FetchPageBasic, bind, on_pool. by rewrite Hfetch. }
  assert (Hg : guard_at w1 result = g) by apply guard_at_store_eq.
  exists w1. do 4 (split; [done|]).
  destruct res as [f|].
  - destruct (FetchPage_resident (pool w) p f b1 Hinv Hfetch) as (Hinv1 & Hp & Hpin).
    destruct (inv_table b1 Hinv1 p f Hp) as (Hf & Hid & _).
    destruct (Drop_live w1 result f) as (r & b2 & Hun & _ & Hdrop);
      [done | by rewrite Hg|].
    rewrite Hg in Hun, Hdrop. simpl in Hun, Hdrop.
    assert (PageId w1 f = p) as Hpid by done.
    rewrite Hpid in Hun, Hdrop.
    pose proof (in_pool b1 f Hinv1 Hf) as [Hlt Hrng].
    pose proof (UnpinPage_run b1 p f false Hp Hpin Hlt Hrng) as Hun'.
    change (pool w1) with b1 in Hun. rewrite Hun' in Hun. injection Hun as <- <-.
    eexists. split; [exact Hdrop|]. simpl. split; [done|]. split; [done|].
    split; [by rewrite page_at_update_eq|].
    unfold guard_at. simpl. by rewrite lookup_insert_eq.
  - apply Drop_null. by rewrite Hg.
Qed.

Lemma basic_guard_scope_witness :
  exists w1,
    FetchPageBasic 0 1 world_basic = Normal tt w1
    /\ pool w1 = after (FetchPage 0) (pool world_basic) /\ trace w1 = trace world_basic
    /\ guard_at w1 1 = {| bpm_ := Some tt; page_ := Some 0; is_dirty_ := false |}
    /\ exists w2,
         BasicPageGuard_delete 1 w1 = Normal tt w2
         /\ trace w2 = trace world_basic ++ [CallUnpinPage 0 0 false]
         /\ UnpinPage 0 false (after (FetchPage 0) (pool world_basic))
            = Normal true (pool w2)
         /\ pin_count_ (page_at (pool w2) 0)
            = pin_count_ (page_at (after (FetchPage 0) (pool world_basic)) 0) - 1
         /\ page_ (guard_at w2 1) = None.
Proof.
  apply (basic_guard_scope world_basic 0 (Some 0)
           (after (FetchPage 0) (pool world_basic)) 1).
  - apply world_basic_inv.
  - vm_compute. reflexivity.
Defined.

(** With a call inside the scope the pin may stay: in a pool of two
    frames, [FetchPageBasic(0)] before any [NewPage] brings page 0 into
    frame 0; [NewPage] then hands out the id 0 again, in frame 1, and the
    page table gives frame 1 for page 0; the destructor of the guard
    calls [UnpinPage(0)], which unpins frame 1, and frame 0 keeps its
    pin. *)
Example scope_moves_page_table_entry :
  let w0 := {| pool := init 2 4 2 ∅; heap := ∅; trace := [] |} in
  let w1 := after (FetchPageBasic 0 1) w0 in
  let w2 := after (on_pool NewPage) w1 in
  let w3 := after (BasicPageGuard_delete 1) w2 in
  page_ (guard_at w1 1) = Some 0
  /\ page_table_ (pool w2) !! 0 = Some 1
  /\ trace w3 = [CallUnpinPage 0 0 false]
  /\ pin_count_ (page_at (pool w3) 0) = 1
  /\ pin_count_ (page_at (pool w3) 1) = 0.
Proof. vm_compute. done. Qed.

(** X22. The guard [FetchPageRead] or [FetchPageWrite] returns never
    releases what the call took: the call pins the page and latches its
    frame, the guard built holds nothing, and its [Drop] and its
    destructor make no call, so the pin and the latch stay. *)
Theorem latched_fetch_never_released w p f b1 result :
  FetchPage p (pool w) = Normal (Some f) b1 ->
  (exists w1,
     FetchPageRead p result w = Normal tt w1
     /\ pool w1 = b1 /\ trace w1 = trace w ++ [CallRLatch f]
     /\ guard_at w1 result = null_guard
     /\ ReadPageGuard_Drop result w1 = Normal tt w1
     /\ ReadPageGuard_delete result w1 = Normal tt w1)
  /\ (exists w1,
        FetchPageWrite p result w = Normal tt w1
        /\ pool w1 = b1 /\ trace w1 = trace w ++ [CallWLatch f]
        /\ guard_at w1 result = null_guard
        /\ WritePageGuard_Drop result w1 = Normal tt w1
        /\ WritePageGuard_delete result w1 = Normal tt w1).
Proof.
  intros Hfetch. split.
  - set (w1 := {| pool := b1; heap := <[result := null_guard]> (heap w);
                  trace := trace w ++ [CallRLatch f] |}).
    assert (Hg : guard_at w1 result = null_guard) by apply guard_at_store_eq.
    assert (Hnull : page_ (guard_at w1 result) = None) by by rewrite Hg.
    destruct (latched_Drop_null w1 result Hnull) as [Hdrop _].
    exists w1. split; [unfold FetchPageRead, bind, on_pool; by rewrite Hfetch|].
    do 4 (split; [done|]).
    unfold ReadPageGuard_delete, bind. rewrite Hdrop. by apply Drop_null.
  - set (w1 := {| pool := b1; heap := <[result := null_guard]> (heap w);
                  trace := trace w ++ [CallWLatch f] |}).
    assert (Hg : guard_at w1 result = null_guard) by apply guard_at_store_eq.
    assert (Hnull : page_ (guard_at w1 result) = None) by by rewrite Hg.
    destruct (latched_Drop_null w1 result Hnull) as [_ Hdrop].
    exists w1. split; [unfold FetchPageWrite, bind, on_pool; by rewrite Hfetch|].
    do 4 (split; [done|]).
    unfold WritePageGuard_delete, bind. rewrite Hdrop. by apply Drop_null.
Qed.

Lemma latched_fetch_never_released_witness :
  let b1 := after (FetchPage 0) (pool world_basic) in
  (exists w1,
     FetchPageRead 0 1 world_basic = Normal tt w1
     /\ pool w1 = b1 /\ trace w1 = trace world_basic ++ [CallRLatch 0]
     /\ guard_at w1 1 = null_guard
     /\ ReadPageGuard_Drop 1 w1 = Normal tt w1
     /\ ReadPageGuard_delete 1 w1 = Normal tt w1)
  /\ (exists w1,
        FetchPageWrite 0 1 world_basic = Normal tt w1
        /\ pool w1 = b1 /\ trace w1 = trace world_basic ++ [CallWLatch 0]
        /\ guard_at w1 1 = null_guard
        /\ WritePageGuard_Drop 1 w1 = Normal tt w1
        /\ WritePageGuard_delete 1 w1 = Normal tt w1).
Proof.
  apply (latched_fetch_never_released world_basic 0 0
           (after (FetchPage 0) (pool world_basic)) 1).
  vm_compute. reflexivity.
Defined.

End GuardsMore.


(** ** When the pool is full *)

Module PoolFull.
Import Replacer ReplacerProps ReplacerInv ReplacerInvProps.
Import Bpm BpmProps BpmInv BpmInvProps BpmMore.

Lemma built_miss num_frames k r f :
  built num_frames k r ->
  built num_frames k (after (RecordAccess f) (after (SetEvictable f false) r)).
Proof. intros Hb. by apply built_RecordAccess, built_SetEvictable. Qed.

Lemma built_RequestFrameId b f b1 :
  RequestFrameId b = Normal f b1 -> replacer_built b -> replacer_built b1.
Proof.
  intros Hreq (n & k & Hb). exists n, k. unfold RequestFrameId in Hreq.
  destruct (free_list_ b) as [|f0 rest]; [|by injection Hreq as _ <-].
  destruct (0 <? Size (replacer_ b)); [|by injection Hreq as _ <-].
  unfold Evict in Hreq.
  pose proof (built_Evict n k (replacer_ b) (map_to_list (node_store_ (replacer_ b)))
                Hb (reflexivity _)) as Hb'.
  destruct (Evict_in _ (replacer_ b)) as [v r']. by injection Hreq as _ <-.
Qed.

Lemma built_same b b' : replacer_ b' = replacer_ b -> replacer_built b -> replacer_built b'.
Proof. unfold replacer_built. by intros ->. Qed.

Lemma built_claim b f page_id :
  replacer_built b -> replacer_built (claim f page_id (flush_victim f b)).
Proof.
  intros (n & k & Hb). exists n, k. unfold claim. simpl.
  destruct (flush_victim_same b f) as (_ & _ & _ & _ & -> & _). by apply built_miss.
Qed.

Lemma built_DiskSchedule w f p b :
  replacer_built b -> replacer_built (after (DiskSchedule w f p) b).
Proof.
  apply built_same. unfold after, DiskSchedule. destruct w; simpl; [done|].
  by destruct (disk_ _ !! p).
Qed.

Lemma reachable_built b : reachable b -> replacer_built b.
Proof.
  induction 1 as [ps pg k disk Hps | b Hb IH | b p Hb IH | b p d Hb IH | b p Hb IH
                  | b order Hb IH Hperm | b p Hb IH | b f d Hb IH];
    try (pose proof (reachable_inv _ Hb) as Hinv).
  - exists (Z.of_nat ps), k. apply built_init.
  - destruct (RequestFrameId_normal b Hinv) as (f & b1 & Hreq).
    destruct (inv_RequestFrameId b f b1 Hinv Hreq) as [Hinv1 [[-> ->]|[Hf Hvalid]]].
    + by rewrite (NewPage_full b Hreq).
    + pose proof (in_pool b1 f Hinv1 Hf) as [_ Hr].
      rewrite (NewPage_run b f b1 Hreq Hvalid Hr). simpl.
      apply (built_same (claim f (next_page_id_ b1) (flush_victim f b1))); [done|].
      apply built_claim. by apply (built_RequestFrameId b f).
  - destruct (page_table_ b !! p) as [f|] eqn:Hp.
    + destruct (inv_table b Hinv p f Hp) as (Hf & _).
      pose proof (in_pool b f Hinv Hf) as [_ Hr].
      rewrite (FetchPage_hit_run b p f Hp Hr). simpl.
      destruct IH as (n & k & Hbt). exists n, k. by apply built_miss.
    + destruct (RequestFrameId_normal b Hinv) as (f & b1 & Hreq).
      destruct (inv_RequestFrameId b f b1 Hinv Hreq) as [Hinv1 [[-> ->]|[Hf Hvalid]]].
      * by rewrite (FetchPage_full b p Hp Hreq).
      * pose proof (in_pool b1 f Hinv1 Hf) as [_ Hr].
        rewrite (FetchPage_miss_run b p f b1 Hp Hreq Hvalid Hr). simpl.
        apply built_DiskSchedule, built_claim. by apply (built_RequestFrameId b f).
  - destruct (page_table_ b !! p) as [f|] eqn:Hp.
    2:{ by rewrite (UnpinPage_absent b p d Hp). }
    destruct (decide (pin_count_ (page_at b f) <= 0)) as [Hle|Hgt].
    { by rewrite (UnpinPage_unpinned b p f d Hp Hle). }
    destruct (inv_table b Hinv p f Hp) as (Hf & _).
    pose proof (in_pool b f Hinv Hf) as [Hlt Hr].
    rewrite (UnpinPage_run b p f d) by (try done; lia). simpl.
    destruct IH as (n & k & Hbt). exists n, k. simpl.
    destruct (_ =? 0); [by apply built_SetEvictable | done].
  - destruct (page_table_ b !! p) as [f|] eqn:Hp.
    + rewrite (FlushPage_run b p f Hp). simpl.
      apply (built_same (after (DiskSchedule true f (page_id_ (page_at b f))) b));
        [done|]. by apply built_DiskSchedule.
    + by rewrite (FlushPage_absent b p Hp).
  - unfold FlushAllPages_in.
    destruct (flush_frames_run order b Hinv) as (b' & -> & _ & _ & _ & Hrep & _).
    { intros q f Hin. apply elem_of_map_to_list. by rewrite <- Hperm. }
    simpl. by apply (built_same b).
  - destruct (page_table_ b !! p) as [f|] eqn:Hp.
    2:{ by rewrite (DeletePage_absent b p Hp). }
    destruct (decide (0 < pin_count_ (page_at b f))) as [Hgt|Hle].
    { by rewrite (DeletePage_pinned b p f Hp Hgt). }
    destruct (inv_table b Hinv p f Hp) as (Hf & Hid & Hpin & Hz).
    pose proof (in_pool b f Hinv Hf) as [Hlt Hr].
    assert (Hevf : forall n0, node_store_ (replacer_ b) !! f = Some n0 ->
              is_evictable_ n0 = true) by (apply Hz; lia).
    rewrite (DeletePage_run b p f) by (try done; lia). simpl.
    destruct IH as (n & k & Hbt). exists n, k. simpl. by apply built_Remove.
  - apply (built_same b); [|done]. unfold write_data. by case_bool_decide.
Qed.

Lemma nodes_bounded b :
  inv b -> Z.of_nat (size (node_store_ (replacer_ b))) < 2 ^ 64.
Proof.
  intros Hinv. destruct (inv_size _ Hinv) as (_ & Hlen & Hmax).
  assert (length (map_to_list (node_store_ (replacer_ b))).*1 <= length (pages_ b))%nat
    as Hle.
  { apply range_length; [apply NoDup_fst_map_to_list|]. rewrite <- Hlen.
    intros f [[g n] [-> Hin]]%list_elem_of_fmap. simpl.
    apply elem_of_map_to_list in Hin. by destruct (inv_nodes _ Hinv g n Hin). }
  rewrite length_fmap, length_map_to_list in Hle. unfold SIZE_MAX in Hmax. lia.
Qed.

Lemma no_evictable r :
  evictable_count r = 0%nat ->
  forall f n, node_store_ r !! f = Some n -> is_evictable_ n = false.
Proof.
  unfold evictable_count. intros Hz%map_size_empty_iff f n Hn.
  destruct (is_evictable_ n) eqn:He; [|done].
  assert (filter (fun kn : Z * LRUKNode => is_evictable_ kn.2 = true) (node_store_ r)
          !! f = Some n) as Hin by by apply map_lookup_filter_Some.
  rewrite Hz in Hin. by rewrite lookup_empty in Hin.
Qed.

(** [RequestFrameId] finds no frame exactly when the free list is empty
    and no node is evictable. *)
Lemma RequestFrameId_invalid b :
  reachable b ->
  RequestFrameId b = Normal INVALID_FRAME_ID b
  <-> free_list_ b = []
      /\ forall f n, node_store_ (replacer_ b) !! f = Some n -> is_evictable_ n = false.
Proof.
  intros Hr. pose proof (reachable_inv _ Hr) as Hinv.
  destruct (reachable_built _ Hr) as (nf & k & Hbt).
  pose proof (Size_counts_evictable_aux (replacer_ b)
                (shaped_counted _ _ _ (built_shaped _ _ _ Hbt)) (nodes_bounded b Hinv))
    as Hsize.
  split.
  - intros Hreq. unfold RequestFrameId in Hreq.
    destruct (free_list_ b) as [|f0 rest] eqn:Hfl.
    2:{ injection Hreq as Hf0 _. destruct (inv_free _ Hinv f0) as [Hge _];
          [rewrite Hfl; left|]. unfold INVALID_FRAME_ID in Hf0. lia. }
    split; [done|].
    destruct (Z.ltb_spec 0 (Size (replacer_ b))) as [Hpos|Hzero].
    + pose proof (Evict_in_found (replacer_ b) (map_to_list (node_store_ (replacer_ b)))
                    (inv_keyed b Hinv) (reflexivity _)) as Hev.
      unfold Evict in Hreq.
      destruct (Evict_in _ (replacer_ b)) as [[v|] r'].
      * destruct Hev as [(nv & Hnv & _) _]. injection Hreq as Hv _. simpl in Hv.
        destruct (inv_nodes _ Hinv v nv Hnv) as [_ Hrange].
        unfold INVALID_FRAME_ID in Hv. lia.
      * by destruct Hev as [Hnone _].
    + apply no_evictable. lia.
  - intros [Hfl Hnone].
    destruct (RequestFrameId_cases b Hinv)
      as [(f0 & rest & Hfl' & _)|[(v & nv & _ & Hnv & Hevt & _)|[_ Hrun]]].
    + congruence.
    + rewrite (Hnone v nv Hnv) in Hevt. done.
    + done.
Qed.

(** X24. The pool is full exactly when no frame is left to take:
    [NewPage], and [FetchPage] of a page that is not resident, return
    the null pointer if and only if the free list is empty and no node
    of the replacer is evictable; every resident page is pinned then,
    and the call changes nothing. *)
Theorem null_iff_no_frame b :
  reachable b ->
  let full := free_list_ b = []
              /\ forall f n, node_store_ (replacer_ b) !! f = Some n ->
                   is_evictable_ n = false in
  (value_of (NewPage b) = Some None <-> full)
  /\ (forall p, page_table_ b !! p = None ->
        (value_of (FetchPage p b) = Some None <-> full))
  /\ (full ->
      NewPage b = Normal None b
      /\ (forall p, page_table_ b !! p = None -> FetchPage p b = Normal None b)
      /\ forall p f, page_table_ b !! p = Some f -> 0 < pin_count_ (page_at b f)).
Proof.
  intros Hr full. pose proof (reachable_inv _ Hr) as Hinv.
  pose proof (RequestFrameId_invalid b Hr) as Hiff. fold full in Hiff.
  destruct (RequestFrameId_normal b Hinv) as (f0 & b1 & Hreq).
  destruct (inv_RequestFrameId b f0 b1 Hinv Hreq) as [Hinv1 Hcase].
  assert (Hnew : value_of (NewPage b) = Some None <-> full).
  { destruct Hcase as [[-> ->]|[Hf Hvalid]].
    - rewrite (NewPage_full b Hreq). simpl. split; [intros _; by apply Hiff | done].
    - pose proof (in_pool b1 f0 Hinv1 Hf) as [_ Hrng].
      rewrite (NewPage_run b f0 b1 Hreq Hvalid Hrng). simpl.
      split; [done|]. intros Hfull%Hiff. congruence. }
  assert (Hfetch : forall p, page_table_ b !! p = None ->
            (value_of (FetchPage p b) = Some None <-> full)).
  { intros p Hp. destruct Hcase as [[-> ->]|[Hf Hvalid]].
    - rewrite (FetchPage_full b p Hp Hreq). simpl.
      split; [intros _; by apply Hiff | done].
    - pose proof (in_pool b1 f0 Hinv1 Hf) as [_ Hrng].
      rewrite (FetchPage_miss_run b p f0 b1 Hp Hreq Hvalid Hrng). simpl.
      split; [done|]. intros Hfull%Hiff. congruence. }
  split; [done|]. split; [done|].
  intros Hfull. pose proof Hfull as Hinvalid%Hiff.
  split; [by apply NewPage_full|].
  split; [intros p Hp; by apply FetchPage_full|].
  intros p f Hp. destruct (inv_table _ Hinv p f Hp) as (_ & _ & Hpin & Hz).
  destruct (reachable_tracked _ Hr p f Hp) as [n Hn].
  destruct Hfull as [_ Hnone]. specialize (Hnone f n Hn).
  destruct (decide (pin_count_ (page_at b f) = 0)) as [Hzero|Hne]; [|lia].
  rewrite (Hz Hzero n Hn) in Hnone. done.
Qed.

Lemma null_iff_no_frame_witness :
  let b := pool_exhausted in
  let full := free_list_ b = []
              /\ forall f n, node_store_ (replacer_ b) !! f = Some n ->
                   is_evictable_ n = false in
  (value_of (NewPage b) = Some None <-> full)
  /\ (forall p, page_table_ b !! p = None ->
        (value_of (FetchPage p b) = Some None <-> full))
  /\ (full ->
      NewPage b = Normal None b
      /\ (forall p, page_table_ b !! p = None -> FetchPage p b = Normal None b)
      /\ forall p f, page_table_ b !! p = Some f -> 0 < pin_count_ (page_at b f)).
Proof. apply (null_iff_no_frame pool_exhausted). unfold pool_exhausted. reach. Defined.

End PoolFull.


(** ** Orderly use of the pool *)

Module OrderlyProps.
Import Replacer ReplacerProps Bpm BpmProps BpmInv BpmInvProps BpmMore PoolFull Orderly.

Lemma orderly_reachable b : orderly b -> reachable b.
Proof.
  induction 1; [by apply reach_init | by apply reach_NewPage | by apply reach_FetchPage
               | by apply reach_UnpinPage | by apply reach_FlushPage
               | by apply reach_FlushAllPages | by apply reach_DeletePage
               | by apply reach_write].
Qed.

Lemma exact_same n b b' :
  pool_size_ b' = pool_size_ b -> free_list_ b' = free_list_ b ->
  page_table_ b' = page_table_ b ->
  (forall f, page_id_ (page_at b' f) = page_id_ (page_at b f)) ->
  exact_upto n b -> exact_upto n b'.
Proof.
  intros H1 H2 H3 H4 [Hres Hfree Hfr].
  split; rewrite ?H1, ?H2, ?H3; [done| |]; intros f; rewrite H4; [apply Hfree | apply Hfr].
Qed.

Lemma page_id_update_meta b f g h :
  (forall pg, page_id_ (g pg) = page_id_ pg) ->
  page_id_ (page_at (update_page f g b) h) = page_id_ (page_at b h).
Proof.
  intros Hg. destruct (page_at_update_cases b f g h) as [->| ->]; [done | apply Hg].
Qed.

Lemma exact_update_meta n b f g :
  (forall pg, page_id_ (g pg) = page_id_ pg) ->
  exact_upto n b -> exact_upto n (update_page f g b).
Proof. intros Hg. apply exact_same; try done. intros h. by apply page_id_update_meta. Qed.

Lemma exact_DiskSchedule n w f p b :
  exact_upto n b -> exact_upto n (after (DiskSchedule w f p) b).
Proof.
  unfold after, DiskSchedule. destruct w; simpl.
  - by apply exact_same.
  - destruct (disk_ _ !! p); simpl.
    + intros He. apply exact_update_meta; [done|]. revert He. by apply exact_same.
    + by apply exact_same.
Qed.

Lemma exact_flush_frames n order : forall b,
  exact_upto n b -> exact_upto n (state_of (flush_frames order b)).
Proof.
  induction order as [|[q f] rest IH]; intros b He; simpl; [done|].
  unfold bind. rewrite flush_frame_run. apply IH.
  apply exact_update_meta; [done|]. by apply exact_DiskSchedule.
Qed.

(** The miss path: a frame is taken and given to [page_id]. *)
Lemma exact_miss n b f b1 page_id :
  inv b -> tidy b -> exact_upto n b ->
  RequestFrameId b = Normal f b1 -> f <> INVALID_FRAME_ID ->
  page_table_ b !! page_id = None -> 0 <= page_id ->
  exact_upto (Z.max n (page_id + 1)) (claim f page_id (flush_victim f b1)).
Proof.
  intros Hinv Ht [Hres Hfree Hfr] Hreq Hvalid Hnone Hpid.
  destruct (inv_RequestFrameId b f b1 Hinv Hreq) as [Hinv1 [[-> _]|[Hf _]]]; [done|].
  destruct (tidy_RequestFrameId b f b1 Hinv Ht Hreq Hvalid) as (_ & Hnf & _ & _).
  destruct (RequestFrameId_same b f b1 Hinv Hreq) as (Hpages & Htab & _ & _ & Hps).
  destruct (flush_victim_same b1 f) as (Hps2 & Hpages2 & Hfl2 & Htab2 & _).
  pose proof (in_pool b1 f Hinv1 Hf) as [Hlt _].
  assert (Hpg : forall g, page_at (flush_victim f b1) g = page_at b g).
  { intros g. rewrite page_at_flush_victim. by apply (page_at_RequestFrameId b f). }
  assert (Hsub : forall g, g ∈ free_list_ b1 -> g ∈ free_list_ b).
  { intros g Hg. destruct (RequestFrameId_cases b Hinv)
      as [(f0 & rest & Hfl & Hrun)|[(v & nv & Hfl & _ & _ & Hrun)|[Hfl Hrun]]];
      rewrite Hrun in Hreq; injection Hreq as <- <-; simpl in Hg.
    - rewrite Hfl. by right.
    - done.
    - done. }
  assert (Hold : f ∈ free_list_ b \/ free_list_ b1 = free_list_ b).
  { destruct (RequestFrameId_cases b Hinv)
      as [(f0 & rest & Hfl & Hrun)|[(v & nv & Hfl & _ & _ & Hrun)|[Hfl Hrun]]];
      rewrite Hrun in Hreq; injection Hreq as <- <-.
    - left. rewrite Hfl. left.
    - by right.
    - by right. }
  assert (Hrest : forall g, g ∈ free_list_ b -> g <> f -> g ∈ free_list_ b1).
  { intros g Hg Hgf. destruct (RequestFrameId_cases b Hinv)
      as [(f0 & rest & Hfl & Hrun)|[(v & nv & Hfl & _ & _ & Hrun)|[Hfl Hrun]]];
      rewrite Hrun in Hreq; injection Hreq as <- <-; simpl.
    - rewrite Hfl in Hg. apply elem_of_cons in Hg as [?|?]; done.
    - done.
    - done. }
  split.
  - intros p g. unfold claim. simpl. rewrite lookup_insert. case_decide as Hp.
    + intros _. lia.
    + rewrite Htab2, Htab. intros [_ Hpg']%lookup_delete_Some.
      specialize (Hres p g Hpg'). lia.
  - intros g Hg. change (free_list_ (claim f page_id (flush_victim f b1)))
      with (free_list_ (flush_victim f b1)) in Hg. rewrite Hfl2 in Hg.
    assert (g <> f) as Hgf by (intros ->; done).
    pose proof (inv_free _ Hinv1 g Hg) as Hrange.
    rewrite page_at_claim_ne, Hpg by lia. apply Hfree. by apply Hsub.
  - intros g Hg. change (pool_size_ (claim f page_id (flush_victim f b1)))
      with (pool_size_ (flush_victim f b1)) in Hg. rewrite Hps2, Hps in Hg.
    change (free_list_ (claim f page_id (flush_victim f b1)))
      with (free_list_ (flush_victim f b1)). rewrite Hfl2.
    destruct (decide (g = f)) as [->|Hgf].
    + right. rewrite page_at_claim_eq by by rewrite Hpages2.
      unfold claim. simpl. apply lookup_insert_eq.
    + rewrite page_at_claim_ne, Hpg by lia.
      destruct (Hfr g Hg) as [Hin|Hin]; [left; by apply Hrest|]. right.
      unfold claim. simpl. rewrite Htab2, Htab, Hpg.
      rewrite lookup_insert_ne by congruence.
      rewrite lookup_delete_ne; [done|]. intros Heq.
      destruct Hold as [Hffree|Hsame].
      * rewrite (Hfree f Hffree) in Heq. specialize (Hres _ _ Hin).
        unfold INVALID_PAGE_ID in Heq. lia.
      * assert (0 <= f < pool_size_ b) as Hf' by by rewrite <- Hps.
        destruct (Hfr f Hf') as [Hffree|Hfres]; [rewrite <- Hsame in Hffree; done|].
        rewrite Heq in Hfres. congruence.
Qed.

Lemma exact_NewPage b :
  inv b -> tidy b -> exact b -> next_page_id_ b < 2 ^ 31 - 1 ->
  exact (state_of (NewPage b)).
Proof.
  intros Hinv Ht [Hnext He] Hroom.
  destruct (RequestFrameId_normal b Hinv) as (f & b1 & Hreq).
  destruct (inv_RequestFrameId b f b1 Hinv Hreq) as [Hinv1 [[-> ->]|[Hf Hvalid]]].
  - by rewrite (NewPage_full b Hreq).
  - pose proof (in_pool b1 f Hinv1 Hf) as [_ Hr].
    destruct (RequestFrameId_same b f b1 Hinv Hreq) as (_ & _ & Hnx & _).
    rewrite (NewPage_run b f b1 Hreq Hvalid Hr). simpl. rewrite Hnx.
    assert (Hfresh : page_table_ b !! next_page_id_ b = None).
    { destruct (page_table_ b !! next_page_id_ b) as [g|] eqn:E; [|done].
      pose proof (exact_resident _ _ He _ _ E). lia. }
    pose proof (exact_miss _ b f b1 (next_page_id_ b) Hinv Ht He Hreq Hvalid Hfresh
                  (proj1 Hnext)) as Hm.
    rewrite Z.max_r in Hm by lia.
    split; simpl; rewrite wrap_int32_small by lia; [lia|].
    revert Hm. by apply exact_same.
Qed.

Lemma exact_FetchPage b p :
  inv b -> tidy b -> exact b -> 0 <= p < next_page_id_ b ->
  exact (state_of (FetchPage p b)).
Proof.
  intros Hinv Ht [Hnext He] Hp.
  destruct (page_table_ b !! p) as [f|] eqn:Hres.
  - destruct (inv_table b Hinv p f Hres) as (Hf & _).
    pose proof (in_pool b f Hinv Hf) as [_ Hr].
    rewrite (FetchPage_hit_run b p f Hres Hr). simpl. split; [done|]. simpl.
    apply (exact_same _ (update_page f (fun pg => set_pin_count (pin_count_ pg + 1) pg) b));
      try done.
    by apply exact_update_meta.
  - destruct (RequestFrameId_normal b Hinv) as (f & b1 & Hreq).
    destruct (inv_RequestFrameId b f b1 Hinv Hreq) as [Hinv1 [[-> ->]|[Hf Hvalid]]].
    + by rewrite (FetchPage_full b p Hres Hreq).
    + pose proof (in_pool b1 f Hinv1 Hf) as [_ Hr].
      destruct (RequestFrameId_same b f b1 Hinv Hreq) as (_ & _ & Hnx & _).
      rewrite (FetchPage_miss_run b p f b1 Hres Hreq Hvalid Hr). simpl.
      pose proof (exact_miss _ b f b1 p Hinv Ht He Hreq Hvalid Hres (proj1 Hp)) as Hm.
      rewrite Z.max_l in Hm by lia.
      assert (Hn : next_page_id_ (after (DiskSchedule false f p)
                     (claim f p (flush_victim f b1))) = next_page_id_ b).
      { unfold after, DiskSchedule. simpl.
        destruct (disk_ _ !! p); simpl;
          by destruct (flush_victim_same b1 f) as (_ & _ & _ & _ & _ & ->). }
      split; rewrite Hn; [done|]. by apply exact_DiskSchedule.
Qed.

Lemma exact_UnpinPage b p d : inv b -> exact b -> exact (state_of (UnpinPage p d b)).
Proof.
  intros Hinv [Hnext He]. destruct (page_table_ b !! p) as [f|] eqn:Hp.
  2:{ by rewrite (UnpinPage_absent b p d Hp). }
  destruct (decide (pin_count_ (page_at b f) <= 0)) as [Hle|Hgt].
  { by rewrite (UnpinPage_unpinned b p f d Hp Hle). }
  destruct (inv_table b Hinv p f Hp) as (Hf & _).
  pose proof (in_pool b f Hinv Hf) as [Hlt Hr].
  rewrite (UnpinPage_run b p f d) by (try done; lia). simpl.
  split; [done|]. simpl. apply exact_update_meta; [done|].
  revert He. by apply exact_same.
Qed.

Lemma exact_FlushPage b p : exact b -> exact (state_of (FlushPage p b)).
Proof.
  intros [Hnext He]. destruct (page_table_ b !! p) as [f|] eqn:Hp.
  - rewrite (FlushPage_run b p f Hp). simpl.
    assert (Hn : next_page_id_ (update_page f (set_is_dirty false)
                    (after (DiskSchedule true f (page_id_ (page_at b f))) b))
                 = next_page_id_ b) by done.
    unfold exact. rewrite Hn. split; [done|].
    apply exact_update_meta; [done|]. by apply exact_DiskSchedule.
  - by rewrite (FlushPage_absent b p Hp).
Qed.

Lemma exact_FlushAllPages b order :
  inv b -> order ≡ₚ map_to_list (page_table_ b) -> exact b ->
  exact (state_of (FlushAllPages_in order b)).
Proof.
  intros Hinv Hperm [Hnext He]. unfold FlushAllPages_in.
  pose proof (exact_flush_frames _ order b He) as He'.
  destruct (flush_frames_run order b Hinv) as (b' & Hrun & _ & _ & _ & _ & Hn & _).
  { intros q f Hin. apply elem_of_map_to_list. by rewrite <- Hperm. }
  rewrite Hrun in He' |- *. simpl in *. split; by rewrite Hn.
Qed.

Lemma exact_DeletePage b p :
  inv b -> tidy b -> exact b -> exact (state_of (DeletePage p b)).
Proof.
  intros Hinv Ht [Hnext [Hres Hfree Hfr]]. destruct (page_table_ b !! p) as [f|] eqn:Hp.
  2:{ by rewrite (DeletePage_absent b p Hp). }
  destruct (decide (0 < pin_count_ (page_at b f))) as [Hgt|Hle].
  { by rewrite (DeletePage_pinned b p f Hp Hgt). }
  destruct (inv_table b Hinv p f Hp) as (Hf & Hid & Hpin & Hz).
  pose proof (in_pool b f Hinv Hf) as [Hlt Hr].
  assert (Hevf : forall n, node_store_ (replacer_ b) !! f = Some n -> is_evictable_ n = true).
  { apply Hz. lia. }
  rewrite (DeletePage_run b p f) by (try done; lia). simpl.
  set (g := fun pg => set_is_dirty false (set_pin_count 0
                        (set_page_id INVALID_PAGE_ID (ResetMemory pg)))).
  set (b0 := set_free_list (free_list_ b ++ [f])
               (set_replacer (after (Remove f) (replacer_ b))
                  (set_page_table (delete p (page_table_ b)) b))).
  split; [done|]. simpl.
  apply (exact_same _ (update_page f g b0)); try done.
  assert (Hpf : page_at (update_page f g b0) f = g (page_at b f)).
  { by rewrite page_at_update_eq. }
  assert (Hpg : forall h, 0 <= h -> h <> f -> page_at (update_page f g b0) h = page_at b h).
  { intros h Hh Hhf. rewrite page_at_update_ne by lia. done. }
  split; simpl.
  - intros q h [_ Hq]%lookup_delete_Some. by apply (Hres q h).
  - intros h [Hh| ->%list_elem_of_singleton]%elem_of_app; [|by rewrite Hpf].
    destruct (tidy_free _ Ht h Hh) as (Hnot & _).
    assert (h <> f) as Hhf by (intros ->; by apply (Hnot p)).
    pose proof (inv_free _ Hinv h Hh) as Hrange.
    rewrite Hpg by lia. by apply Hfree.
  - intros h Hh. destruct (decide (h = f)) as [->|Hhf].
    + left. apply elem_of_app. right. by apply list_elem_of_singleton.
    + rewrite Hpg by lia. destruct (Hfr h Hh) as [Hin|Hin].
      * left. apply elem_of_app. by left.
      * right. rewrite lookup_delete_ne; [done|]. intros Heq.
        rewrite <- Heq in Hin. congruence.
Qed.

Lemma exact_write_data b f d : exact b -> exact (write_data f d b).
Proof.
  intros [Hnext He]. unfold write_data. case_bool_decide; [|done].
  split; [done|]. simpl. by apply exact_update_meta.
Qed.

Lemma exact_init pool_size page_size k disk :
  Z.of_nat pool_size < 2 ^ 31 -> exact (init pool_size page_size k disk).
Proof.
  intros Hsz. split; [simpl; lia|]. 
  assert (Hid : forall f, page_id_ (page_at (init pool_size page_size k disk) f)
                          = INVALID_PAGE_ID).
  { intros f. unfold page_at. simpl.
    destruct (repeat _ pool_size !! Z.to_nat f) as [pg|] eqn:E; [|done].
    apply list_elem_of_lookup_2, list_elem_of_In, repeat_spec in E. by subst pg. }
  split; simpl.
  - intros p f. by rewrite lookup_empty.
  - intros f _. apply Hid.
  - intros f Hf. left. apply list_elem_of_fmap. exists (Z.to_nat f).
    split; [rewrite wrap_int32_small; lia|]. apply elem_of_seq. lia.
Qed.

Lemma orderly_exact b : orderly b -> exact b.
Proof.
  induction 1 as [| b Hb IH Hroom | b p Hb IH Hp | b p d Hb IH | b p Hb IH
                  | b order Hb IH Hperm | b p Hb IH | b f d Hb IH];
    try (pose proof (orderly_reachable _ Hb) as Hr;
         pose proof (reachable_inv _ Hr) as Hinv;
         pose proof (reachable_tidy _ Hr) as Ht).
  - by apply exact_init.
  - by apply exact_NewPage.
  - by apply exact_FetchPage.
  - by apply exact_UnpinPage.
  - by apply exact_FlushPage.
  - by apply exact_FlushAllPages.
  - by apply exact_DeletePage.
  - by apply exact_write_data.
Qed.

Ltac orderly_steps :=
  unfold after;
  repeat first [ apply orderly_NewPage; [|vm_compute; reflexivity]
               | apply orderly_FetchPage; [|vm_compute; split; [discriminate|reflexivity]]
               | apply orderly_UnpinPage | apply orderly_FlushPage
               | apply orderly_DeletePage | apply orderly_write
               | apply orderly_init; vm_compute; reflexivity ].

Lemma pool_exhausted_orderly : orderly pool_exhausted.
Proof. unfold pool_exhausted. orderly_steps. Qed.

Lemma pool_two_pages_orderly : orderly pool_two_pages.
Proof. unfold pool_two_pages. orderly_steps. Qed.

(** Outside orderly use a frame can be lost: in a pool of two frames,
    [FetchPage(0)] before any [NewPage] brings page 0 into frame 0, and
    [NewPage] then hands out the id 0 again, in frame 1; frame 0 stays
    pinned, and is neither free nor the frame of a resident page. *)
Example unallocated_fetch_loses_frame :
  let b := after NewPage (after (FetchPage 0) (init 2 4 2 ∅)) in
  value_of (NewPage (after (FetchPage 0) (init 2 4 2 ∅))) = Some (Some (0, 1))
  /\ page_table_ b !! 0 = Some 1
  /\ free_list_ b = []
  /\ size (page_table_ b) = 1%nat
  /\ pin_count_ (page_at b 0) = 1.
Proof. vm_compute. done. Qed.

(** X25. Under orderly use no frame is lost: every frame of the pool is
    in the free list or is the frame of the resident page whose id it
    holds, the free frames and the resident pages together are
    [pool_size_] many, and the ids of the resident pages are ids
    [NewPage] has handed out. *)
Theorem frames_conserved b :
  orderly b ->
  (forall f, 0 <= f < pool_size_ b ->
     f ∈ free_list_ b \/ page_table_ b !! page_id_ (page_at b f) = Some f)
  /\ Z.of_nat (length (free_list_ b)) + Z.of_nat (size (page_table_ b)) = pool_size_ b
  /\ (forall p f, page_table_ b !! p = Some f -> 0 <= p < next_page_id_ b).
Proof.
  intros Ho. pose proof (orderly_reachable _ Ho) as Hr.
  pose proof (reachable_inv _ Hr) as Hinv. pose proof (reachable_tidy _ Hr) as Ht.
  destruct (orderly_exact _ Ho) as [_ [Hres Hfree Hfr]].
  split; [done|]. split; [|done].
  destruct (inv_size _ Hinv) as (_ & Hlen & _).
  assert (length (owned b) <= length (pages_ b))%nat as Hle.
  { apply range_length; [by apply owned_nodup|]. rewrite <- Hlen.
    intros f Hf. by apply owned_range. }
  assert (seqZ 0 (pool_size_ b) ⊆+ owned b) as Hsub.
  { apply NoDup_submseteq; [apply NoDup_seqZ|]. intros f Hf%elem_of_seqZ.
    unfold owned. apply elem_of_app. destruct (Hfr f) as [Hin|Hin]; [lia|by left|].
    right. apply list_elem_of_fmap. exists (page_id_ (page_at b f), f).
    split; [done|]. by apply elem_of_map_to_list. }
  apply submseteq_length in Hsub. rewrite length_seqZ in Hsub.
  rewrite owned_length in Hle, Hsub. lia.
Qed.

Lemma frames_conserved_witness :
  let b := after (DeletePage 0) pool_two_pages in
  (forall f, 0 <= f < pool_size_ b ->
     f ∈ free_list_ b \/ page_table_ b !! page_id_ (page_at b f) = Some f)
  /\ Z.of_nat (length (free_list_ b)) + Z.of_nat (size (page_table_ b)) = pool_size_ b
  /\ (forall p f, page_table_ b !! p = Some f -> 0 <= p < next_page_id_ b).
Proof.
  apply (frames_conserved (after (DeletePage 0) pool_two_pages)).
  apply orderly_DeletePage, pool_two_pages_orderly.
Defined.

(** X26. Under orderly use [NewPage] returns the null pointer exactly
    when every frame of the pool is pinned. *)
Theorem NewPage_null_iff_all_pinned b :
  orderly b ->
  value_of (NewPage b) = Some None
  <-> forall f, 0 <= f < pool_size_ b -> 0 < pin_count_ (page_at b f).
Proof.
  intros Ho. pose proof (orderly_reachable _ Ho) as Hr.
  pose proof (reachable_inv _ Hr) as Hinv. pose proof (reachable_tidy _ Hr) as Ht.
  destruct (orderly_exact _ Ho) as [_ [Hres Hfree Hfr]].
  pose proof (RequestFrameId_invalid b Hr) as Hiff.
  destruct (RequestFrameId_normal b Hinv) as (f0 & b1 & Hreq).
  destruct (inv_RequestFrameId b f0 b1 Hinv Hreq) as [Hinv1 Hcase].
  assert (Hnull : value_of (NewPage b) = Some None
                  <-> RequestFrameId b = Normal INVALID_FRAME_ID b).
  { destruct Hcase as [[-> ->]|[Hf Hvalid]].
    - by rewrite (NewPage_full b Hreq).
    - pose proof (in_pool b1 f0 Hinv1 Hf) as [_ Hrng].
      rewrite (NewPage_run b f0 b1 Hreq Hvalid Hrng). simpl.
      split; [done | congruence]. }
  rewrite Hnull, Hiff. split.
  - intros [Hfl Hnone] f Hf. destruct (Hfr f Hf) as [Hin|Hin].
    { rewrite Hfl in Hin. inv Hin. }
    destruct (inv_table _ Hinv _ f Hin) as (_ & _ & Hpin & Hz).
    destruct (reachable_tracked _ Hr _ f Hin) as [n Hn].
    destruct (decide (pin_count_ (page_at b f) = 0)) as [Hzero|Hne]; [|lia].
    pose proof (Hnone f n Hn) as Hflag. by rewrite (Hz Hzero n Hn) in Hflag.
  - intros Hall. split.
    + destruct (free_list_ b) as [|g rest] eqn:Hfl; [done|].
      assert (g ∈ free_list_ b) as Hg by (rewrite Hfl; left).
      pose proof (Hall g (inv_free _ Hinv g Hg)).
      destruct (tidy_free _ Ht g Hg) as (_ & Hz & _). lia.
    + intros f n Hn. destruct (is_evictable_ n) eqn:He; [|done].
      destruct (inv_nodes _ Hinv f n Hn) as [_ Hf].
      pose proof (Hall f Hf). pose proof (tidy_evictable _ Ht f n Hn He). lia.
Qed.

Lemma NewPage_null_iff_all_pinned_witness :
  value_of (NewPage pool_exhausted) = Some None
  <-> forall f, 0 <= f < pool_size_ pool_exhausted ->
        0 < pin_count_ (page_at pool_exhausted f).
Proof. apply (NewPage_null_iff_all_pinned pool_exhausted), pool_exhausted_orderly. Defined.

End OrderlyProps.

(** ** Programs over the guards *)

Module GuardApiProps.
Import Replacer Bpm BpmProps Guards GuardsProps LatchedMoves GuardApi.

Lemma pool_step_inv b b' : inv b -> pool_step b b' -> inv b'.
Proof.
  intros Hinv Hstep. destruct Hstep as [b|b p|b p d|b p|b order Hperm|b p|b f d].
  - by destruct (NewPage_inv b Hinv) as (? & ? & -> & ?).
  - by destruct (FetchPage_inv b p Hinv) as (? & ? & -> & ?).
  - by destruct (UnpinPage_inv b p d Hinv) as (? & ? & -> & ?).
  - by destruct (FlushPage_inv b p Hinv) as (? & ? & -> & ?).
  - by destruct (FlushAllPages_in_inv order b Hinv) as (? & -> & ?).
  - by destruct (DeletePage_inv b p Hinv) as (? & ? & -> & ?).
  - by apply write_data_inv.
Qed.

(** A world that differs from [w] at the address [a] only, where no
    read or write guard lives. *)
Lemma latched_null_store ks w w' a k :
  latched_null ks w ->
  (forall a', a' <> a -> guard_at w' a' = guard_at w a') ->
  (k <> KBasic -> page_ (guard_at w' a) = None) ->
  latched_null (<[a := k]> ks) w'.
Proof.
  intros Hn Hoth Ha a' k'. rewrite lookup_insert. case_decide as E.
  - intros [= <-] Hk. subst a'. by apply Ha.
  - intros Hk' Hk. rewrite Hoth by done. by apply (Hn a' k').
Qed.

Lemma latched_null_keep ks w w' a :
  latched_null ks w ->
  (forall a', a' <> a -> guard_at w' a' = guard_at w a') ->
  (forall k, ks !! a = Some k -> k <> KBasic -> page_ (guard_at w' a) = None) ->
  latched_null ks w'.
Proof.
  intros Hn Hoth Ha a' k' Hk' Hk. destruct (decide (a' = a)) as [->|E].
  - by apply (Ha k').
  - rewrite Hoth by done. by apply (Hn a' k').
Qed.

Lemma latched_null_delete ks w a : latched_null ks w -> latched_null (delete a ks) w.
Proof. intros Hn a' k' [_ Hk']%lookup_delete_Some. by apply Hn. Qed.

Lemma guard_at_stored w b t a g a' :
  a' <> a ->
  guard_at {| pool := b; heap := <[a := g]> (heap w); trace := t |} a' = guard_at w a'.
Proof. intros Hne. unfold guard_at. simpl. by rewrite lookup_insert_ne. Qed.

(** The world a move construction or assignment of null guards leaves. *)
Lemma move_null w this that :
  page_ (guard_at w that) = None ->
  forall a, page_ (guard_at (after (BasicPageGuard_move this that) w) a)
            = if decide (a = this) then None
              else if decide (a = that) then None else page_ (guard_at w a).
Proof.
  intros Hthat a. unfold after. rewrite move_run. unfold guard_at. simpl.
  rewrite lookup_insert. case_decide as E1.
  - subst a. simpl. by repeat case_decide.
  - rewrite lookup_insert. case_decide as E2.
    + subst a. simpl. fold (guard_at w that). rewrite Hthat. by repeat case_decide.
    + rewrite !decide_False by done. done.
Qed.

(** In every world a program builds, the pool satisfies its invariant
    and no read or write guard holds a frame. *)
Lemma program_latched_null ks w : program ks w -> inv (pool w) /\ latched_null ks w.
Proof.
  induction 1 as
    [ b Hb
    | ks w b' Hp [Hinv Hn] Hstep
    | ks w p a Hp [Hinv Hn] Hfresh
    | ks w a Hp [Hinv Hn] Hfresh
    | ks w p a f Hp [Hinv Hn] Hfresh Hf
    | ks w p a f Hp [Hinv Hn] Hfresh Hf
    | ks w this result Hp [Hinv Hn] Hthis Hres
    | ks w this result Hp [Hinv Hn] Hthis Hres
    | ks w this that Hp [Hinv Hn] Hthat Hthis
    | ks w this that Hp [Hinv Hn] Hthis Hthat
    | ks w this Hp [Hinv Hn] Hthis
    | ks w this Hp [Hinv Hn] Hthis
    | ks w this that Hp [Hinv Hn] Hthat Hthis
    | ks w this that Hp [Hinv Hn] Hthis Hthat
    | ks w this Hp [Hinv Hn] Hthis
    | ks w this Hp [Hinv Hn] Hthis
    | ks w this that Hp [Hinv Hn] Hthat Hthis
    | ks w this that Hp [Hinv Hn] Hthis Hthat
    | ks w this Hp [Hinv Hn] Hthis
    | ks w this Hp [Hinv Hn] Hthis
    | ks w a page Hp [Hinv Hn] Hfresh
    | ks w a bpm page Hp [Hinv Hn] Hfresh
    | ks w a bpm page Hp [Hinv Hn] Hfresh ].
  - split; [by apply reachable_inv|]. intros a k. by rewrite lookup_empty.
  - split; [by apply (pool_step_inv (pool w))|]. done.
  - (* FetchPageBasic *)
    destruct (FetchPage_inv (pool w) p Hinv) as (res & b' & Hrun & Hinv').
    unfold after, FetchPageBasic, bind, on_pool. rewrite Hrun. simpl.
    split; [done|]. apply (latched_null_store ks w); [done| |done].
    intros a' Hne. by apply guard_at_stored.
  - (* NewPageGuarded *)
    destruct (NewPage_inv (pool w) Hinv) as (res & b' & Hrun & Hinv').
    unfold after, NewPageGuarded, bind, on_pool. rewrite Hrun. simpl.
    split; [done|]. apply (latched_null_store ks w); [done| |done].
    intros a' Hne. by apply guard_at_stored.
  - (* FetchPageRead *)
    destruct (FetchPage_inv (pool w) p Hinv) as (res & b' & Hrun & Hinv').
    unfold after, FetchPageRead, bind, on_pool. rewrite Hrun. simpl.
    destruct res as [f'|]; simpl; (split; [done|]);
      (apply (latched_null_store ks w); [done| |intros _; apply guard_at_store_eq
                                                 || by rewrite guard_at_store_eq]);
      intros a' Hne; by apply guard_at_stored.
  - (* FetchPageWrite *)
    destruct (FetchPage_inv (pool w) p Hinv) as (res & b' & Hrun & Hinv').
    unfold after, FetchPageWrite, bind, on_pool. rewrite Hrun. simpl.
    destruct res as [f'|]; simpl; (split; [done|]);
      (apply (latched_null_store ks w); [done| |intros _; apply guard_at_store_eq
                                                 || by rewrite guard_at_store_eq]);
      intros a' Hne; by apply guard_at_stored.
  - (* UpgradeRead *)
    split; [done|]. apply (latched_null_store ks w); [done| |].
    + intros a' Hne. by apply guard_at_stored.
    + intros _. unfold after, UpgradeRead, bind. simpl. by rewrite guard_at_store_eq.
  - (* UpgradeWrite *)
    split; [done|]. apply (latched_null_store ks w); [done| |].
    + intros a' Hne. by apply guard_at_stored.
    + intros _. unfold after, UpgradeWrite, bind. simpl. by rewrite guard_at_store_eq.
  - (* move of a basic guard *)
    assert (this <> that) as Hne by (intros ->; congruence).
    split; [done|]. intros a k. rewrite lookup_insert. case_decide as E.
    + intros [= <-]. done.
    + intros Hk Hlat. assert (a <> that) as E2 by (intros ->; congruence).
      unfold after. rewrite move_run. unfold guard_at. simpl.
      rewrite !lookup_insert_ne by done. by apply (Hn a k).
  - (* assignment of basic guards *)
    destruct (decide (this = that)) as [->|Hne].
    { unfold after, move_assign. rewrite decide_True by done. done. }
    unfold after. rewrite move_assign_run by done. unfold bind.
    destruct (Drop_conserves w this Hinv) as (w1 & -> & Hinv1 & _ & Hoth & _).
    rewrite move_run. simpl. split; [done|].
    intros a k Hk Hlat.
    assert (a <> this) as E1 by (intros ->; congruence).
    assert (a <> that) as E2 by (intros ->; congruence).
    unfold guard_at. simpl. rewrite !lookup_insert_ne by done.
    fold (guard_at w1 a). rewrite Hoth by done. by apply (Hn a k).
  - (* Drop of a basic guard *)
    destruct (Drop_conserves w this Hinv) as (w1 & Hrun & Hinv1 & _ & Hoth & _).
    unfold after. rewrite Hrun. simpl. split; [done|].
    apply (latched_null_keep ks w w1 this); [done|done|].
    intros k Hk. congruence.
  - (* destructor of a basic guard *)
    destruct (Drop_conserves w this Hinv) as (w1 & Hrun & Hinv1 & _ & Hoth & _).
    unfold after, BasicPageGuard_delete. rewrite Hrun. simpl. split; [done|].
    apply latched_null_delete. apply (latched_null_keep ks w w1 this); [done|done|].
    intros k Hk. congruence.
  - (* move of a read guard *)
    assert (Hnull : page_ (guard_at w that) = None) by by apply (Hn that KRead).
    split; [done|]. intros a k Hk Hlat. unfold ReadPageGuard_move.
    rewrite (move_null w this that Hnull). repeat case_decide; try done.
    rewrite lookup_insert_ne in Hk by done. by apply (Hn a k).
  - (* assignment of read guards *)
    unfold ReadPageGuard_move_assign. case_decide as Hne; [done|].
    assert (Hnull : page_ (guard_at w this) = None) by by apply (Hn this KRead).
    assert (Hsrc : page_ (guard_at w that) = None) by by apply (Hn that KRead).
    assert (Heq : after (move_assign this that) w
                  = after (BasicPageGuard_move this that) w).
    { unfold after. rewrite move_assign_run by done. unfold bind.
      by rewrite (Drop_null w this Hnull). }
    rewrite Heq. split; [done|]. intros a k Hk Hlat.
    rewrite (move_null w this that Hsrc). repeat case_decide; try done.
    by apply (Hn a k).
  - (* Drop of a read guard *)
    assert (Hnull : page_ (guard_at w this) = None) by by apply (Hn this KRead).
    destruct (latched_Drop_null w this Hnull) as [Hr _].
    unfold after. by rewrite Hr.
  - (* destructor of a read guard *)
    assert (Hnull : page_ (guard_at w this) = None) by by apply (Hn this KRead).
    destruct (latched_Drop_null w this Hnull) as [Hr _].
    unfold after, ReadPageGuard_delete, bind, BasicPageGuard_delete.
    rewrite Hr, (Drop_null w this Hnull). simpl. split; [done|].
    by apply latched_null_delete.
  - (* move of a write guard *)
    assert (Hnull : page_ (guard_at w that) = None) by by apply (Hn that KWrite).
    split; [done|]. intros a k Hk Hlat. unfold WritePageGuard_move.
    rewrite (move_null w this that Hnull). repeat case_decide; try done.
    rewrite lookup_insert_ne in Hk by done. by apply (Hn a k).
  - (* assignment of write guards *)
    unfold WritePageGuard_move_assign. case_decide as Hne; [done|].
    assert (Hnull : page_ (guard_at w this) = None) by by apply (Hn this KWrite).
    assert (Hsrc : page_ (guard_at w that) = None) by by apply (Hn that KWrite).
    assert (Heq : after (move_assign this that) w
                  = after (BasicPageGuard_move this that) w).
    { unfold after. rewrite move_assign_run by done. unfold bind.
      by rewrite (Drop_null w this Hnull). }
    rewrite Heq. split; [done|]. intros a k Hk Hlat.
    rewrite (move_null w this that Hsrc). repeat case_decide; try done.
    by apply (Hn a k).
  - (* Drop of a write guard *)
    assert (Hnull : page_ (guard_at w this) = None) by by apply (Hn this KWrite).
    destruct (latched_Drop_null w this Hnull) as [_ Hr].
    unfold after. by rewrite Hr.
  - (* destructor of a write guard *)
    assert (Hnull : page_ (guard_at w this) = None) by by apply (Hn this KWrite).
    destruct (latched_Drop_null w this Hnull) as [_ Hr].
    unfold after, WritePageGuard_delete, bind, BasicPageGuard_delete.
    rewrite Hr, (Drop_null w this Hnull). simpl. split; [done|].
    by apply latched_null_delete.
  - (* BasicPageGuard(bpm, page) *)
    split; [done|]. apply (latched_null_store ks w); [done| |done].
    intros a' Hne. by apply guard_at_stored.
  - (* ReadPageGuard(bpm, page) *)
    split; [done|]. apply (latched_null_store ks w); [done| |].
    + intros a' Hne. by apply guard_at_stored.
    + intros _. unfold after, ReadPageGuard_new. simpl. by rewrite guard_at_store_eq.
  - (* WritePageGuard(bpm, page) *)
    split; [done|]. apply (latched_null_store ks w); [done| |].
    + intros a' Hne. by apply guard_at_stored.
    + intros _. unfold after, WritePageGuard_new. simpl. by rewrite guard_at_store_eq.
Qed.

Lemma Drop_never_unlatches w this :
  inv (pool w) ->
  Forall (fun e => is_unlatch e = false) (trace w) ->
  Forall (fun e => is_unlatch e = false) (trace (after (Drop this) w)).
Proof.
  intros Hinv Hq. destruct (page_ (guard_at w this)) as [f0|] eqn:Hg.
  - destruct (Drop_calls w this f0 Hinv Hg) as (w' & Hrun & _ & Htr & _).
    unfold after. rewrite Hrun. simpl. rewrite Htr.
    apply Forall_app. split; [done|]. by repeat constructor.
  - unfold after. by rewrite (Drop_null w this Hg).
Qed.

(** No program ever releases a latch. *)
Lemma program_never_unlatches ks w :
  program ks w -> Forall (fun e => is_unlatch e = false) (trace w).
Proof.
  induction 1 as
    [ b Hb
    | ks w b' Hp IH Hstep
    | ks w p a Hp IH Hfresh
    | ks w a Hp IH Hfresh
    | ks w p a f Hp IH Hfresh Hf
    | ks w p a f Hp IH Hfresh Hf
    | ks w this result Hp IH Hthis Hres
    | ks w this result Hp IH Hthis Hres
    | ks w this that Hp IH Hthat Hthis
    | ks w this that Hp IH Hthis Hthat
    | ks w this Hp IH Hthis
    | ks w this Hp IH Hthis
    | ks w this that Hp IH Hthat Hthis
    | ks w this that Hp IH Hthis Hthat
    | ks w this Hp IH Hthis
    | ks w this Hp IH Hthis
    | ks w this that Hp IH Hthat Hthis
    | ks w this that Hp IH Hthis Hthat
    | ks w this Hp IH Hthis
    | ks w this Hp IH Hthis
    | ks w a page Hp IH Hfresh
    | ks w a bpm page Hp IH Hfresh
    | ks w a bpm page Hp IH Hfresh ];
    try (destruct (program_latched_null ks w Hp) as [Hinv Hn]).
  - constructor.
  - done.
  - destruct (FetchPage_inv (pool w) p Hinv) as (res & b' & Hrun & _).
    unfold after, FetchPageBasic, bind, on_pool. by rewrite Hrun.
  - destruct (NewPage_inv (pool w) Hinv) as (res & b' & Hrun & _).
    unfold after, NewPageGuarded, bind, on_pool. by rewrite Hrun.
  - destruct (FetchPage_inv (pool w) p Hinv) as (res & b' & Hrun & _).
    unfold after, FetchPageRead, bind, on_pool. rewrite Hrun.
    destruct res; simpl; [|done]. apply Forall_app. split; [done|]. by repeat constructor.
  - destruct (FetchPage_inv (pool w) p Hinv) as (res & b' & Hrun & _).
    unfold after, FetchPageWrite, bind, on_pool. rewrite Hrun.
    destruct res; simpl; [|done]. apply Forall_app. split; [done|]. by repeat constructor.
  - done.
  - done.
  - done.
  - destruct (decide (this = that)) as [->|Hne].
    { unfold after, move_assign. by rewrite decide_True. }
    unfold after. rewrite move_assign_run by done. unfold bind.
    pose proof (Drop_never_unlatches w this Hinv IH) as Hd. unfold after in Hd.
    destruct (Drop this w) as [[] w1|e w1]; [|exact Hd].
    cbn beta iota. rewrite move_run. exact Hd.
  - by apply Drop_never_unlatches.
  - by apply Drop_never_unlatches.
  - done.
  - unfold ReadPageGuard_move_assign. case_decide; [done|].
    unfold after. rewrite move_assign_run by done. unfold bind.
    rewrite (Drop_null w this) by by apply (Hn this KRead). by rewrite move_run.
  - destruct (latched_Drop_null w this) as [Hr _]; [by apply (Hn this KRead)|].
    unfold after. by rewrite Hr.
  - destruct (latched_Drop_null w this) as [Hr _]; [by apply (Hn this KRead)|].
    unfold after, ReadPageGuard_delete, bind, BasicPageGuard_delete.
    rewrite Hr, (Drop_null w this) by by apply (Hn this KRead). done.
  - done.
  - unfold WritePageGuard_move_assign. case_decide; [done|].
    unfold after. rewrite move_assign_run by done. unfold bind.
    rewrite (Drop_null w this) by by apply (Hn this KWrite). by rewrite move_run.
  - destruct (latched_Drop_null w this) as [_ Hr]; [by apply (Hn this KWrite)|].
    unfold after. by rewrite Hr.
  - destruct (latched_Drop_null w this) as [_ Hr]; [by apply (Hn this KWrite)|].
    unfold after, WritePageGuard_delete, bind, BasicPageGuard_delete.
    rewrite Hr, (Drop_null w this) by by apply (Hn this KWrite). done.
  - done.
  - done.
  - done.
Qed.

Lemma start_pool_reachable :
  reachable (after (UnpinPage 0 false) (after NewPage (Bpm.init 1 4 2 ∅))).
Proof.
  apply reach_UnpinPage, reach_NewPage, reach_init. simpl. lia.
Qed.

Lemma world_read_program : program (<[1%nat := KRead]> ∅) world_read.
Proof.
  apply (program_FetchPageRead ∅ _ 0 1%nat 0).
  - apply program_start, start_pool_reachable.
  - reflexivity.
  - vm_compute. reflexivity.
Qed.

Lemma world_write_program : program (<[1%nat := KWrite]> ∅) world_write.
Proof.
  apply (program_FetchPageWrite ∅ _ 0 1%nat 0).
  - apply program_start, start_pool_reachable.
  - reflexivity.
  - vm_compute. reflexivity.
Qed.

Lemma world_two_reads_program :
  program (<[2%nat := KRead]> (<[1%nat := KRead]> ∅)) world_two_reads.
Proof.
  apply (program_FetchPageRead _ _ 0 2%nat 0).
  - apply world_read_program.
  - reflexivity.
  - vm_compute. reflexivity.
Qed.

(** C6 (what the code does). In every world a program builds with the
    pool and the guards, the guard inside a read guard or a write guard
    holds no frame, because the constructors that take (bpm, page) store
    neither. So the [Drop] and the destructor of every read guard and
    every write guard return with the world as it was: no latch is
    released and [UnpinPage] is not called, in no order; and no call that
    releases a latch has been made at any earlier point of the
    program. *)
Theorem latched_Drop_makes_no_call ks w a k :
  program ks w -> ks !! a = Some k -> k <> KBasic ->
  page_ (guard_at w a) = None
  /\ match k with
     | KRead => ReadPageGuard_Drop a w = Normal tt w
                /\ ReadPageGuard_delete a w = Normal tt w
     | KWrite => WritePageGuard_Drop a w = Normal tt w
                 /\ WritePageGuard_delete a w = Normal tt w
     | KBasic => True
     end
  /\ Forall (fun e => is_unlatch e = false) (trace w).
Proof.
  intros Hp Hk Hlat. destruct (program_latched_null ks w Hp) as [_ Hn].
  assert (Hnull : page_ (guard_at w a) = None) by by apply (Hn a k).
  destruct (latched_Drop_null w a Hnull) as [Hr Hw].
  split; [done|]. split; [|by apply (program_never_unlatches ks)].
  destruct k; [done| |].
  - split; [done|]. unfold ReadPageGuard_delete, bind, BasicPageGuard_delete.
    rewrite Hr. by apply Drop_null.
  - split; [done|]. unfold WritePageGuard_delete, bind, BasicPageGuard_delete.
    rewrite Hw. by apply Drop_null.
Qed.

Lemma latched_Drop_makes_no_call_witness :
  page_ (guard_at world_read 1) = None
  /\ (ReadPageGuard_Drop 1 world_read = Normal tt world_read
      /\ ReadPageGuard_delete 1 world_read = Normal tt world_read)
  /\ Forall (fun e => is_unlatch e = false) (trace world_read).
Proof.
  apply (latched_Drop_makes_no_call (<[1%nat := KRead]> ∅) world_read 1%nat KRead).
  - apply world_read_program.
  - reflexivity.
  - discriminate.
Defined.

(** The read guard of [world_read] is the guard [FetchPageRead] returned
    for page 0 in frame 0: the call pinned the page and took the shared
    latch. The guard is dropped and destroyed: the calls made are still
    the one [RLatch], the page is still pinned, and [DeletePage] answers
    false. A drop that released the latch and gave the pin back would
    have made two more calls. *)
Example read_guard_Drop_on_fetched_page :
  let w := after (ReadPageGuard_delete 1) (after (ReadPageGuard_Drop 1) world_read) in
  trace world_read = [CallRLatch 0]
  /\ pins 0 world_read = 1
  /\ trace w = [CallRLatch 0]
  /\ pins 0 w = 1
  /\ value_of (DeletePage 0 (pool w)) = Some false.
Proof. vm_compute. done. Qed.

Example write_guard_Drop_on_fetched_page :
  let w := after (WritePageGuard_delete 1) (after (WritePageGuard_Drop 1) world_write) in
  trace world_write = [CallWLatch 0]
  /\ pins 0 world_write = 1
  /\ trace w = [CallWLatch 0]
  /\ pins 0 w = 1
  /\ value_of (DeletePage 0 (pool w)) = Some false.
Proof. vm_compute. done. Qed.

(** X23. The moves of read guards and write guards make no call. In
    every world a program builds, the move construction of a new read
    or write guard from another, and the move assignment between two
    guards of one class, return; they leave the pool and the calls made
    as they were, and both guards hold nothing afterwards; every other
    guard is unchanged. *)
Theorem latched_moves_make_no_call ks w this that k :
  program ks w -> ks !! that = Some k -> k <> KBasic ->
  let move := match k with
              | KWrite => WritePageGuard_move this that
              | _ => ReadPageGuard_move this that
              end in
  let assign := match k with
                | KWrite => WritePageGuard_move_assign this that
                | _ => ReadPageGuard_move_assign this that
                end in
  (ks !! this = None ->
   exists w', move w = Normal tt w'
     /\ pool w' = pool w /\ trace w' = trace w
     /\ page_ (guard_at w' this) = None /\ page_ (guard_at w' that) = None
     /\ forall a, a <> this -> a <> that -> guard_at w' a = guard_at w a)
  /\ (ks !! this = Some k ->
      exists w', assign w = Normal tt w'
        /\ pool w' = pool w /\ trace w' = trace w
        /\ page_ (guard_at w' this) = None /\ page_ (guard_at w' that) = None
        /\ forall a, a <> this -> a <> that -> guard_at w' a = guard_at w a).
Proof.
  intros Hp Hk Hlat move assign. destruct (program_latched_null ks w Hp) as [_ Hn].
  assert (Hthat : page_ (guard_at w that) = None) by by apply (Hn that k).
  assert (Hmove : exists w', BasicPageGuard_move this that w = Normal tt w'
            /\ pool w' = pool w /\ trace w' = trace w
            /\ page_ (guard_at w' this) = None /\ page_ (guard_at w' that) = None
            /\ forall a, a <> this -> a <> that -> guard_at w' a = guard_at w a).
  { eexists. split; [apply move_run|]. do 2 (split; [done|]).
    pose proof (move_null w this that Hthat) as Hm.
    unfold after in Hm. rewrite move_run in Hm. simpl in Hm.
    split; [rewrite Hm; by rewrite decide_True|].
    split; [rewrite Hm; by repeat case_decide|].
    intros a H1 H2. unfold guard_at. simpl. by rewrite !lookup_insert_ne. }
  split.
  - intros _. subst move. unfold WritePageGuard_move, ReadPageGuard_move.
    by destruct k.
  - intros Hthis.
    assert (Hnull : page_ (guard_at w this) = None) by by apply (Hn this k).
    assert (Hassign : exists w',
              (if decide (this = that) then ret tt else move_assign this that) w
              = Normal tt w'
              /\ pool w' = pool w /\ trace w' = trace w
              /\ page_ (guard_at w' this) = None /\ page_ (guard_at w' that) = None
              /\ forall a, a <> this -> a <> that -> guard_at w' a = guard_at w a).
    { case_decide as E.
      - subst that. exists w. by repeat split.
      - rewrite move_assign_run by done. unfold bind.
        by rewrite (Drop_null w this Hnull). }
    subst assign. unfold WritePageGuard_move_assign, ReadPageGuard_move_assign.
    by destruct k.
Qed.

Lemma latched_moves_make_no_call_witness :
  let w := world_two_reads in
  (exists w', ReadPageGuard_move 3 2 w = Normal tt w'
     /\ pool w' = pool w /\ trace w' = trace w
     /\ page_ (guard_at w' 3) = None /\ page_ (guard_at w' 2) = None
     /\ forall a, a <> 3%nat -> a <> 2%nat -> guard_at w' a = guard_at w a)
  /\ (exists w', ReadPageGuard_move_assign 1 2 w = Normal tt w'
        /\ pool w' = pool w /\ trace w' = trace w
        /\ page_ (guard_at w' 1) = None /\ page_ (guard_at w' 2) = None
        /\ forall a, a <> 1%nat -> a <> 2%nat -> guard_at w' a = guard_at w a).
Proof.
  intros w.
  destruct (latched_moves_make_no_call
              (<[2%nat := KRead]> (<[1%nat := KRead]> ∅)) world_two_reads 3%nat 2%nat KRead
              world_two_reads_program eq_refl ltac:(discriminate)) as [Hm _].
  destruct (latched_moves_make_no_call
              (<[2%nat := KRead]> (<[1%nat := KRead]> ∅)) world_two_reads 1%nat 2%nat KRead
              world_two_reads_program eq_refl ltac:(discriminate)) as [_ Ha].
  split; [apply Hm; reflexivity | apply Ha; reflexivity].
Defined.

End GuardApiProps.
